(** * doozer client: the connection multiplexer, the frame codec and the
      client operations of [conn.go], embedded and verified.

    Layout of the development:
    - machine integers ([int32], [int]) and bytes;
    - the protocol records ([request], [response]) and Go's [error] values;
    - [Frame]: the byte stream under a connection, [read] and [write];
    - [Mux]: the multiplexer goroutine as a transition system over the tag
      table and the transactions it shares with its callers, [call], [Close];
    - [Client]: the blocking operations ([Getdir], [Walk], [Wait],
      [Getdirinfo], ...) and [dialUri] over an abstract server.
    The definitions come first; their properties follow in the second
    part, module by module ([FrameFacts], [MuxFacts], [ClientFacts]). *)

From Stdlib Require Import ZArith Lia List Bool Ascii.
From stdpp Require Import base option list gmap strings.

Open Scope Z_scope.

(** ** Machine integers *)

(** Conversion of a mathematical integer to a signed [bits]-bit integer: the
    two's complement wrap-around of Go's fixed-size arithmetic. *)
Definition wrap (bits : Z) (z : Z) : Z :=
  (z + 2 ^ (bits - 1)) mod 2 ^ bits - 2 ^ (bits - 1).

(** [int32(x)]. *)
Definition int32 (z : Z) : Z := wrap 32 z.

(** Go's [int]; the development fixes the 64-bit width. *)
Definition int (z : Z) : Z := wrap 64 z.

(** [uint32(x)]. *)
Definition uint32 (z : Z) : Z := z mod 2 ^ 32.

Definition in_int32 (z : Z) : Prop := - 2 ^ 31 <= z < 2 ^ 31.
Definition in_int (z : Z) : Prop := - 2 ^ 63 <= z < 2 ^ 63.

(** ** Bytes *)

Abbreviation byte := Byte.byte.

Definition Z_of_byte (b : byte) : Z := Z.of_N (Byte.to_N b).

(** [byte(x)]: the low eight bits. *)
Definition byte_of_Z (z : Z) : byte :=
  default Byte.x00 (Byte.of_N (Z.to_N (z mod 256))).

(** [binary.BigEndian.PutUint32]. *)
Definition PutUint32 (v : Z) : list byte :=
  [ byte_of_Z (Z.shiftr v 24); byte_of_Z (Z.shiftr v 16);
    byte_of_Z (Z.shiftr v 8); byte_of_Z v ].

(** [binary.BigEndian.Uint32] on a four byte buffer. *)
Definition Uint32 (bs : list byte) : Z :=
  match bs with
  | [b0; b1; b2; b3] =>
      Z.lor (Z_of_byte b3)
        (Z.lor (Z.shiftl (Z_of_byte b2) 8)
           (Z.lor (Z.shiftl (Z_of_byte b1) 16) (Z.shiftl (Z_of_byte b0) 24)))
  | _ => 0
  end.

(** ** Protocol records and errors *)

(** Modelled from the spec: the server error codes of the message codec
    ([response_Err], declared with the generated protocol code).  [conn.go]
    names two of them, [ErrRange] and [ErrNoEnt]; the others are kept by
    their numeric code. *)
Inductive response_Err :=
| ErrRange
| ErrNoEnt
| ErrCodeOther (code : Z).

Inductive request_Verb :=
| request_GET | request_SET | request_DEL | request_REV | request_WAIT
| request_NOP | request_WALK | request_GETDIR | request_STAT
| request_ACCESS.

(** Modelled from the spec: the request record of the message codec (verb,
    path, value, revision, tag, offset); optional fields are Go pointers. *)
Record request := mkRequest {
  req_Tag : option Z;
  req_Verb : option request_Verb;
  req_Path : option string;
  req_Value : list byte;
  req_Rev : option Z;
  req_Offset : option Z
}.

(** Modelled from the spec: the response record of the message codec (tag,
    revision, path, value, flags, error code); [Len] is read by [Stat]. *)
Record response := mkResponse {
  resp_Tag : option Z;
  resp_Flags : option Z;
  resp_Rev : option Z;
  resp_Path : option string;
  resp_Value : list byte;
  resp_Len : option Z;
  resp_ErrCode : option response_Err;
  resp_ErrDetail : option string
}.

(** The zero value of [request] ([var t txn] leaves [t.req] zeroed). *)
Definition request_zero : request :=
  mkRequest None None None [] None None.

(** Modelled from the spec: [*Error], the structured error built from a
    response that carries an error code; it exposes the request it answers
    and the code. *)
Record Error := mkError {
  Err : response_Err;
  Detail : option string;
  Req : request
}.

(** Go [error] values that [conn.go] produces or passes on.  [EError] is a
    [*Error]; [ECode] is a bare [response_Err] used as an error (what
    [Statinfo] returns for a missing file). *)
Inductive error :=
| ErrInvalidUri
| ErrClosed
| io_EOF
| io_ErrUnexpectedEOF
| ENet (msg : string)
| ECodec (msg : string)
| EQuery (msg : string)
| EError (e : Error)
| ECode (c : response_Err).

(** Transport errors: what the byte stream itself reports. *)
Definition is_transport (e : error) : bool :=
  match e with
  | io_EOF | io_ErrUnexpectedEOF | ENet _ => true
  | _ => false
  end.

(** The test [ok && err.Err == code] after the type assertion of [err] to
    a pointer to [Error]. *)
Definition is_Error_with (code : response_Err) (e : option error) : bool :=
  match e with
  | Some (EError x) =>
      match Err x, code with
      | ErrRange, ErrRange => true
      | ErrNoEnt, ErrNoEnt => true
      | ErrCodeOther a, ErrCodeOther b => Z.eqb a b
      | _, _ => false
      end
  | _ => false
  end.

(** The result of an operation that failed with a structured error of the
    code [code] and the detail [detail]. *)
Definition rejected (code : response_Err) (detail : option string)
    (err : option error) : Prop :=
  exists x, err = Some (EError x) /\ Err x = code /\ Detail x = detail /\
            is_Error_with code err = true.

(** ** The frame codec *)

Module Frame.

(** How the read side of the stream ends once its bytes are used up. *)
Inductive stream_end :=
| EndEOF
| EndErr (msg : string).

(** The [net.Conn] under a connection: the bytes the peer still delivers
    ([rd]) and how the stream ends after them, the bytes written so far
    ([wr]), the outcome of the coming [Write] calls ([wr_faults], [None] or
    an exhausted list meaning success), and whether [Close] was called. *)
Record netconn := mkNetconn {
  rd : list byte;
  rd_end : stream_end;
  wr : list byte;
  wr_faults : list (option error);
  closed : bool
}.

(** Outcome of an operation that may fail or crash the program. *)
Inductive result (A : Type) :=
| Ok (a : A)
| Fail (e : error)
| Panic.
Arguments Ok {A} a.
Arguments Fail {A} e.
Arguments Panic {A}.

Definition end_error (e : stream_end) (partial : bool) : error :=
  match e with
  | EndEOF => if partial then io_ErrUnexpectedEOF else io_EOF
  | EndErr msg => ENet msg
  end.

(** [io.ReadFull(c.conn, buf)] for a buffer of [n] bytes. *)
Definition ReadFull (c : netconn) (n : nat) : result (list byte) * netconn :=
  match n with
  | O => (Ok [], c)
  | _ =>
      if closed c then (Fail (ENet "use of closed network connection"), c)
      else if (n <=? length (rd c))%nat
      then (Ok (take n (rd c)),
            mkNetconn (drop n (rd c)) (rd_end c) (wr c) (wr_faults c) (closed c))
      else (Fail (end_error (rd_end c) (negb (length (rd c) =? 0)%nat)),
            mkNetconn [] (rd_end c) (wr c) (wr_faults c) (closed c))
  end.

(** [c.conn.Write(b)]. *)
Definition Write (c : netconn) (b : list byte) : option error * netconn :=
  if closed c then (Some (ENet "use of closed network connection"), c)
  else match wr_faults c with
       | Some e :: rest =>
           (Some e, mkNetconn (rd c) (rd_end c) (wr c) rest (closed c))
       | None :: rest =>
           (None, mkNetconn (rd c) (rd_end c) (wr c ++ b) rest (closed c))
       | [] =>
           (None, mkNetconn (rd c) (rd_end c) (wr c ++ b) [] (closed c))
       end.

(** [c.conn.Close()]. *)
Definition Close (c : netconn) : netconn :=
  mkNetconn (rd c) (rd_end c) (wr c) (wr_faults c) true.

(** [func (c *Conn) read() ([]byte, error)]: [binary.Read] of an [int32]
    size, [make([]byte, size)] (which panics on a negative size), then
    [io.ReadFull]. *)
Definition read (c : netconn) : result (list byte) * netconn :=
  match ReadFull c 4 with
  | (Ok hdr, c1) =>
      let size := int32 (Uint32 hdr) in
      if size <? 0 then (Panic, c1)
      else match ReadFull c1 (Z.to_nat size) with
           | (Ok buf, c2) => (Ok buf, c2)
           | (Fail e, c2) => (Fail e, c2)
           | (Panic, c2) => (Panic, c2)
           end
  | (Fail e, c1) => (Fail e, c1)
  | (Panic, c1) => (Panic, c1)
  end.

(** [func (c *Conn) write(buf []byte) error]: [binary.Write] of
    [int32(len(buf))] in big-endian order, then the payload. *)
Definition write (c : netconn) (buf : list byte) : option error * netconn :=
  match Write c (PutUint32 (uint32 (int32 (Z.of_nat (length buf))))) with
  | (Some e, c1) => (Some e, c1)
  | (None, c1) => Write c1 buf
  end.

(** The bytes of one frame on the wire: what [write] emits for [buf]. *)
Definition frame (buf : list byte) : list byte :=
  PutUint32 (Z.of_nat (length buf) mod 2 ^ 32) ++ buf.

(** The contract of the frame writer: on success the stream has grown by a
    four byte big-endian prefix that holds the payload length, followed by
    the payload; a failure is a failure of an underlying [Write]. *)
Definition write_contract (c : netconn) (buf : list byte) : Prop :=
  match write c buf with
  | (None, c') =>
      exists hdr, length hdr = 4%nat /\
        Uint32 hdr = Z.of_nat (length buf) /\ wr c' = wr c ++ hdr ++ buf
  | (Some e, _) => closed c = true \/ In (Some e) (take 2 (wr_faults c))
  end.

(** The contract of the frame reader: on success it has consumed a four
    byte big-endian length and exactly that many bytes, which it returns; it
    fails, with a transport error, when the stream is closed or one of the
    two reads is short; it does nothing else. *)
Definition read_contract (c : netconn) : Prop :=
  let size := Uint32 (take 4 (rd c)) in
  match read c with
  | (Ok buf, c') =>
      closed c = false /\ (4 <= length (rd c))%nat /\
      Z.of_nat (length buf) = size /\
      buf = take (Z.to_nat size) (drop 4 (rd c)) /\
      rd c' = drop (Z.to_nat size) (drop 4 (rd c))
  | (Fail e, _) =>
      is_transport e = true /\
      (closed c = true \/ (length (rd c) < 4)%nat \/
       Z.of_nat (length (drop 4 (rd c))) < size)
  | (Panic, _) => False
  end.

(** The next frame header, if the stream still delivers one, announces a
    length that fits a non-negative [int32]. *)
Definition header_ok (c : netconn) : bool :=
  closed c || (length (rd c) <? 4)%nat || (Uint32 (take 4 (rd c)) <? 2 ^ 31).

End Frame.

(** ** The multiplexer *)

Module Mux.
Import Frame.

(** A [*txn]: the address of a transaction in the memory the callers and
    the multiplexer share.  The nil pointer is [None] of [option ptr]. *)
Definition ptr := nat.

(** [type txn struct]; [t_done] records that a value was delivered on the
    transaction's [done] channel. *)
Record txn := mkTxn {
  t_req : request;
  t_resp : option response;
  t_err : option error;
  t_done : bool
}.

(** [var t txn]. *)
Definition txn_zero : txn := mkTxn request_zero None None false.

(** Modelled from the spec: [newError(t)], declared beside [Error]; it
    decodes the error code of [t.resp] into a structured error. *)
Definition newError (t : txn) (r : response) (code : response_Err) : Error :=
  mkError code (resp_ErrDetail r) (t_req t).

(** Where the multiplexer goroutine stands: at its [select], returned from
    [mux], stopped by a run-time panic, or caught for ever in the search for
    an unused tag. *)
Inductive status :=
| Running
| Exited
| Crashed
| Spinning.

(** The connection and the goroutine's locals.  [txns] is the tag table
    ([map[int32]*txn], an entry may hold nil), [n] the next tag, [heap] the
    transactions by address, [c_stop] the content of the buffered channel
    [c.stop] (capacity one), [c_stopped] whether [c.stopped] is closed. *)
Record sys := mkSys {
  txns : gmap Z (option ptr);
  n : Z;
  heap : gmap ptr txn;
  c_conn : netconn;
  c_err : option error;
  c_stop : list bool;
  c_stopped : bool;
  pc : status
}.

Definition set_table (s : sys) (m : gmap Z (option ptr)) (k : Z) : sys :=
  mkSys m k (heap s) (c_conn s) (c_err s) (c_stop s) (c_stopped s) (pc s).
Definition set_heap (s : sys) (h : gmap ptr txn) : sys :=
  mkSys (txns s) (n s) h (c_conn s) (c_err s) (c_stop s) (c_stopped s) (pc s).
Definition set_conn (s : sys) (c : netconn) : sys :=
  mkSys (txns s) (n s) (heap s) c (c_err s) (c_stop s) (c_stopped s) (pc s).
Definition set_err (s : sys) (e : option error) : sys :=
  mkSys (txns s) (n s) (heap s) (c_conn s) e (c_stop s) (c_stopped s) (pc s).
Definition set_stop (s : sys) (b : list bool) : sys :=
  mkSys (txns s) (n s) (heap s) (c_conn s) (c_err s) b (c_stopped s) (pc s).
Definition set_stopped (s : sys) (b : bool) : sys :=
  mkSys (txns s) (n s) (heap s) (c_conn s) (c_err s) (c_stop s) b (pc s).
Definition set_pc (s : sys) (st : status) : sys :=
  mkSys (txns s) (n s) (heap s) (c_conn s) (c_err s) (c_stop s) (c_stopped s) st.

(** The state [dial] leaves behind: empty table, [n = 0], open channels. *)
Definition dial (c : netconn) (h : gmap ptr txn) : sys :=
  mkSys ∅ 0 h c None [] false Running.

(** The map index expression [txns[k]]: nil for an absent key and for a key
    that holds nil. *)
Definition at_tag (m : gmap Z (option ptr)) (k : Z) : option ptr :=
  match m !! k with
  | Some v => v
  | None => None
  end.

(** The table holds no nil entry. *)
Definition nil_free (m : gmap Z (option ptr)) : Prop :=
  forall k, m !! k <> Some None.

(** [for t := txns[n]; t != nil; t = txns[n] { n++ }], with [n] an [int32].
    [fuel] bounds the number of increments; [None] is the loop still
    running when the fuel is gone. *)
Fixpoint find_unused (fuel : nat) (m : gmap Z (option ptr)) (k : Z) : option Z :=
  match at_tag m k with
  | None => Some k
  | Some _ =>
      match fuel with
      | O => None
      | S fuel' => find_unused fuel' m (int32 (k + 1))
      end
  end.

(** [tag := n; t.req.Tag = &tag]. *)
Definition stamp (k : Z) (t : txn) : txn :=
  let rq := t_req t in
  mkTxn (mkRequest (Some k) (req_Verb rq) (req_Path rq) (req_Value rq)
           (req_Rev rq) (req_Offset rq))
    (t_resp t) (t_err t) (t_done t).

(** [t.err = err; t.done <- true]. *)
Definition fail_txn (e : error) (t : txn) : txn :=
  mkTxn (t_req t) (t_resp t) (Some e) true.

(** [for _, t := range txns { t.err = err; t.done <- true }] over the
    entries in the order [entries].  The second component tells whether the
    loop ran to its end: at a nil entry [t.err = err] dereferences nil and
    the goroutine panics. *)
Fixpoint fail_all (e : error) (entries : list (Z * option ptr))
    (h : gmap ptr txn) : gmap ptr txn * bool :=
  match entries with
  | [] => (h, true)
  | (_, None) :: _ => (h, false)
  | (_, Some p) :: rest => fail_all e rest (alter (fail_txn e) p h)
  end.

(** The code after the label [error:].  Go leaves the order of a [range]
    over a map open; the order of [map_to_list] stands for it, and nothing
    below depends on which it is. *)
Definition teardown (s : sys) (e : error) : sys :=
  let s1 := set_err s (Some e) in
  match fail_all e (map_to_list (txns s1)) (heap s1) with
  | (h, false) => set_pc (set_heap s1 h) Crashed
  | (h, true) =>
      let s2 := set_heap s1 h in
      let s3 := set_conn s2 (Close (c_conn s2)) in
      set_pc (set_stopped s3 true) Exited
  end.

(** What the goroutine's [select] can receive. *)
Inductive event :=
| Send (p : ptr)
| Msg (buf : list byte)
| ErrCh (e : error)
| Stop.

Section Codec.

(** [proto.Marshal] and [proto.Unmarshal], the external message codec. *)
Variable Marshal : request -> error + list byte.
Variable Unmarshal : list byte -> error + response.

(** [case t := <-c.send].  The second component is the error with which
    the case jumps to the label [error:], if it does. *)
Definition on_send (s : sys) (p : ptr) : sys * option error :=
  match find_unused (size (txns s)) (txns s) (n s) with
  | None => (set_pc s Spinning, None)
  | Some k =>
      let s1 := set_table s (<[k := Some p]> (txns s)) k in
      match heap s1 !! p with
      | None => (set_pc s1 Crashed, None)
      | Some t =>
          let t1 := stamp k t in
          let s2 := set_heap s1 (<[p := t1]> (heap s1)) in
          match Marshal (t_req t1) with
          | inl e =>
              let s3 := set_table s2 (<[k := None]> (txns s2)) k in
              (set_heap s3 (<[p := fail_txn e t1]> (heap s3)), None)
          | inr buf =>
              match write (c_conn s2) buf with
              | (Some e, c') => (set_conn s2 c', Some e)
              | (None, c') => (set_conn s2 c', None)
              end
          end
      end
  end.

Definition answer (r : response) (t : txn) : txn :=
  mkTxn (t_req t) (Some r) (t_err t) true.

(** [case buf := <-c.msg]. *)
Definition on_msg (s : sys) (buf : list byte) : sys :=
  match Unmarshal buf with
  | inl _ => s
  | inr r =>
      match resp_Tag r with
      | None => s
      | Some tag =>
          match at_tag (txns s) tag with
          | None => s
          | Some p =>
              let s1 := set_table s (delete tag (txns s)) (n s) in
              set_heap s1 (alter (answer r) p (heap s1))
          end
      end
  end.

(** Whether the goroutine can take the event: it is at its [select], and
    for [Stop] the channel [c.stop] holds a value. *)
Definition enabled (s : sys) (ev : event) : bool :=
  match pc s with
  | Running =>
      match ev with
      | Stop => negb (length (c_stop s) =? 0)%nat
      | _ => true
      end
  | _ => false
  end.

(** The body of the [select] for one event: the state it leaves and, when
    it ends in [goto error], the error it jumps with. *)
Definition select_turn (s : sys) (ev : event) : sys * option error :=
  if enabled s ev then
    match ev with
    | Send p => on_send s p
    | Msg buf => (on_msg s buf, None)
    | ErrCh e => (s, Some e)
    | Stop => (set_stop s (tail (c_stop s)), Some ErrClosed)
    end
  else (s, None).

(** One turn of the [for { select { ... } }] loop of [mux], with the code
    after [error:] when the turn jumps there. *)
Definition mux_step (s : sys) (ev : event) : sys :=
  match select_turn s ev with
  | (s', Some e) => teardown s' e
  | (s', None) => s'
  end.

(** [func (c *Conn) Close()]: a send on [c.stop] that is dropped when the
    buffer is full. *)
Definition Close (s : sys) : sys :=
  if (length (c_stop s) <? 1)%nat then set_stop s (c_stop s ++ [true]) else s.

(** What the tasks around the goroutine do to the connection. *)
Inductive action :=
| ActClose
| ActMux (ev : event).

Definition act (s : sys) (a : action) : sys :=
  match a with
  | ActClose => Close s
  | ActMux ev => mux_step s ev
  end.

Definition run (s : sys) (tr : list action) : sys := fold_left act tr s.

(** How the reader goroutine stands in the end: it sent the read error on
    [errch] and returned; it panicked in [read]; it waits at
    [c.msg <- buf] for a goroutine that has left its [select]; or it is
    still in its loop when the fuel is gone. *)
Inductive reader_end :=
| Returned
| ReaderPanic
| Blocked (buf : list byte)
| StillReading.

(** What a run of the reader leaves: the frames the multiplexer took from
    it, in order, the content of [errch], how the reader stands, and the
    connection. *)
Record reader_run := mkReaderRun {
  rr_taken : list (list byte);
  rr_errch : option error;
  rr_end : reader_end;
  rr_sys : sys
}.

(** The turn of the schedule that comes next, and the rest of it; an
    exhausted schedule is one in which the other tasks do nothing. *)
Definition next_turn (sched : list (list action * list action))
  : list action * list action * list (list action * list action) :=
  match sched with
  | [] => ([], [], [])
  | (before, during) :: rest => (before, during, rest)
  end.

(** [func (c *Conn) readAll(errch chan error)], beside the multiplexer.
    The channel [c.msg] has no buffer and the goroutine of [mux] is its
    only receiver: the send [c.msg <- buf] completes in the turn in which
    that goroutine takes the frame at its [select], and never once it has
    left the [select].  [errch] has room for one value and the reader sends
    on it once, so that send completes at once and the error waits there.
    [sched] tells, for each turn of the reader's loop, what the goroutine
    receives from the other tasks while the reader is in [c.read()] and
    then while it waits at [c.msg <- buf]; [c.read()] is taken as one
    step. *)
Fixpoint readAll (fuel : nat) (sched : list (list action * list action))
    (s : sys) : reader_run :=
  match fuel with
  | O => mkReaderRun [] None StillReading s
  | S fuel' =>
      let '(before, during, sched') := next_turn sched in
      let s1 := run s before in
      match read (c_conn s1) with
      | (Panic, c') => mkReaderRun [] None ReaderPanic (set_conn s1 c')
      | (Fail e, c') => mkReaderRun [] (Some e) Returned (set_conn s1 c')
      | (Ok buf, c') =>
          let s2 := run (set_conn s1 c') during in
          if enabled s2 (Msg buf) then
            let r := readAll fuel' sched' (mux_step s2 (Msg buf)) in
            mkReaderRun (buf :: rr_taken r) (rr_errch r) (rr_end r) (rr_sys r)
          else mkReaderRun [] None (Blocked buf) s2
      end
  end.

(** How many times the goroutine runs the code after [error:], the
    terminal-error broadcast, along a trace. *)
Fixpoint teardowns (s : sys) (tr : list action) : nat :=
  match tr with
  | [] => 0
  | a :: tr' =>
      (match a with
       | ActMux ev => match snd (select_turn s ev) with Some _ => 1 | None => 0 end
       | ActClose => 0
       end + teardowns (act s a) tr')%nat
  end.

(** The tag stamped on the request of the transaction at [p]. *)
Definition tag_of (s : sys) (p : ptr) : option Z :=
  match heap s !! p with
  | Some t => req_Tag (t_req t)
  | None => None
  end.

(** [k] is the lowest tag, counting from zero, that is not present in the
    table. *)
Definition lowest_absent (m : gmap Z (option ptr)) (k : Z) : Prop :=
  0 <= k /\ m !! k = None /\ forall j, 0 <= j < k -> m !! j <> None.

(** The submission of [p] in state [s] is given the lowest absent tag. *)
Definition assigns_lowest (s : sys) (p : ptr) : Prop :=
  exists k, tag_of (mux_step s (Send p)) p = Some k /\
            lowest_absent (txns s) k.

(** Every transaction in the table carries the tag it is filed under. *)
Definition tags_match (s : sys) : Prop :=
  forall k p, txns s !! k = Some (Some p) -> tag_of s p = Some k.

(** Along the trace what is submitted is the address of a transaction, and
    one that the table does not hold at that moment, as [call] does with
    the transaction of its caller. *)
Fixpoint submits_fresh (s : sys) (tr : list action) : Prop :=
  match tr with
  | [] => True
  | a :: tr' =>
      match a with
      | ActMux (Send p) =>
          is_Some (heap s !! p) /\ forall k, txns s !! k <> Some (Some p)
      | _ => True
      end /\ submits_fresh (act s a) tr'
  end.

(** The transaction at [p] is settled or in hand: its [done] has fired,
    or the goroutine is at its [select] and holds it in the table. *)
Definition in_hand (s : sys) (p : ptr) : Prop :=
  exists t, heap s !! p = Some t /\
    (t_done t = true \/
     (pc s = Running /\ exists k, txns s !! k = Some (Some p))).

(** The goroutine has not returned without settling the transaction at
    [p]: it panicked, it is caught in its search for a tag, or the
    transaction is settled or in hand. *)
Definition covered (s : sys) (p : ptr) : Prop :=
  pc s = Crashed \/ pc s = Spinning \/ in_hand s p.

(** The branch the [select] of [call] takes. *)
Inductive select_case :=
| CaseStopped
| CaseSend.

(** [<-c.stopped] is ready once the channel is closed; [c.send <- t] is
    ready while the goroutine is there to receive. *)
Definition ready (s : sys) (b : select_case) : bool :=
  match b with
  | CaseStopped => c_stopped s
  | CaseSend => match pc s with Running => true | _ => false end
  end.

(** [t.done = make(chan bool)]: a fresh channel, nothing delivered yet. *)
Definition make_done (t : txn) : txn :=
  mkTxn (t_req t) (t_resp t) (t_err t) false.

(** The code of [call] after [<-t.done]; [Ok tt] is the nil error. *)
Definition after_done (t : txn) : result unit :=
  match t_err t with
  | Some e => Fail e
  | None =>
      match t_resp t with
      | None => Panic
      | Some r =>
          match resp_ErrCode r with
          | Some code => Fail (EError (newError t r code))
          | None => Ok tt
          end
      end
  end.

(** A returned [error] value, nil being [None]. *)
Definition returned (e : option error) : result unit :=
  match e with
  | Some e => Fail e
  | None => Ok tt
  end.

(** [func (c *Conn) call(t *txn) error] for the transaction at [p], taking
    branch [b] of the [select]; [others] is what the goroutine receives
    from the other tasks while the caller waits on [t.done].  [None] is a
    caller that is still blocked: the branch was not ready, or [t.done] has
    not fired after [others]. *)
Definition call (s : sys) (p : ptr) (b : select_case) (others : list action)
  : option (result unit) * sys :=
  let s0 := set_heap s (alter make_done p (heap s)) in
  if ready s0 b then
    match b with
    | CaseStopped => (Some (returned (c_err s0)), s0)
    | CaseSend =>
        let s1 := run (mux_step s0 (Send p)) others in
        match heap s1 !! p with
        | Some t => if t_done t then (Some (after_done t), s1) else (None, s1)
        | None => (None, s1)
        end
    end
  else (None, s0).

End Codec.

(** How the multiplexer may change a transaction it was handed: stamp the
    request, fail it, or attach the response. *)
Inductive evolves : txn -> txn -> Prop :=
| evolves_refl t : evolves t t
| evolves_stamp t t' rq :
    evolves t t' -> evolves t (mkTxn rq (t_resp t') (t_err t') (t_done t'))
| evolves_fail t t' e : evolves t t' -> evolves t (fail_txn e t')
| evolves_answer t t' r : evolves t t' -> evolves t (answer r t').

(** A sample codec for the examples: a request without a verb does not
    encode, an encoded request is its tag in four bytes, and a response is
    decoded from a four byte tag. *)
Module Sample.

Definition Marshal (r : request) : error + list byte :=
  match req_Verb r with
  | None => inl (ECodec "verb not set")
  | Some _ => inr (PutUint32 (uint32 (default 0 (req_Tag r))))
  end.

Definition Unmarshal (buf : list byte) : error + response :=
  if (length buf =? 4)%nat
  then inr (mkResponse (Some (int32 (Uint32 buf))) None None None [] None
              None None)
  else inl (ECodec "short message").

Definition nop : txn :=
  mkTxn (mkRequest None (Some request_NOP) None [] None None) None None false.

(** Three fresh transactions that encode, and one ([3]) that does not. *)
Definition heap0 : gmap ptr txn :=
  <[0%nat := nop]> (<[1%nat := nop]> (<[2%nat := nop]>
    (<[3%nat := txn_zero]> ∅))).

Definition conn0 : netconn := mkNetconn [] EndEOF [] [] false.

Definition start : sys := dial conn0 heap0.

Definition step := mux_step Marshal Unmarshal.
Definition exec := run Marshal Unmarshal.

End Sample.

End Mux.

(** ** The client operations *)

Module Client.
Import Frame Mux.

(** Modelled from the spec: [FileInfo], the metadata of one entry (name,
    length, revision, isSet, isDir), declared outside [conn.go]. *)
Record FileInfo := mkFileInfo {
  Name : string;
  Len : Z;
  Rev : Z;
  IsSet : bool;
  IsDir : bool
}.

Definition FileInfo_zero : FileInfo := mkFileInfo "" 0 0 false false.

(** Modelled from the spec: [Event], the snapshot of one store mutation
    (revision, path, body, flag), declared outside [conn.go]. *)
Record Event := mkEvent {
  ev_Rev : Z;
  ev_Path : string;
  ev_Body : list byte;
  ev_Flag : Z
}.

(** What a caller blocked in [call] gets to see: the closed [c.stopped]
    with the recorded [c.err], or its transaction after [t.done] fired. *)
Inductive observed :=
| SawStopped (cerr : option error)
| SawDone (t : txn).

Section World.

(** Everything outside the calling task: the multiplexers, the network,
    the servers and the random source, as a state [World] and the answers
    it gives. *)
Variable World : Type.
Variable NetConn : Type.

(** [type Conn struct], as far as a caller can tell one from another. *)
Record Conn := mkConn {
  addr : string;
  conn : NetConn
}.

Variable transact : Conn -> txn -> World -> observed * World.
Variable net_dial : string -> World -> (error + NetConn) * World.
Variable conn_Close : Conn -> World -> World.
Variable rand_Int : World -> Z * World.
Variable ParseQuery : string -> error + gmap string (list string).

(** The sentinel revisions [missing] and [dir], the event flags [set] and
    [del], and [basename], all declared outside [conn.go]. *)
Variable missing dir : Z.
Variable set del : Z.
Variable basename : string -> string.

(** A computation of the calling task: it returns with a value, panics
    ([Crash]), or is still looping when its fuel is gone ([Spin]). *)
Inductive outcome (A : Type) :=
| Val (a : A) (w : World)
| Crash
| Spin.
Arguments Val {A} a w.
Arguments Crash {A}.
Arguments Spin {A}.

Definition M (A : Type) : Type := World -> outcome A.

#[local] Instance M_ret : MRet M := fun A a w => Val a w.
#[local] Instance M_bind : MBind M := fun A B f m w =>
  match m w with
  | Val a w' => f a w'
  | Crash => Crash
  | Spin => Spin
  end.

Definition crash {A} : M A := fun _ => Crash.
Definition spin {A} : M A := fun _ => Spin.

(** Dereference of a Go pointer. *)
Definition deref {A} (p : option A) : M A :=
  match p with
  | Some a => mret a
  | None => crash
  end.

(** The index expression [l[i]]. *)
Definition index {A} (l : list A) (i : Z) : M A :=
  if i <? 0 then crash else deref (l !! Z.to_nat i).

(** The integer remainder [a % b]. *)
Definition go_rem (a b : Z) : M Z :=
  if b =? 0 then crash else mret (Z.rem a b).

(** [func (c *Conn) call(t *txn) error], seen from the calling task; the
    transaction comes back as the multiplexer left it. *)
Definition call (c : Conn) (t : txn) : M (option error * txn) :=
  fun w =>
    match transact c t w with
    | (SawStopped cerr, w') => Val (cerr, t) w'
    | (SawDone t', w') =>
        match after_done t' with
        | Ok _ => Val (None, t') w'
        | Fail e => Val (Some e, t') w'
        | Panic => Crash
        end
    end.

Definition with_req (v : request_Verb) (path : option string)
    (value : list byte) (rev off : option Z) : txn :=
  mkTxn (mkRequest None (Some v) path value rev off) None None false.

(** [func (c *Conn) Access(token string) error]. *)
Definition Access (c : Conn) (token : list byte) : M (option error) :=
  '(err, _) ← call c (with_req request_ACCESS None token None None);
  mret err.

(** [func (c *Conn) Set(file string, oldRev int64, body []byte)]. *)
Definition Set_ (c : Conn) (file : string) (oldRev : Z) (body : list byte)
  : M (Z * option error) :=
  '(err, t) ← call c (with_req request_SET (Some file) body (Some oldRev) None);
  match err with
  | Some e => mret (0, Some e)
  | None =>
      r ← deref (t_resp t);
      newRev ← deref (resp_Rev r);
      mret (newRev, None)
  end.

(** [func (c *Conn) Del(file string, rev int64) error]. *)
Definition Del (c : Conn) (file : string) (rev : Z) : M (option error) :=
  '(err, _) ← call c (with_req request_DEL (Some file) [] (Some rev) None);
  mret err.

(** [func (c *Conn) Nop() error]. *)
Definition Nop (c : Conn) : M (option error) :=
  '(err, _) ← call c (with_req request_NOP None [] None None);
  mret err.

(** [func (c *Conn) Rev() (int64, error)]; the name [Rev] is taken by the
    field of [FileInfo]. *)
Definition Rev_ (c : Conn) : M (Z * option error) :=
  '(err, t) ← call c (with_req request_REV None [] None None);
  match err with
  | Some e => mret (0, Some e)
  | None =>
      r ← deref (t_resp t);
      rev ← deref (resp_Rev r);
      mret (rev, None)
  end.

(** [func (c *Conn) Get(file string, rev *int64) ([]byte, int64, error)]. *)
Definition Get (c : Conn) (file : string) (rev : option Z)
  : M (list byte * Z * option error) :=
  '(err, t) ← call c (with_req request_GET (Some file) [] rev None);
  match err with
  | Some e => mret ([], 0, Some e)
  | None =>
      r ← deref (t_resp t);
      frev ← deref (resp_Rev r);
      mret (resp_Value r, frev, None)
  end.

(** The transaction [Getdir] builds for the position [off]. *)
Definition getdir_txn (dir : string) (rev off : Z) : txn :=
  with_req request_GETDIR (Some dir) [] (Some rev) (Some (int32 off)).

(** The [for lim != 0] loop of [Getdir]; [names] is the result so far. *)
Fixpoint Getdir_loop (fuel : nat) (c : Conn) (dir : string) (rev off lim : Z)
    (names : list string) : M (list string * option error) :=
  if lim =? 0 then mret (names, None)
  else
    match fuel with
    | O => spin
    | S fuel' =>
        '(err, t) ← call c (getdir_txn dir rev off);
        if is_Error_with ErrRange err then mret (names, None)
        else
          match err with
          | Some e => mret ([], Some e)
          | None =>
              r ← deref (t_resp t);
              path ← deref (resp_Path r);
              Getdir_loop fuel' c dir rev (int (off + 1)) (int (lim - 1))
                (names ++ [path])
          end
    end.

(** [func (c *Conn) Getdir(dir string, rev int64, off, lim int)]. *)
Definition Getdir (fuel : nat) (c : Conn) (dir : string) (rev off lim : Z)
  : M (list string * option error) :=
  Getdir_loop fuel c dir rev off lim [].

(** [func (c *Conn) Stat(path string, storeRev *int64)]. *)
Definition Stat (c : Conn) (path : string) (storeRev : option Z)
  : M (Z * Z * option error) :=
  '(err, t) ← call c (with_req request_STAT (Some path) [] storeRev None);
  match err with
  | Some e => mret (0, 0, Some e)
  | None =>
      r ← deref (t_resp t);
      len ← deref (resp_Len r);
      frev ← deref (resp_Rev r);
      mret (len, frev, None)
  end.

(** [func (c *Conn) Statinfo(rev int64, path string) (f *FileInfo, err error)]. *)
Definition Statinfo (c : Conn) (rev : Z) (path : string)
  : M (option FileInfo * option error) :=
  '(len, frev, err) ← Stat c path (Some rev);
  match err with
  | Some e => mret (None, Some e)
  | None =>
      if frev =? missing then mret (None, Some (ECode ErrNoEnt))
      else mret (Some (mkFileInfo (basename path) len frev true (frev =? dir)),
                 None)
  end.

(** [a[i].Name = name] on the entry [a[i]]. *)
Definition name_only (name : string) (f : FileInfo) : FileInfo :=
  mkFileInfo name (Len f) (Rev f) (IsSet f) (IsDir f).

(** The [for i, name := range names] loop of [Getdirinfo]: [a] is the array
    being filled and [err] the function's named result, which every turn
    assigns. *)
Fixpoint Getdirinfo_loop (c : Conn) (rev : Z) (dir_ : string) (i : nat)
    (names : list string) (a : list FileInfo) (err : option error)
  : M (list FileInfo * option error) :=
  match names with
  | [] => mret (a, err)
  | name :: rest =>
      '(fp, err') ← Statinfo c rev (dir_ +:+ name);
      match err' with
      | Some _ =>
          Getdirinfo_loop c rev dir_ (S i) rest (alter (name_only name) i a)
            err'
      | None =>
          f ← deref fp;
          Getdirinfo_loop c rev dir_ (S i) rest (<[i := f]> a) err'
      end
  end.

(** [func (c *Conn) Getdirinfo(dir string, rev int64, off, lim int)]. *)
Definition Getdirinfo (fuel : nat) (c : Conn) (dir_ : string) (rev off lim : Z)
  : M (list FileInfo * option error) :=
  '(names, err) ← Getdir fuel c dir_ rev off lim;
  match err with
  | Some e => mret ([], Some e)
  | None =>
      let dir_ := if String.eqb dir_ "/" then dir_ else dir_ +:+ "/" in
      Getdirinfo_loop c rev dir_ 0 names
        (replicate (length names) FileInfo_zero) err
  end.

(** The transaction [Walk] builds for the position [off]. *)
Definition walk_txn (glob : string) (rev off : Z) : txn :=
  with_req request_WALK (Some glob) [] (Some rev) (Some (int32 off)).

(** The [for lim != 0] loop of [Walk]; [info] is the result so far. *)
Fixpoint Walk_loop (fuel : nat) (c : Conn) (glob : string) (rev off lim : Z)
    (info : list Event) : M (list Event * option error) :=
  if lim =? 0 then mret (info, None)
  else
    match fuel with
    | O => spin
    | S fuel' =>
        '(err, t) ← call c (walk_txn glob rev off);
        if is_Error_with ErrRange err then mret (info, None)
        else
          match err with
          | Some e => mret ([], Some e)
          | None =>
              r ← deref (t_resp t);
              erev ← deref (resp_Rev r);
              path ← deref (resp_Path r);
              flags ← deref (resp_Flags r);
              Walk_loop fuel' c glob rev (int (off + 1)) (int (lim - 1))
                (info ++ [mkEvent erev path (resp_Value r) flags])
          end
    end.

(** [func (c *Conn) Walk(glob string, rev int64, off, lim int)]. *)
Definition Walk (fuel : nat) (c : Conn) (glob : string) (rev off lim : Z)
  : M (list Event * option error) :=
  Walk_loop fuel c glob rev off lim [].

Definition Event_zero : Event := mkEvent 0 "" [] 0.

(** The transaction [Wait] builds. *)
Definition wait_txn (glob : string) (rev : Z) : txn :=
  with_req request_WAIT (Some glob) [] (Some rev) None.

(** [func (c *Conn) Wait(glob string, rev int64) (ev Event, err error)]. *)
Definition Wait (c : Conn) (glob : string) (rev : Z)
  : M (Event * option error) :=
  '(err, t) ← call c (wait_txn glob rev);
  match err with
  | Some e => mret (Event_zero, Some e)
  | None =>
      r ← deref (t_resp t);
      erev ← deref (resp_Rev r);
      path ← deref (resp_Path r);
      flags ← deref (resp_Flags r);
      mret (mkEvent erev path (resp_Value r) (Z.land flags (Z.lor set del)),
            None)
  end.

(** The [for _, name := range names] loop of [lookup]. *)
Fixpoint lookup_loop (b : Conn) (path : string) (rev : Z)
    (names : list string) (as_ : list string)
  : M (list string * option error) :=
  match names with
  | [] => mret (as_, None)
  | name :: rest =>
      '(body, _, err) ← Get b (path +:+ name) (Some rev);
      match err with
      | Some e => mret ([], Some e)
      | None =>
          lookup_loop b path rev rest (as_ ++ [String.string_of_list_byte body])
      end
  end.

(** [func lookup(b *Conn, name string) (as []string, err error)].  The
    [err] that the [else if err != nil] after [Getdir] tests is the one the
    [if] before it declares, the result of the type assertion to a pointer
    to [Error]: it is nil for every error that is not such a pointer, and
    the function then goes on with the names it has. *)
Definition lookup (fuel : nat) (b : Conn) (name : string)
  : M (list string * option error) :=
  '(rev, err) ← Rev_ b;
  match err with
  | Some e => mret ([], Some e)
  | None =>
      let path := "/ctl/ns/" +:+ name in
      '(names, err) ← Getdir fuel b path rev 0 (-1);
      if is_Error_with ErrNoEnt err then mret ([], None)
      else
        match err with
        | Some (EError x) => mret ([], Some (EError x))
        | _ => lookup_loop b (path +:+ "/") rev names []
        end
  end.

Definition uriPrefix : string := "doozer:?".

(** [func dial(addr string, net_dial ...)]. *)
Definition dial (a : string) : M (option Conn * option error) :=
  fun w =>
    match net_dial a w with
    | (inl e, w') => Val (None, Some e) w'
    | (inr nc, w') => Val (Some (mkConn a nc), None) w'
    end.

(** [c.Close()] and [rand.Int()], answered by the world. *)
Definition Close (c : Conn) : M unit := fun w => Val tt (conn_Close c w).
Definition rand : M Z := fun w => let (z, w') := rand_Int w in Val z w'.

(** The end of [dialUri], from the choice of the address on. *)
Definition dialUri_connect (p : gmap string (list string))
    (addrs : list string) : M (option Conn * option error) :=
  r ← rand;
  i ← go_rem r (Z.of_nat (length addrs));
  a ← index addrs i;
  '(c, err) ← dial a;
  match err with
  | Some e => mret (None, Some e)
  | None =>
      c ← deref c;
      match p !! "sk" with
      | Some secret =>
          sk ← index secret 0;
          err ← Access c (String.list_byte_of_string sk);
          match err with
          | Some e =>
              _ ← Close c;
              mret (None, Some e)
          | None => mret (Some c, None)
          end
      | None => mret (Some c, None)
      end
  end.

(** [func dialUri(uri, buri string, net_dial ...)]; [depth]
    bounds the nesting of the recursive call. *)
Fixpoint dialUri (depth fuel : nat) (uri buri : string)
  : M (option Conn * option error) :=
  match depth with
  | O => spin
  | S depth' =>
      if negb (String.prefix uriPrefix uri) then mret (None, Some ErrInvalidUri)
      else
        let q := String.substring (String.length uriPrefix)
                   (String.length uri - String.length uriPrefix) uri in
        match ParseQuery q with
        | inl e => mret (None, Some e)
        | inr p =>
            match p !! "cn" with
            | Some name =>
                if negb (String.eqb buri "") then
                  '(c, err) ← dialUri depth' fuel buri "";
                  match err with
                  | Some e => mret (None, Some e)
                  | None =>
                      c ← deref c;
                      name0 ← index name 0;
                      '(addrs, err) ← lookup fuel c name0;
                      match err with
                      | Some e => mret (None, Some e)
                      | None => dialUri_connect p addrs
                      end
                  end
                else
                  match p !! "ca" with
                  | Some addrs => dialUri_connect p addrs
                  | None => mret (None, Some ErrInvalidUri)
                  end
            | None =>
                match p !! "ca" with
                | Some addrs => dialUri_connect p addrs
                | None => mret (None, Some ErrInvalidUri)
                end
            end
        end
  end.

(** *** The server, as the pagination loops see it *)

(** The server answers the request of [t] with the response [r], whatever
    else goes on. *)
Definition server_answers (c : Conn) (t : txn) (r : response) : Prop :=
  forall w, exists t' w',
    transact c t w = (SawDone t', w') /\ t_err t' = None /\
    t_resp t' = Some r.

(** The server signals out-of-range for the request of [t]. *)
Definition out_of_range (c : Conn) (t : txn) : Prop :=
  exists r, server_answers c t r /\ resp_ErrCode r = Some ErrRange.

(** [call] on [t] returns the error [e]. *)
Definition call_fails (c : Conn) (t : txn) (e : error) : Prop :=
  forall w, exists t' w', call c t w = Val (Some e, t') w'.

(** The server holds [items] at the positions [off], [off + 1], ...: the
    request [mk (off + i)] is answered, without an error code, by a
    response from which [extract] reads the [i]-th item. *)
Definition listing {A} (c : Conn) (mk : Z -> txn)
    (extract : response -> option A) (off : Z) (items : list A) : Prop :=
  forall (i : nat) (x : A), items !! i = Some x ->
    exists r, server_answers c (mk (off + Z.of_nat i)) r /\
              resp_ErrCode r = None /\ extract r = Some x.

(** [r] is a response some [call] on a request [mk off] came back with. *)
Definition received (c : Conn) (mk : Z -> txn) (r : response) : Prop :=
  exists off w t w', call c (mk off) w = Val (None, t) w' /\
                     t_resp t = Some r.

(** The event [Walk] builds from a response. *)
Definition event_of (r : response) : option Event :=
  match resp_Rev r, resp_Path r, resp_Flags r with
  | Some erev, Some path, Some flags =>
      Some (mkEvent erev path (resp_Value r) flags)
  | _, _, _ => None
  end.

(** How a listing ends at the position after its last item: with the
    out-of-range signal, or with a [call] that fails otherwise. *)
Inductive ending :=
| EndRange
| EndError (e : error).

Definition ends_with (c : Conn) (t : txn) (fin : ending) : Prop :=
  match fin with
  | EndRange => out_of_range c t
  | EndError e =>
      call_fails c t e /\ is_Error_with ErrRange (Some e) = false
  end.

(** What the caller is owed for a listing read to its end. *)
Definition read_to_end {A} (items : list A) (fin : ending)
  : list A * option error :=
  match fin with
  | EndRange => (items, None)
  | EndError e => ([], Some e)
  end.

(** The common shape of the loops of [Getdir] and [Walk], used to reason
    about both at once. *)
Fixpoint paginate {A} (mk : Z -> txn) (extract : response -> option A)
    (fuel : nat) (c : Conn) (off lim : Z) (acc : list A)
  : M (list A * option error) :=
  if lim =? 0 then mret (acc, None)
  else
    match fuel with
    | O => spin
    | S fuel' =>
        '(err, t) ← call c (mk off);
        if is_Error_with ErrRange err then mret (acc, None)
        else
          match err with
          | Some e => mret ([], Some e)
          | None =>
              r ← deref (t_resp t);
              x ← deref (extract r);
              paginate mk extract fuel' c (int (off + 1)) (int (lim - 1))
                (acc ++ [x])
          end
    end.

End World.

Arguments Val {World A} a w.
Arguments Crash {World A}.
Arguments Spin {World A}.
Arguments mkConn {NetConn} addr conn.

(** A sample world for the examples: one server that holds the directory
    [/d] with the children [a] and [b], of which only [b] can be stat'ed,
    and knows no cluster; every dial succeeds. *)
Module Demo.

Definition blank : response :=
  mkResponse None None None None [] None None None.

Definition failing (code : response_Err) : response :=
  mkResponse None None None None [] None (Some code) None.

Definition child (off : option Z) : option string :=
  match off with
  | Some 0 => Some "a"
  | Some 1 => Some "b"
  | _ => None
  end.

(** The response of the server to a request. *)
Definition reply (rq : request) : response :=
  match req_Verb rq with
  | Some request_REV => mkResponse None None (Some 7) None [] None None None
  | Some request_GETDIR =>
      if String.eqb (default "" (req_Path rq)) "/d" then
        match child (req_Offset rq) with
        | Some name =>
            mkResponse None None None (Some name) [] None None None
        | None => failing ErrRange
        end
      else failing ErrNoEnt
  | Some request_WALK =>
      match child (req_Offset rq) with
      | Some name =>
          mkResponse None (Some 255) (Some 5) (Some ("/d/" +:+ name)) []
            None None None
      | None => failing ErrRange
      end
  | Some request_STAT =>
      if String.eqb (default "" (req_Path rq)) "/d/b"
      then mkResponse None None (Some 5) None [] (Some 3) None None
      else failing ErrNoEnt
  | Some request_WAIT =>
      mkResponse None (Some 255) (Some 8) (Some "/d/a") [] None None None
  | _ => blank
  end.

Definition transact (c : Conn unit) (t : txn) (w : unit) : observed * unit :=
  (SawDone (mkTxn (t_req t) (Some (reply (t_req t))) None true), w).

Definition net_dial (a : string) (w : unit) : (error + unit) * unit :=
  (inr tt, w).

Definition conn_Close (c : Conn unit) (w : unit) : unit := w.

Definition rand_Int (w : unit) : Z * unit := (0, w).

(** The pieces of [s] between the separators [sep]. *)
Fixpoint split (sep : Ascii.ascii) (s : string) : list string :=
  match s with
  | EmptyString => [EmptyString]
  | String ch rest =>
      if Ascii.eqb ch sep then EmptyString :: split sep rest
      else match split sep rest with
           | [] => [String ch EmptyString]
           | x :: xs => String ch x :: xs
           end
  end.

(** A query parser in the manner of [url.ParseQuery], without escapes:
    [k=v] pairs separated by [&], the values of a key collected in order. *)
Definition ParseQuery (q : string) : error + gmap string (list string) :=
  inr (fold_left
         (fun (m : gmap string (list string)) (kv : string) =>
            if String.eqb kv "" then m
            else match split "="%char kv with
                 | k :: v :: _ => <[k := default [] (m !! k) ++ [v]]> m
                 | k :: [] => <[k := default [] (m !! k) ++ [""]]> m
                 | [] => m
                 end)
         (split "&"%char q) ∅).

Definition missing : Z := 0.
Definition dir : Z := -2.
Definition set : Z := 4.
Definition del : Z := 8.

Definition basename (path : string) : string :=
  List.last (split "/"%char path) "".

Definition c0 : Conn unit := mkConn "10.0.0.1:8046" tt.

End Demo.

(** A second sample server, with a name space of clusters: the cluster [c]
    has the members [1] and [2], the cluster [old] lists the same names but
    holds the address of [1] only, and the listing of the cluster [down]
    finds the connection stopped.  The token [secret] gives access. *)
Module Cluster.

Definition file (body : string) : response :=
  mkResponse None None (Some 5) None (String.list_byte_of_string body) None
    None None.

Definition reply (rq : request) : response :=
  let path := default "" (req_Path rq) in
  match req_Verb rq with
  | Some request_REV => mkResponse None None (Some 7) None [] None None None
  | Some request_GETDIR =>
      if String.eqb path "/ctl/ns/c" || String.eqb path "/ctl/ns/old" then
        match req_Offset rq with
        | Some 0 => mkResponse None None None (Some "1") [] None None None
        | Some 1 => mkResponse None None None (Some "2") [] None None None
        | _ => Demo.failing ErrRange
        end
      else Demo.failing ErrNoEnt
  | Some request_GET =>
      if String.eqb path "/ctl/ns/c/1" then file "10.0.0.1:8046"
      else if String.eqb path "/ctl/ns/c/2" then file "10.0.0.2:8046"
      else if String.eqb path "/ctl/ns/old/1" then file "10.0.0.1:8046"
      else Demo.failing ErrNoEnt
  | Some request_ACCESS =>
      if String.eqb (String.string_of_list_byte (req_Value rq)) "secret"
      then Demo.blank
      else Demo.failing (ErrCodeOther 127)
  | _ => Demo.blank
  end.

Definition transact (c : Conn unit) (t : txn) (w : unit) : observed * unit :=
  let answer := SawDone (mkTxn (t_req t) (Some (reply (t_req t))) None true) in
  match req_Verb (t_req t) with
  | Some request_GETDIR =>
      if String.eqb (default "" (req_Path (t_req t))) "/ctl/ns/down"
      then (SawStopped (Some io_EOF), w)
      else (answer, w)
  | _ => (answer, w)
  end.

(** A connection that was stopped with [ErrClosed]. *)
Definition stopped (c : Conn unit) (t : txn) (w : unit) : observed * unit :=
  (SawStopped (Some ErrClosed), w).

(** A server that refuses every request with the code [ErrNoEnt]. *)
Definition refuse (rq : request) : response :=
  mkResponse None None None None [] None (Some ErrNoEnt)
    (Some "no such entry").

Definition refusing (c : Conn unit) (t : txn) (w : unit) : observed * unit :=
  (SawDone (mkTxn (t_req t) (Some (refuse (t_req t))) None true), w).

End Cluster.

End Client.

(** * Part II: properties *)

(** ** Bytes and big-endian words *)

Lemma Z_of_byte_range b : 0 <= Z_of_byte b < 256.
Proof.
  unfold Z_of_byte. pose proof (Byte.to_N_bounded b). lia.
Qed.

Lemma Z_of_byte_of_Z z : Z_of_byte (byte_of_Z z) = z mod 256.
Proof.
  unfold Z_of_byte, byte_of_Z.
  assert (Hr : 0 <= z mod 256 < 256) by (apply Z.mod_pos_bound; lia).
  destruct (Byte.of_N (Z.to_N (z mod 256))) as [b|] eqn:E.
  - apply Byte.to_of_N in E. simpl. rewrite E. lia.
  - apply Byte.of_N_None_iff in E. lia.
Qed.

Lemma lor_shiftl_add a b k :
  0 <= k -> 0 <= a < 2 ^ k -> Z.lor a (Z.shiftl b k) = a + b * 2 ^ k.
Proof.
  intros Hk Ha.
  assert (Hdisj : Z.land a (Z.shiftl b k) = 0).
  { apply Z.bits_inj'. intros i Hi. rewrite Z.land_spec, Z.bits_0.
    destruct (Z.lt_ge_cases i k).
    - rewrite Z.shiftl_spec_low by lia. apply andb_false_r.
    - destruct (Z.eq_dec a 0) as [->|Hne]; [ now rewrite Z.bits_0 | ].
      rewrite (Z.bits_above_log2 a i); [ reflexivity | lia | ].
      apply Z.lt_le_trans with k; [ | lia ].
      apply Z.log2_lt_pow2; lia. }
  rewrite <- Z.lxor_lor by exact Hdisj.
  rewrite <- Z.add_nocarry_lxor by exact Hdisj.
  rewrite Z.shiftl_mul_pow2 by lia. reflexivity.
Qed.

Lemma lor_mul_add a c k :
  0 <= k -> 0 <= a < 2 ^ k -> Z.lor a (c * 2 ^ k) = a + c * 2 ^ k.
Proof.
  intros Hk Ha. rewrite <- (lor_shiftl_add a c k Hk Ha).
  now rewrite Z.shiftl_mul_pow2.
Qed.

Lemma Uint32_sum b0 b1 b2 b3 :
  Uint32 [b0; b1; b2; b3] =
  Z_of_byte b3 + 256 * Z_of_byte b2 + 65536 * Z_of_byte b1
  + 16777216 * Z_of_byte b0.
Proof.
  pose proof (Z_of_byte_range b0). pose proof (Z_of_byte_range b1).
  pose proof (Z_of_byte_range b2). pose proof (Z_of_byte_range b3).
  unfold Uint32. rewrite !Z.shiftl_mul_pow2 by lia.
  rewrite (lor_mul_add (Z_of_byte b1 * 2 ^ 16) (Z_of_byte b0) 24) by lia.
  replace (Z_of_byte b1 * 2 ^ 16 + Z_of_byte b0 * 2 ^ 24)
    with ((Z_of_byte b1 + Z_of_byte b0 * 2 ^ 8) * 2 ^ 16) by lia.
  rewrite (lor_mul_add (Z_of_byte b2 * 2 ^ 8)) by lia.
  replace (Z_of_byte b2 * 2 ^ 8 + (Z_of_byte b1 + Z_of_byte b0 * 2 ^ 8) * 2 ^ 16)
    with ((Z_of_byte b2 + Z_of_byte b1 * 2 ^ 8 + Z_of_byte b0 * 2 ^ 16) * 2 ^ 8)
    by lia.
  rewrite lor_mul_add by lia. lia.
Qed.

Lemma Uint32_PutUint32 v : Uint32 (PutUint32 v) = v mod 2 ^ 32.
Proof.
  unfold PutUint32. rewrite Uint32_sum, !Z_of_byte_of_Z.
  rewrite !Z.shiftr_div_pow2 by lia.
  change (2 ^ 24) with 16777216. change (2 ^ 16) with 65536.
  change (2 ^ 8) with 256. change (2 ^ 32) with 4294967296.
  Z.div_mod_to_equations. lia.
Qed.

Lemma Uint32_range bs : 0 <= Uint32 bs < 2 ^ 32.
Proof.
  destruct bs as [|b0 [|b1 [|b2 [|b3 [|]]]]]; try (simpl; lia).
  rewrite Uint32_sum.
  pose proof (Z_of_byte_range b0). pose proof (Z_of_byte_range b1).
  pose proof (Z_of_byte_range b2). pose proof (Z_of_byte_range b3). lia.
Qed.

Lemma uint32_int32 z : uint32 (int32 z) = z mod 2 ^ 32.
Proof.
  unfold uint32, int32, wrap.
  change (2 ^ (32 - 1)) with 2147483648. change (2 ^ 32) with 4294967296.
  Z.div_mod_to_equations. lia.
Qed.

Lemma int32_small z : 0 <= z < 2 ^ 31 -> int32 z = z.
Proof.
  unfold int32, wrap. intros H.
  change (2 ^ (32 - 1)) with 2147483648 in *. change (2 ^ 32) with 4294967296.
  change (2 ^ 31) with 2147483648 in *.
  Z.div_mod_to_equations. lia.
Qed.

Lemma int32_neg_iff z : 0 <= z < 2 ^ 32 -> (int32 z <? 0) = negb (z <? 2 ^ 31).
Proof.
  unfold int32, wrap. intros H.
  change (2 ^ (32 - 1)) with 2147483648 in *.
  change (2 ^ 32) with 4294967296 in *. change (2 ^ 31) with 2147483648 in *.
  destruct (Z.ltb_spec z 2147483648); simpl.
  - apply Z.ltb_ge. Z.div_mod_to_equations. lia.
  - apply Z.ltb_lt. Z.div_mod_to_equations. lia.
Qed.

(** ** The frame codec *)

Module FrameFacts.
Import Frame.

Lemma Write_ok c b c' :
  Write c b = (None, c') -> wr c' = wr c ++ b /\ closed c' = closed c
    /\ wr_faults c' = tail (wr_faults c).
Proof.
  unfold Write. destruct (closed c) eqn:Hc; [ discriminate | ].
  destruct (wr_faults c) as [|[e|] rest]; intros [= <-]; simpl; auto.
Qed.

Lemma Write_fail c b e c' :
  Write c b = (Some e, c') ->
  (closed c = true \/ head (wr_faults c) = Some (Some e)) /\
  wr c' = wr c /\ closed c' = closed c /\
  (closed c = false -> wr_faults c' = tail (wr_faults c)).
Proof.
  unfold Write. destruct (closed c) eqn:Hc.
  - intros [= <- <-]. rewrite Hc. intuition congruence.
  - destruct (wr_faults c) as [|[e'|] rest]; intros [= <- <-]; simpl;
      intuition congruence.
Qed.

(** What [write] leaves on the stream, for a payload of any length: the
    prefix holds the length modulo [2 ^ 32]. *)
Lemma write_emits c buf c' :
  write c buf = (None, c') ->
  wr c' = wr c ++ PutUint32 (Z.of_nat (length buf) mod 2 ^ 32) ++ buf.
Proof.
  unfold write. rewrite uint32_int32.
  destruct (Write c _) as [[e|] c1] eqn:H1; [ discriminate | ].
  intros H2. apply Write_ok in H1 as (H1 & _ & _).
  apply Write_ok in H2 as (H2 & _ & _). now rewrite H2, H1, <- app_assoc.
Qed.

Lemma write_contract_holds c buf :
  Z.of_nat (length buf) < 2 ^ 32 -> write_contract c buf.
Proof.
  intros Hlen. unfold write_contract.
  destruct (write c buf) as [[e|] c'] eqn:Hw.
  - unfold write in Hw.
    destruct (Write c _) as [[e1|] c1] eqn:H1.
    + injection Hw as <- <-. apply Write_fail in H1 as ([Hc|Hh] & _); auto.
      right. destruct (wr_faults c) as [|f rest]; [ discriminate | ].
      simpl in Hh. injection Hh as ->. simpl. auto.
    + apply Write_ok in H1 as (_ & Hc1 & Hf1).
      apply Write_fail in Hw as ([Hc|Hh] & _); [ left; congruence | ].
      right. rewrite Hf1 in Hh.
      destruct (wr_faults c) as [|f [|g rest]]; try discriminate.
      simpl in Hh. injection Hh as ->. simpl. auto.
  - exists (PutUint32 (Z.of_nat (length buf) mod 2 ^ 32)).
    split; [ reflexivity | ]. split; [ | now apply write_emits ].
    rewrite Uint32_PutUint32, Z.mod_mod by lia. apply Z.mod_small. lia.
Qed.

Lemma ReadFull_ok c k buf c' :
  ReadFull c k = (Ok buf, c') ->
  buf = take k (rd c) /\ length buf = k /\ rd c' = drop k (rd c) /\
  closed c' = closed c /\ rd_end c' = rd_end c /\
  (k <> 0%nat -> closed c = false).
Proof.
  unfold ReadFull. destruct k as [|k].
  - intros [= <- <-]. rewrite take_0, drop_0. repeat split; congruence.
  - destruct (closed c) eqn:Hc; [ discriminate | ].
    destruct (Nat.leb_spec (S k) (length (rd c))); [ | discriminate ].
    intros [= <- <-]. simpl. rewrite length_take. repeat split; auto; lia.
Qed.

Lemma ReadFull_fail c k e c' :
  ReadFull c k = (Fail e, c') ->
  is_transport e = true /\ (closed c = true \/ (length (rd c) < k)%nat).
Proof.
  unfold ReadFull. destruct k as [|k]; [ discriminate | ].
  destruct (closed c) eqn:Hc; [ intros [= <- <-]; auto | ].
  destruct (Nat.leb_spec (S k) (length (rd c))); [ discriminate | ].
  intros [= <- <-]. split; [ | auto ].
  destruct (rd_end c); simpl; [ destruct (negb _) | ]; reflexivity.
Qed.

Lemma ReadFull_no_panic c k c' : ReadFull c k <> (Panic, c').
Proof.
  unfold ReadFull. destruct k; [ discriminate | ].
  destruct (closed c); [ discriminate | ].
  destruct (_ <=? _)%nat; discriminate.
Qed.

Lemma read_contract_holds c : header_ok c = true -> read_contract c.
Proof.
  unfold header_ok, read_contract, read. intros Hok.
  destruct (ReadFull c 4) as [[hdr|e|] c1] eqn:H1.
  - apply ReadFull_ok in H1 as (-> & Hl & Hrd & Hcl & _ & Hc).
    specialize (Hc ltac:(lia)). rewrite Hc in Hok. simpl in Hok.
    assert (H4 : (4 <= length (rd c))%nat).
    { rewrite length_take in Hl. lia. }
    destruct (Nat.ltb_spec (length (rd c)) 4); [ lia | ]. simpl in Hok.
    pose proof (Uint32_range (take 4 (rd c))) as Hr.
    rewrite int32_neg_iff, Hok by exact Hr. simpl.
    apply Z.ltb_lt in Hok. rewrite int32_small by lia.
    destruct (ReadFull c1 _) as [[buf|e|] c2] eqn:H2.
    + apply ReadFull_ok in H2 as (-> & Hl2 & Hrd2 & _).
      rewrite Hrd in *. repeat split; auto. lia.
    + apply ReadFull_fail in H2 as (Ht & [Hc2|Hs]); [ congruence | ].
      split; [ exact Ht | ]. right. right. rewrite <- Hrd. lia.
    + now apply ReadFull_no_panic in H2.
  - apply ReadFull_fail in H1 as (Ht & [Hc|Hs]); auto.
  - now apply ReadFull_no_panic in H1.
Qed.

(** [write] fails only where one of its two [Write] calls fails. *)
Lemma write_fails_below c buf e c' :
  write c buf = (Some e, c') ->
  closed c = true \/ In (Some e) (take 2 (wr_faults c)).
Proof.
  intros Hw. unfold write in Hw.
  destruct (Write c _) as [[e1|] c1] eqn:H1.
  - injection Hw as <- <-. apply Write_fail in H1 as ([Hc|Hh] & _); auto.
    right. destruct (wr_faults c) as [|f rest]; [ discriminate | ].
    simpl in Hh. injection Hh as ->. simpl. auto.
  - apply Write_ok in H1 as (_ & Hc1 & Hf1).
    apply Write_fail in Hw as ([Hc|Hh] & _); [ left; congruence | ].
    right. rewrite Hf1 in Hh.
    destruct (wr_faults c) as [|f [|g rest]]; try discriminate.
    simpl in Hh. injection Hh as ->. simpl. auto.
Qed.

(** On an open stream whose next four bytes, read as an unsigned number,
    are [2 ^ 31] or more, [read] panics: the size is a negative [int32]
    and [make([]byte, size)] refuses it. *)
Lemma read_panics c :
  header_ok c = false -> (read c).1 = Panic.
Proof.
  unfold header_ok, read, ReadFull. destruct (closed c); [ discriminate | ].
  cbn [orb]. destruct (Nat.ltb_spec (length (rd c)) 4) as [|H4];
    [ discriminate | ].
  cbn [orb]. intros Hbig.
  destruct (Nat.leb_spec 4 (length (rd c))); [ | lia ].
  rewrite int32_neg_iff, Hbig by apply Uint32_range. reflexivity.
Qed.

(** C9.  The frame writer keeps its half: for every payload a successful
    [write] has appended four bytes that hold, in big-endian order, the
    length modulo [2 ^ 32], and then the payload, so that for every payload
    shorter than [2 ^ 32] bytes the prefix is the length as an unsigned
    number, lengths from [2 ^ 31] on included; and it fails only when an
    underlying write fails.  The frame reader breaks its half: it takes the
    four bytes for a signed number, and on an open stream whose next header
    announces [2 ^ 31] bytes or more it panics in [make], where it should
    read that many bytes or fail with a transport error.  The frame that
    this writer emits for a payload of [2 ^ 31] bytes or more is such a
    stream.  On every other stream the reader keeps its contract. *)
Theorem frame_reader_panics :
  (forall cw buf c', write cw buf = (None, c') ->
     let hdr := PutUint32 (Z.of_nat (length buf) mod 2 ^ 32) in
     wr c' = wr cw ++ hdr ++ buf /\ length hdr = 4%nat /\
     Uint32 hdr = Z.of_nat (length buf) mod 2 ^ 32) /\
  (forall cw buf e c', write cw buf = (Some e, c') ->
     closed cw = true \/ In (Some e) (take 2 (wr_faults cw))) /\
  (forall cw buf, Z.of_nat (length buf) < 2 ^ 32 -> write_contract cw buf) /\
  (forall cr, header_ok cr = true -> read_contract cr) /\
  (forall cr, header_ok cr = false ->
     (read cr).1 = Panic /\ ~ read_contract cr) /\
  (forall cw cw' cr buf rest,
     2 ^ 31 <= Z.of_nat (length buf) < 2 ^ 32 ->
     write cw buf = (None, cw') ->
     closed cr = false ->
     rd cr = drop (length (wr cw)) (wr cw') ++ rest ->
     (read cr).1 = Panic).
Proof.
  split; [ | split; [ | split; [ | split; [ | split ] ] ] ].
  - intros cw buf c' Hw. cbn zeta. split; [ now apply write_emits | ].
    split; [ reflexivity | ]. rewrite Uint32_PutUint32. apply Z.mod_mod.
    discriminate.
  - intros cw buf e c'. apply write_fails_below.
  - intros cw buf. apply write_contract_holds.
  - intros cr. apply read_contract_holds.
  - intros cr Hbad. pose proof (read_panics cr Hbad) as Hp.
    split; [ exact Hp | ]. unfold read_contract.
    destruct (read cr) as [[buf|e|] c']; cbn in Hp; try discriminate.
    cbn zeta. tauto.
  - intros cw cw' cr buf rest Hlen Hw Hopen Hrd. apply read_panics.
    unfold header_ok. rewrite Hopen, Hrd, (write_emits cw buf cw' Hw).
    rewrite drop_app_length. cbn [orb].
    change (take 4 ((PutUint32 (Z.of_nat (length buf) mod 2 ^ 32) ++ buf)
                    ++ rest))
      with (PutUint32 (Z.of_nat (length buf) mod 2 ^ 32)).
    rewrite Uint32_PutUint32, Z.mod_mod by discriminate.
    rewrite Z.mod_small by lia.
    destruct (Z.ltb_spec (Z.of_nat (length buf)) (2 ^ 31)); [ lia | ].
    rewrite orb_false_r. apply Nat.ltb_ge.
    rewrite !length_app. cbn [length PutUint32]. lia.
Qed.

(** The reader on the stream [80 00 00 00], and the codec on a short
    frame. *)
Lemma frame_reader_panics_witness :
  let bad := mkNetconn [Byte.x80; Byte.x00; Byte.x00; Byte.x00] EndEOF [] []
               false in
  let cw := mkNetconn [] EndEOF [] [] false in
  let cr := mkNetconn [Byte.x00; Byte.x00; Byte.x00; Byte.x02;
                       Byte.x61; Byte.x62; Byte.x63] EndEOF [] [] false in
  ((read bad).1 = Panic /\ ~ read_contract bad) /\
  write_contract cw [Byte.x61; Byte.x62] /\ read_contract cr.
Proof.
  intros bad cw cr.
  destruct frame_reader_panics as (_ & _ & Hw & Hr & Hp & _).
  split; [ apply Hp; reflexivity | ].
  split; [ apply Hw; vm_compute; reflexivity | apply Hr; reflexivity ].
Defined.

End FrameFacts.

(** ** Machine integer facts *)

Lemma int32_range z : in_int32 (int32 z).
Proof.
  unfold in_int32, int32, wrap.
  change (2 ^ (32 - 1)) with 2147483648. change (2 ^ 32) with 4294967296.
  change (2 ^ 31) with 2147483648.
  Z.div_mod_to_equations. lia.
Qed.

Lemma int32_id z : in_int32 z -> int32 z = z.
Proof.
  unfold in_int32, int32, wrap.
  change (2 ^ (32 - 1)) with 2147483648. change (2 ^ 32) with 4294967296.
  change (2 ^ 31) with 2147483648.
  intros H. Z.div_mod_to_equations. lia.
Qed.

Lemma int32_add_l a b : int32 (int32 a + b) = int32 (a + b).
Proof.
  unfold int32, wrap.
  change (2 ^ (32 - 1)) with 2147483648. change (2 ^ 32) with 4294967296.
  Z.div_mod_to_equations. lia.
Qed.

(** Two integers less than [2 ^ 32] apart have different [int32] values. *)
Lemma int32_inj_near a b : int32 a = int32 b -> Z.abs (a - b) < 2 ^ 32 -> a = b.
Proof.
  unfold int32, wrap.
  change (2 ^ (32 - 1)) with 2147483648. change (2 ^ 32) with 4294967296.
  intros H Hd. Z.div_mod_to_equations. lia.
Qed.

(** Every [int32] is reached from any start within [2 ^ 32] increments. *)
Lemma int32_reach a t :
  in_int32 t -> exists d : nat, Z.of_nat d < 2 ^ 32 /\ int32 (a + Z.of_nat d) = t.
Proof.
  intros Ht. exists (Z.to_nat ((t - a) mod 2 ^ 32)).
  assert (0 <= (t - a) mod 2 ^ 32 < 2 ^ 32) by (apply Z.mod_pos_bound; lia).
  rewrite Z2Nat.id by lia. split; [ lia | ].
  rewrite <- (int32_id t Ht) at 2. unfold int32, wrap.
  change (2 ^ (32 - 1)) with 2147483648. change (2 ^ 32) with 4294967296 in *.
  Z.div_mod_to_equations. lia.
Qed.

(** ** The multiplexer: tag allocation *)

Module MuxFacts.
Import Frame Mux.

Lemma at_tag_None_dom (m : gmap Z (option ptr)) k :
  at_tag m k <> None -> k ∈ dom m.
Proof.
  unfold at_tag. intros H. apply elem_of_dom.
  destruct (m !! k); [ eauto | congruence ].
Qed.

(** What the search returns: the first free slot met from [k] on, or no
    free slot among the [fuel + 1] slots inspected. *)
Lemma find_unused_spec fuel (m : gmap Z (option ptr)) k :
  in_int32 k ->
  match find_unused fuel m k with
  | Some k' =>
      exists d : nat, (d <= fuel)%nat /\ k' = int32 (k + Z.of_nat d) /\
        at_tag m k' = None /\
        forall i : nat, (i < d)%nat -> at_tag m (int32 (k + Z.of_nat i)) <> None
  | None =>
      forall i : nat, (i <= fuel)%nat -> at_tag m (int32 (k + Z.of_nat i)) <> None
  end.
Proof.
  revert k. induction fuel as [|fuel IH]; intros k Hk; simpl.
  - destruct (at_tag m k) eqn:E.
    + intros i Hi. assert (i = 0%nat) as -> by lia.
      rewrite Z.add_0_r, int32_id by assumption. congruence.
    + exists 0%nat. rewrite Z.add_0_r, int32_id by assumption.
      repeat split; auto; intros; lia.
  - destruct (at_tag m k) eqn:E.
    + specialize (IH (int32 (k + 1)) (int32_range _)).
      destruct (find_unused fuel m (int32 (k + 1))) as [k'|].
      * destruct IH as (d & Hd & -> & Hfree & Hocc).
        exists (S d). rewrite int32_add_l in *.
        replace (k + 1 + Z.of_nat d) with (k + Z.of_nat (S d)) in * by lia.
        repeat split; auto; [ lia | ].
        intros [|i] Hi.
        -- rewrite Z.add_0_r, int32_id by assumption. congruence.
        -- specialize (Hocc i ltac:(lia)). rewrite int32_add_l in Hocc.
           now replace (k + Z.of_nat (S i)) with (k + 1 + Z.of_nat i) by lia.
      * intros [|i] Hi.
        -- rewrite Z.add_0_r, int32_id by assumption. congruence.
        -- specialize (IH i ltac:(lia)). rewrite int32_add_l in IH.
           now replace (k + Z.of_nat (S i)) with (k + 1 + Z.of_nat i) by lia.
    + exists 0%nat. rewrite Z.add_0_r, int32_id by assumption.
      repeat split; auto; [ lia | intros; lia ].
Qed.

Lemma find_unused_free fuel (m : gmap Z (option ptr)) start k :
  find_unused fuel m start = Some k -> at_tag m k = None.
Proof.
  revert start. induction fuel as [|fuel IH]; intros start; cbn;
    destruct (at_tag m start) eqn:E; try discriminate;
    try (intros [= <-]; exact E).
  apply IH.
Qed.

(** Counting: a table whose [size + 1] slots from [k] on are all taken
    holds at least [2 ^ 32] keys. *)
Lemma occupied_run_size (m : gmap Z (option ptr)) k :
  (forall i : nat, (i <= size m)%nat ->
     at_tag m (int32 (k + Z.of_nat i)) <> None) ->
  2 ^ 32 <= Z.of_nat (size m).
Proof.
  intros Hocc. destruct (Z.le_gt_cases (2 ^ 32) (Z.of_nat (size m))) as [|Hlt];
    [ assumption | exfalso ].
  set (l := (fun i : nat => int32 (k + Z.of_nat i)) <$> seq 0 (S (size m))).
  assert (Hnd : NoDup l).
  { apply NoDup_fmap_2_strong; [ | apply NoDup_seq ].
    intros i j Hi Hj Heq.
    apply elem_of_seq in Hi, Hj.
    apply int32_inj_near in Heq; lia. }
  assert (Hsub : (list_to_set l : gset Z) ⊆ dom m).
  { intros x Hx. apply elem_of_list_to_set in Hx.
    apply list_elem_of_fmap in Hx as (i & -> & Hi).
    apply elem_of_seq in Hi. apply at_tag_None_dom, Hocc. lia. }
  apply subseteq_size in Hsub.
  rewrite size_list_to_set, size_dom in Hsub by exact Hnd.
  unfold l in Hsub. rewrite length_fmap, length_seq in Hsub. lia.
Qed.

(** The search, given as many increments as the table has keys, comes back
    empty-handed only from a table in which all [2 ^ 32] tags are taken:
    there the Go loop does not end. *)
Lemma find_unused_total (m : gmap Z (option ptr)) k t :
  in_int32 k -> in_int32 t -> at_tag m t = None ->
  is_Some (find_unused (size m) m k).
Proof.
  intros Hk Ht Hfree.
  pose proof (find_unused_spec (size m) m k Hk) as Hs.
  destruct (find_unused (size m) m k); [ eauto | exfalso ].
  pose proof (occupied_run_size m k Hs) as Hbig.
  destruct (int32_reach k t Ht) as (d & Hd & Hdt).
  apply (Hs d); [ lia | congruence ].
Qed.

(** *** The code after [error:] *)

Lemma fail_txn_twice e t : fail_txn e (fail_txn e t) = fail_txn e t.
Proof. reflexivity. Qed.

(** The loop over the table changes a transaction, if at all, by failing
    it. *)
Lemma fail_all_pointwise e entries (h : gmap ptr txn) q :
  (fail_all e entries h).1 !! q = h !! q \/
  (fail_all e entries h).1 !! q = fail_txn e <$> h !! q.
Proof.
  revert h. induction entries as [|[k [p|]] rest IH]; intros h; simpl; auto.
  destruct (IH (alter (fail_txn e) p h)) as [H|H]; rewrite H;
    destruct (decide (p = q)) as [->|Hne].
  - right. apply lookup_alter_eq.
  - left. now apply lookup_alter_ne.
  - right. rewrite lookup_alter_eq. now destruct (h !! q).
  - right. now rewrite lookup_alter_ne.
Qed.

(** Over a table without nil entries the loop runs to its end and fails
    exactly the transactions the table names. *)
Lemma fail_all_complete e entries (h : gmap ptr txn) :
  Forall (fun x => x.2 <> None) entries ->
  (fail_all e entries h).2 = true /\
  forall q, (fail_all e entries h).1 !! q =
            if decide (Some q ∈ entries.*2) then fail_txn e <$> h !! q
            else h !! q.
Proof.
  revert h. induction entries as [|[k [p|]] rest IH]; intros h Hall;
    cbn [fail_all].
  - split; [ reflexivity | ]. intros q.
    destruct (decide _) as [H|H]; [ | reflexivity ].
    now apply elem_of_nil in H.
  - apply Forall_cons in Hall as [_ Hall].
    destruct (IH (alter (fail_txn e) p h) Hall) as [Hok Hlk].
    split; [ exact Hok | ]. intros q. rewrite Hlk, fmap_cons. cbn [snd].
    destruct (decide (p = q)) as [->|Hne].
    + rewrite lookup_alter_eq.
      rewrite (decide_True (P := Some q ∈ Some q :: rest.*2))
        by apply list_elem_of_here.
      destruct (decide _); [ now destruct (h !! q) | reflexivity ].
    + rewrite lookup_alter_ne by exact Hne.
      destruct (decide (Some q ∈ rest.*2)) as [H1|H1];
        destruct (decide (Some q ∈ Some p :: rest.*2)) as [H2|H2];
        try reflexivity.
      * exfalso. apply H2. now apply list_elem_of_further.
      * exfalso. apply elem_of_cons in H2 as [H2|H2]; congruence.
  - apply Forall_cons in Hall as [Hnil _]. now simpl in Hnil.
Qed.

(** A nil entry stops the loop before its end. *)
Lemma fail_all_nil e entries (h : gmap ptr txn) :
  None ∈ entries.*2 -> (fail_all e entries h).2 = false.
Proof.
  revert h. induction entries as [|[k [p|]] rest IH]; intros h Hin; simpl.
  - now apply elem_of_nil in Hin.
  - apply IH. simpl in Hin. apply elem_of_cons in Hin as [Hin|Hin];
      [ discriminate | assumption ].
  - reflexivity.
Qed.

Lemma elem_of_table_values (m : gmap Z (option ptr)) v :
  v ∈ (map_to_list m).*2 <-> exists k, m !! k = Some v.
Proof.
  rewrite list_elem_of_fmap. split.
  - intros ([k v'] & -> & Hin). apply elem_of_map_to_list in Hin. eauto.
  - intros (k & Hk). exists (k, v). split; [ reflexivity | ].
    now apply elem_of_map_to_list.
Qed.

(** The broadcast on a table without nil entries: the error is recorded,
    every transaction in the table is failed with it and has its [done]
    fired, the others are left alone, the stream is closed, [c.stopped] is
    closed and the goroutine returns. *)
Lemma teardown_broadcast (s : sys) (e : error) :
  nil_free (txns s) ->
  let s' := teardown s e in
  c_err s' = Some e /\ pc s' = Exited /\ c_stopped s' = true /\
  closed (c_conn s') = true /\ txns s' = txns s /\ n s' = n s /\
  c_stop s' = c_stop s /\
  (forall tag p t, txns s !! tag = Some (Some p) -> heap s !! p = Some t ->
     heap s' !! p = Some (fail_txn e t)) /\
  (forall q, (forall tag, txns s !! tag <> Some (Some q)) ->
     heap s' !! q = heap s !! q).
Proof.
  intros Hnf. unfold teardown. simpl.
  assert (Hall : Forall (fun x : Z * option ptr => x.2 <> None)
                   (map_to_list (txns s))).
  { apply Forall_forall. intros [k v] Hin. apply elem_of_map_to_list in Hin.
    simpl. intros ->. now apply (Hnf k). }
  destruct (fail_all_complete e _ (heap s) Hall) as [Hok Hlk].
  destruct (fail_all e (map_to_list (txns s)) (heap s)) as [h ok].
  simpl in Hok, Hlk. subst ok. simpl.
  repeat split; auto.
  - intros tag p t Htag Hp. rewrite Hlk, decide_True, Hp; [ reflexivity | ].
    apply elem_of_table_values. eauto.
  - intros q Hq. rewrite Hlk, decide_False; [ reflexivity | ].
    intros Hin. apply elem_of_table_values in Hin as (k & Hk).
    now apply (Hq k).
Qed.

(** The broadcast on a table with a nil entry: the error is recorded, then
    the goroutine panics; the stream stays open and [c.stopped] is not
    closed. *)
Lemma teardown_nil_entry (s : sys) (e : error) k :
  txns s !! k = Some None ->
  let s' := teardown s e in
  c_err s' = Some e /\ pc s' = Crashed /\ c_stopped s' = c_stopped s /\
  c_conn s' = c_conn s.
Proof.
  intros Hk. unfold teardown. simpl.
  assert (Hnil : None ∈ (map_to_list (txns s)).*2)
    by (apply elem_of_table_values; eauto).
  pose proof (fail_all_nil e _ (heap s) Hnil) as Hf.
  destruct (fail_all e (map_to_list (txns s)) (heap s)) as [h ok].
  simpl in Hf. subst ok. simpl. auto.
Qed.

Lemma teardown_frame (s : sys) (e : error) :
  let s' := teardown s e in
  c_err s' = Some e /\ txns s' = txns s /\ n s' = n s /\
  c_stop s' = c_stop s /\ pc s' <> Running /\
  (forall q, heap s' !! q = heap s !! q \/
             heap s' !! q = fail_txn e <$> heap s !! q).
Proof.
  unfold teardown. simpl.
  pose proof (fail_all_pointwise e (map_to_list (txns s)) (heap s)) as Hp.
  destruct (fail_all e (map_to_list (txns s)) (heap s)) as [h [|]];
    simpl in *; repeat split; auto; discriminate.
Qed.

(** A loop that ran to its end met no nil entry. *)
Lemma fail_all_done e entries (h : gmap ptr txn) :
  (fail_all e entries h).2 = true ->
  Forall (fun x : Z * option ptr => x.2 <> None) entries.
Proof.
  revert h. induction entries as [|[k [p|]] rest IH]; intros h;
    cbn [fail_all]; [ constructor | | discriminate ].
  intros H. constructor; [ discriminate | now apply (IH _ H) ].
Qed.

(** After the code that follows [error:] a transaction that was settled
    or in the table is settled, unless the broadcast broke off. *)
Lemma teardown_settles (s : sys) (e : error) (p : ptr) (t : txn) :
  heap s !! p = Some t ->
  t_done t = true \/ (exists k, txns s !! k = Some (Some p)) ->
  pc (teardown s e) = Crashed \/
  (pc (teardown s e) = Exited /\
   exists t', heap (teardown s e) !! p = Some t' /\ t_done t' = true).
Proof.
  intros Hp Hin. unfold teardown. cbn [txns heap set_err].
  destruct (fail_all e (map_to_list (txns s)) (heap s)) as [h ok] eqn:E.
  destruct ok; [ right | left; reflexivity ].
  split; [ reflexivity | ].
  assert (Hok : (fail_all e (map_to_list (txns s)) (heap s)).2 = true)
    by now rewrite E.
  destruct (fail_all_complete e _ (heap s) (fail_all_done _ _ _ Hok))
    as [_ Hlk].
  rewrite E in Hlk. cbn [fst] in Hlk. cbn. rewrite Hlk, Hp.
  destruct (decide (Some p ∈ (map_to_list (txns s)).*2)) as [Hmem|Hno].
  - eexists. split; reflexivity.
  - exists t. split; [ reflexivity | ].
    destruct Hin as [Hd|[k Hk]]; [ exact Hd | ].
    exfalso. apply Hno. apply elem_of_table_values. eauto.
Qed.

(** *** One turn of the goroutine *)

Section WithCodec.

Variable Marshal : request -> error + list byte.
Variable Unmarshal : list byte -> error + response.

#[local] Abbreviation on_send := (Mux.on_send Marshal).
#[local] Abbreviation on_msg := (Mux.on_msg Unmarshal).
#[local] Abbreviation select_turn := (Mux.select_turn Marshal Unmarshal).
#[local] Abbreviation mux_step := (Mux.mux_step Marshal Unmarshal).
#[local] Abbreviation act := (Mux.act Marshal Unmarshal).
#[local] Abbreviation run := (Mux.run Marshal Unmarshal).
#[local] Abbreviation teardowns := (Mux.teardowns Marshal Unmarshal).
#[local] Abbreviation call := (Mux.call Marshal Unmarshal).

(** The three ways a submission that found the tag [k] ends: the request
    does not encode, the frame is written, or the write fails. *)
Lemma on_send_cases (s : sys) (p : ptr) (k : Z) (t : txn) :
  find_unused (size (txns s)) (txns s) (n s) = Some k ->
  heap s !! p = Some t ->
  let t1 := stamp k t in
  (exists e, Marshal (t_req t1) = inl e /\
     on_send s p =
       (mkSys (<[k := None]> (<[k := Some p]> (txns s))) k
          (<[p := fail_txn e t1]> (<[p := t1]> (heap s)))
          (c_conn s) (c_err s) (c_stop s) (c_stopped s) (pc s), None)) \/
  (exists buf, Marshal (t_req t1) = inr buf /\
     on_send s p =
       (mkSys (<[k := Some p]> (txns s)) k (<[p := t1]> (heap s))
          (write (c_conn s) buf).2 (c_err s) (c_stop s) (c_stopped s) (pc s),
        (write (c_conn s) buf).1)).
Proof.
  intros Hk Hp t1. unfold Mux.on_send. rewrite Hk. cbn -[stamp write].
  rewrite Hp. fold t1.
  destruct (Marshal (t_req t1)) as [e|buf].
  - left. exists e. split; reflexivity.
  - right. exists buf. split; [ reflexivity | ].
    destruct (write (c_conn s) buf) as [[e|] c']; reflexivity.
Qed.

Lemma mux_step_not_running (s : sys) (ev : event) :
  pc s <> Running -> mux_step s ev = s.
Proof.
  intros H. unfold Mux.mux_step, Mux.select_turn, enabled.
  destruct (pc s); [ congruence | | | ]; reflexivity.
Qed.

Lemma select_turn_not_running (s : sys) (ev : event) :
  pc s <> Running -> select_turn s ev = (s, None).
Proof.
  intros H. unfold Mux.select_turn, enabled.
  destruct (pc s); [ congruence | | | ]; reflexivity.
Qed.

(** C1, as amended.  The multiplexer gives a submission the first tag, at
    or after its counter [n] in increasing order with [int32] wrap-around,
    whose table slot holds no transaction, and leaves the counter on that
    tag; it never starts over from the lowest value.  A freed tag is thus
    reused by the next submission exactly when every slot from the counter
    up to it is taken, as when it is the counter itself. *)
Theorem tag_is_first_free_from_counter (s : sys) (p : ptr) (free : Z)
    (Hrun : pc s = Running) (Hn : in_int32 (n s))
    (Hp : is_Some (heap s !! p))
    (Hfree : in_int32 free /\ at_tag (txns s) free = None) :
  let s' := mux_step s (Send p) in
  exists d : nat,
    let k := int32 (n s + Z.of_nat d) in
    tag_of s' p = Some k /\ n s' = k /\ at_tag (txns s) k = None /\
    (forall i : nat, (i < d)%nat ->
       at_tag (txns s) (int32 (n s + Z.of_nat i)) <> None) /\
    (at_tag (txns s) (n s) = None -> k = n s).
Proof.
  destruct Hfree as [Hfr Hslot]. destruct Hp as [t Ht].
  destruct (find_unused_total (txns s) (n s) free Hn Hfr Hslot) as [k Hk].
  pose proof (find_unused_spec (size (txns s)) (txns s) (n s) Hn) as Hs.
  rewrite Hk in Hs. destruct Hs as (d & _ & -> & Hnone & Hocc).
  exists d. cbn zeta.
  assert (Hzero : at_tag (txns s) (n s) = None ->
                  int32 (n s + Z.of_nat d) = n s).
  { intros H0. destruct d as [|d].
    - rewrite Z.add_0_r. now apply int32_id.
    - exfalso. apply (Hocc 0%nat); [ lia | ].
      rewrite Z.add_0_r, int32_id; assumption. }
  unfold Mux.mux_step, Mux.select_turn, enabled. rewrite Hrun.
  destruct (on_send_cases s p _ t Hk Ht) as [(e & _ & ->)|(buf & _ & ->)].
  - unfold tag_of. cbn -[stamp]. rewrite lookup_insert_eq. auto.
  - destruct (write (c_conn s) buf) as [[e|] c']; cbn [fst snd].
    + match goal with |- context [teardown ?x e] =>
        destruct (teardown_frame x e) as (_ & _ & Hn' & _ & _ & Hh) end.
      rewrite Hn'. unfold tag_of. specialize (Hh p).
      cbn -[stamp teardown] in Hh. rewrite lookup_insert_eq in Hh.
      destruct Hh as [-> | ->]; cbn; auto.
    + unfold tag_of. cbn -[stamp]. rewrite lookup_insert_eq. auto.
Qed.

(** *** Frame conditions of a turn *)

Lemma on_send_frame (s : sys) (p : ptr) :
  let s' := (on_send s p).1 in
  c_stop s' = c_stop s /\ c_err s' = c_err s /\ c_stopped s' = c_stopped s.
Proof.
  unfold Mux.on_send.
  destruct (find_unused _ _ _); [ | cbn; auto ].
  cbn -[stamp write]. destruct (heap s !! p); [ | cbn; auto ].
  destruct (Marshal _); [ cbn; auto | ].
  destruct (write _ _) as [[e|] c']; cbn; auto.
Qed.

Lemma on_msg_frame (s : sys) (buf : list byte) :
  let s' := on_msg s buf in
  c_stop s' = c_stop s /\ c_err s' = c_err s /\ c_stopped s' = c_stopped s /\
  pc s' = pc s /\ c_conn s' = c_conn s /\ n s' = n s.
Proof.
  unfold Mux.on_msg. destruct (Unmarshal buf) as [e|r]; [ cbn; auto 10 | ].
  destruct (resp_Tag r); [ | cbn; auto 10 ].
  destruct (at_tag _ _); cbn; auto 10.
Qed.

(** A turn that jumps to [error:] ends the goroutine. *)
Lemma goto_error_ends (s : sys) (ev : event) :
  is_Some (select_turn s ev).2 -> pc (mux_step s ev) <> Running.
Proof.
  unfold Mux.mux_step. destruct (select_turn s ev) as [s1 [e|]]; cbn.
  - intros _. apply teardown_frame.
  - intros [e He]. discriminate.
Qed.

(** A turn that leaves the goroutine at its [select] has not touched
    [c.stop], [c.err] or [c.stopped]. *)
Lemma still_running_frame (s : sys) (ev : event) :
  pc (mux_step s ev) = Running ->
  (select_turn s ev).2 = None /\
  c_stop (mux_step s ev) = c_stop s /\ c_err (mux_step s ev) = c_err s /\
  c_stopped (mux_step s ev) = c_stopped s /\ pc s = Running.
Proof.
  intros Hr.
  assert (Hs : pc s = Running).
  { destruct (pc s) eqn:E; [ reflexivity | | | ];
      rewrite mux_step_not_running in Hr by congruence; congruence. }
  pose proof (goto_error_ends s ev) as Hg. revert Hr Hg.
  unfold Mux.mux_step.
  destruct (select_turn s ev) as [s1 [e|]] eqn:Ht; cbn; intros Hr Hg.
  - exfalso. apply Hg; eauto.
  - split; [ reflexivity | ].
    unfold Mux.select_turn in Ht. destruct (enabled s ev).
    + destruct ev as [p|buf|e|]; try discriminate.
      * pose proof (on_send_frame s p) as Hf. rewrite Ht in Hf. cbn in Hf.
        tauto.
      * injection Ht as <-. pose proof (on_msg_frame s buf) as Hf.
        cbn zeta in Hf. tauto.
    + injection Ht as <-. auto.
Qed.

Lemma Close_frame (s : sys) :
  txns (Close s) = txns s /\ n (Close s) = n s /\ heap (Close s) = heap s /\
  c_conn (Close s) = c_conn s /\ c_err (Close s) = c_err s /\
  c_stopped (Close s) = c_stopped s /\ pc (Close s) = pc s /\
  c_stop (Close s) <> [].
Proof.
  unfold Close. destruct (Nat.ltb_spec (length (c_stop s)) 1); cbn.
  - repeat split; auto. now destruct (c_stop s).
  - repeat split; auto. destruct (c_stop s); [ cbn in *; lia | discriminate ].
Qed.

Lemma Close_capacity (s : sys) :
  (length (c_stop s) <= 1)%nat -> (length (c_stop (Close s)) = 1)%nat.
Proof.
  unfold Close. intros H. destruct (Nat.ltb_spec (length (c_stop s)) 1); cbn.
  - rewrite length_app. cbn. lia.
  - lia.
Qed.

Lemma Close_idempotent (s : sys) : Close (Close s) = Close s.
Proof.
  unfold Close at 1.
  destruct (Nat.ltb_spec (length (c_stop (Close s))) 1) as [H|H];
    [ | reflexivity ].
  pose proof (Close_frame s) as (_ & _ & _ & _ & _ & _ & _ & Hne).
  destruct (c_stop (Close s)); [ congruence | cbn in H; lia ].
Qed.

Lemma run_app (s : sys) (tr1 tr2 : list action) :
  run s (tr1 ++ tr2) = run (run s tr1) tr2.
Proof. apply fold_left_app. Qed.

Lemma run_Closes (s : sys) (k : nat) :
  (1 <= k)%nat -> run s (replicate k ActClose) = Close s.
Proof.
  induction k as [|k IH]; [ lia | ]. intros _. destruct k as [|k].
  - reflexivity.
  - change (run s (replicate (S (S k)) ActClose))
      with (run (Close s) (replicate (S k) ActClose)).
    clear IH. revert s. induction k as [|k IH]; intros s.
    + cbn. apply Close_idempotent.
    + change (run (Close s) (replicate (S (S k)) ActClose))
        with (run (Close (Close s)) (replicate (S k) ActClose)).
      rewrite Close_idempotent. apply IH.
Qed.

Lemma act_not_running (s : sys) (a : action) :
  pc s <> Running -> pc (act s a) <> Running.
Proof.
  intros H. destruct a as [|ev]; cbn.
  - now rewrite (proj1 (proj2 (proj2 (proj2 (proj2 (proj2
                                                      (proj2 (Close_frame s)))))))).
  - now rewrite mux_step_not_running.
Qed.

(** Once the goroutine is gone nothing changes but the content of
    [c.stop]. *)
Lemma gone_is_final (s : sys) (tr : list action) :
  pc s <> Running ->
  let s' := run s tr in
  txns s' = txns s /\ n s' = n s /\ heap s' = heap s /\
  c_conn s' = c_conn s /\ c_err s' = c_err s /\
  c_stopped s' = c_stopped s /\ pc s' = pc s /\ teardowns s tr = 0%nat.
Proof.
  revert s. induction tr as [|a tr IH]; intros s Hs; [ cbn; auto 10 | ].
  cbn [Mux.run fold_left Mux.teardowns].
  pose proof (IH (act s a) (act_not_running s a Hs)) as IH'.
  destruct a as [|ev].
  - cbn [Mux.act] in *. pose proof (Close_frame s).
    unfold Mux.run in IH'. cbn zeta in IH'. intuition congruence.
  - cbn [Mux.act] in *. rewrite mux_step_not_running in * by exact Hs.
    rewrite select_turn_not_running by exact Hs. exact IH'.
Qed.

Lemma teardowns_app (s : sys) (tr1 tr2 : list action) :
  teardowns s (tr1 ++ tr2)
  = (teardowns s tr1 + teardowns (run s tr1) tr2)%nat.
Proof.
  revert s. induction tr1 as [|a tr1 IH]; intros s; [ reflexivity | ].
  cbn [app Mux.teardowns Mux.run fold_left]. rewrite IH.
  unfold Mux.run. lia.
Qed.

(** The broadcast is run at most once, whatever the trace. *)
Lemma teardowns_at_most_one (s : sys) (tr : list action) :
  (teardowns s tr <= 1)%nat.
Proof.
  revert s. induction tr as [|a tr IH]; intros s; [ cbn; lia | ].
  cbn [Mux.teardowns]. destruct a as [|ev]; [ apply IH | ].
  destruct (select_turn s ev).2 eqn:Hg; [ | apply IH ].
  assert (Hgone : pc (act s (ActMux ev)) <> Running).
  { cbn. apply goto_error_ends. rewrite Hg. eauto. }
  destruct (gone_is_final _ tr Hgone) as (_ & _ & _ & _ & _ & _ & _ & ->).
  lia.
Qed.

(** A close request stays pending until the goroutine acts on it. *)
Lemma close_stays_pending (s : sys) (tr : list action) :
  In ActClose tr -> pc (run s tr) = Running -> c_stop (run s tr) <> [].
Proof.
  induction tr as [|a tr IH] using rev_ind; [ intros [] | ].
  rewrite run_app. cbn [Mux.run fold_left]. fold (run s tr).
  intros Hin Hr. destruct a as [|ev].
  - apply Close_frame.
  - cbn [Mux.act] in *. apply still_running_frame in Hr as (_ & -> & _ & _ & Hr).
    apply IH; [ | exact Hr ].
    apply in_app_or in Hin as [Hin|[Hin|[]]]; [ exact Hin | discriminate ].
Qed.

Lemma quiet_turn_keeps_err (s : sys) (ev : event) :
  (select_turn s ev).2 = None -> c_err (mux_step s ev) = c_err s.
Proof.
  unfold Mux.mux_step. destruct (select_turn s ev) as [s1 [e|]] eqn:Ht;
    cbn; [ discriminate | intros _ ].
  unfold Mux.select_turn in Ht. destruct (enabled s ev).
  - destruct ev as [p|buf|e|]; try discriminate.
    + pose proof (on_send_frame s p) as Hf. rewrite Ht in Hf. cbn in Hf.
      tauto.
    + injection Ht as <-. pose proof (on_msg_frame s buf) as Hf.
      cbn zeta in Hf. tauto.
  - now injection Ht as <-.
Qed.

(** The error is recorded on the connection exactly when the broadcast has
    run, and the broadcast runs once at most: the first writer of [c.err]
    is the only one. *)
Lemma recorded_iff_torn_down (s : sys) (tr : list action) :
  c_err s = None ->
  (teardowns s tr = 1%nat <-> is_Some (c_err (run s tr))) /\
  (teardowns s tr = 0%nat <-> c_err (run s tr) = None).
Proof.
  revert s. induction tr as [|a tr IH]; intros s Hnone.
  - cbn. rewrite Hnone. split; split; try discriminate; auto.
    intros [e He]. discriminate.
  - cbn [Mux.teardowns Mux.run fold_left]. destruct a as [|ev].
    + cbn [Mux.act]. apply IH.
      now rewrite (proj1 (proj2 (proj2 (proj2 (proj2 (Close_frame s)))))).
    + cbn [Mux.act]. destruct (select_turn s ev).2 as [e|] eqn:Hg.
      * assert (Hgone : pc (mux_step s ev) <> Running)
          by (apply goto_error_ends; rewrite Hg; eauto).
        destruct (gone_is_final _ tr Hgone)
          as (_ & _ & _ & _ & Herr & _ & _ & Hzero).
        cbn zeta in Herr. unfold Mux.run in Herr. rewrite Hzero, Herr.
        assert (Hrec : c_err (mux_step s ev) = Some e).
        { unfold Mux.mux_step. destruct (select_turn s ev) as [s1 o].
          cbn in Hg. subst o. apply teardown_frame. }
        rewrite Hrec. split; split; try discriminate; eauto.
      * apply IH. now rewrite quiet_turn_keeps_err.
Qed.

(** C8.  [Close] is a send that never waits and returns nothing: it touches
    only the buffer of [c.stop], leaves exactly one request pending however
    often it is called, and a call that finds the buffer full changes
    nothing.  Any number of calls, from any tasks and interleaved with any
    other events, therefore make the goroutine enter the code after
    [error:] exactly once, with [ErrClosed], when it next services
    [c.stop], and no trace whatsoever makes it enter that code twice.  What
    that code then does depends on the table.  Without a nil entry the
    broadcast is carried out: every outstanding transaction gets
    [ErrClosed] and its [done], the stream and [c.stopped] are closed and
    the goroutine returns.  With a nil entry, as an encoding failure leaves
    one, the broadcast breaks off in a panic: the stream and [c.stopped]
    are left as they were, and if [c.stopped] was open every later [call]
    blocks for ever, whichever branch it waits for. *)
Theorem close_broadcast (s : sys) (k : nat) (tr1 tr2 tr : list action)
    (Hcap : (length (c_stop s) <= 1)%nat) (Hk : (1 <= k)%nat)
    (Hclose : In ActClose tr1) (Hrun : pc (run s tr1) = Running) :
  let s1 := run s tr1 in
  let s' := run s (tr1 ++ ActMux Stop :: tr2) in
  (txns (Close s) = txns s /\ n (Close s) = n s /\ heap (Close s) = heap s /\
   c_conn (Close s) = c_conn s /\ c_err (Close s) = c_err s /\
   c_stopped (Close s) = c_stopped s /\ pc (Close s) = pc s) /\
  length (c_stop (Close s)) = 1%nat /\
  run s (replicate k ActClose) = Close s /\
  teardowns s (tr1 ++ ActMux Stop :: tr2) = 1%nat /\
  (teardowns s tr <= 1)%nat /\
  c_err s' = Some ErrClosed /\
  pc s' <> Running /\
  (nil_free (txns s1) ->
   pc s' = Exited /\ c_stopped s' = true /\ closed (c_conn s') = true /\
   forall tag q t, txns s1 !! tag = Some (Some q) -> heap s1 !! q = Some t ->
     exists t', heap s' !! q = Some t' /\
       t_err t' = Some ErrClosed /\ t_done t' = true /\
       t_req t' = t_req t /\ t_resp t' = t_resp t) /\
  (forall tag, txns s1 !! tag = Some None ->
   pc s' = Crashed /\ c_stopped s' = c_stopped s1 /\
   closed (c_conn s') = closed (c_conn s1) /\
   (c_stopped s1 = false ->
    forall p b others, (call s' p b others).1 = None)).
Proof.
  cbn zeta.
  split; [ pose proof (Close_frame s); tauto | ].
  split; [ now apply Close_capacity | ].
  split; [ now apply run_Closes | ].
  pose proof (close_stays_pending s tr1 Hclose Hrun) as Hpend.
  set (s1 := run s tr1) in *.
  assert (Hturn : select_turn s1 Stop
                  = (set_stop s1 (tail (c_stop s1)), Some ErrClosed)).
  { unfold Mux.select_turn, enabled. rewrite Hrun.
    destruct (c_stop s1); [ congruence | reflexivity ]. }
  assert (Hstep : mux_step s1 Stop
                  = teardown (set_stop s1 (tail (c_stop s1))) ErrClosed).
  { unfold Mux.mux_step. now rewrite Hturn. }
  destruct (teardown_frame (set_stop s1 (tail (c_stop s1))) ErrClosed)
    as (Herr & _ & _ & _ & Hgone & _).
  rewrite <- Hstep in Herr, Hgone.
  destruct (gone_is_final _ tr2 Hgone)
    as (_ & _ & Hheap2 & Hconn2 & Herr2 & Hst2 & Hpc2 & Hzero).
  assert (Hfinal : run s (tr1 ++ ActMux Stop :: tr2)
                   = run (mux_step s1 Stop) tr2).
  { rewrite run_app. reflexivity. }
  rewrite Hfinal.
  split; [ | split; [ apply teardowns_at_most_one | ] ].
  { rewrite teardowns_app. fold s1. cbn [Mux.teardowns Mux.act].
    rewrite Hturn, Hzero. cbn [snd].
    pose proof (teardowns_at_most_one s (tr1 ++ [ActMux Stop])) as Hle.
    rewrite teardowns_app in Hle. fold s1 in Hle.
    cbn [Mux.teardowns] in Hle. rewrite Hturn in Hle. cbn [snd] in Hle. lia. }
  split; [ congruence | ]. split; [ congruence | ].
  split.
  - intros Hnf. rewrite Hpc2, Hst2, Hconn2, Hheap2, Hstep.
    destruct (teardown_broadcast (set_stop s1 (tail (c_stop s1))) ErrClosed
                Hnf) as (_ & Hpc & Hst & Hcl & _ & _ & _ & Hfail & _).
    repeat split; auto.
    intros tag q t Htag Hq. exists (fail_txn ErrClosed t).
    split; [ now apply (Hfail tag q t) | ]. repeat split.
  - intros tag Htag.
    destruct (teardown_nil_entry (set_stop s1 (tail (c_stop s1))) ErrClosed
                tag Htag) as (_ & Hpc & Hst & Hconn).
    cbn zeta in Hpc, Hst, Hconn. rewrite <- Hstep in Hpc, Hst, Hconn.
    assert (Hpcf : pc (run (mux_step s1 Stop) tr2) = Crashed) by congruence.
    assert (Hstf : c_stopped (run (mux_step s1 Stop) tr2) = c_stopped s1)
      by (rewrite Hst2, Hst; reflexivity).
    assert (Hclf : closed (c_conn (run (mux_step s1 Stop) tr2))
                   = closed (c_conn s1))
      by (rewrite Hconn2, Hconn; reflexivity).
    repeat split; try assumption.
    intros Hopen p b others. unfold Mux.call, ready, set_heap.
    cbn [pc c_stopped]. rewrite Hpcf, Hstf, Hopen. now destruct b.
Qed.

(** *** Invariants of the goroutine *)

Lemma teardown_pc (s : sys) (e : error) :
  pc (teardown s e) = Exited \/ pc (teardown s e) = Crashed.
Proof.
  unfold teardown.
  destruct (fail_all e _ _) as [h [|]]; cbn; auto.
Qed.

(** The goroutine is caught in the search for a tag only when every one
    of the [2 ^ 32] tags holds a transaction. *)
Lemma spinning_only_when_full (s : sys) (p : ptr) :
  pc s = Running -> in_int32 (n s) ->
  pc (mux_step s (Send p)) = Spinning ->
  forall t, in_int32 t -> at_tag (txns s) t <> None.
Proof.
  intros Hrun Hn Hspin t Ht Hfree.
  destruct (find_unused_total (txns s) (n s) t Hn Ht Hfree) as [k Hk].
  revert Hspin. unfold Mux.mux_step, Mux.select_turn, enabled.
  rewrite Hrun. destruct (heap s !! p) as [tx|] eqn:Hp.
  - destruct (on_send_cases s p k tx Hk Hp) as [(e & _ & ->)|(buf & _ & ->)].
    + cbn. congruence.
    + destruct (write (c_conn s) buf) as [[e|] c']; cbn [fst snd].
      * match goal with |- context [teardown ?x e] =>
          destruct (teardown_pc x e) as [-> | ->] end; discriminate.
      * cbn. congruence.
  - unfold Mux.on_send. rewrite Hk. cbn -[stamp write]. rewrite Hp. cbn.
    discriminate.
Qed.

(** The counter stays an [int32]. *)
Lemma counter_in_range (s : sys) (a : action) :
  in_int32 (n s) -> in_int32 (n (act s a)).
Proof.
  intros Hn. destruct a as [|ev]; cbn [Mux.act].
  - now rewrite (proj1 (proj2 (Close_frame s))).
  - assert (Hturn : in_int32 (n (select_turn s ev).1)).
    { unfold Mux.select_turn. destruct (enabled s ev); [ | exact Hn ].
      destruct ev as [p|buf|e|]; cbn [fst]; try exact Hn.
      - pose proof (find_unused_spec (size (txns s)) (txns s) (n s) Hn) as Hs.
        unfold Mux.on_send.
        destruct (find_unused _ _ _) as [k|]; [ | exact Hn ].
        destruct Hs as (d & _ & -> & _).
        cbn -[stamp write]. destruct (heap s !! p); [ | apply int32_range ].
        destruct (Marshal _); [ apply int32_range | ].
        destruct (write _ _) as [[e|] c']; apply int32_range.
      - now rewrite (proj2 (proj2 (proj2 (proj2 (proj2 (on_msg_frame s buf)))))). }
    unfold Mux.mux_step. destruct (select_turn s ev) as [s1 [e|]];
      cbn [fst] in Hturn; [ | exact Hturn ].
    now rewrite (proj1 (proj2 (proj2 (teardown_frame s1 e)))).
Qed.

(** With a codec that encodes every request no nil entry ever enters the
    table. *)
Lemma nil_free_preserved (s : sys) (a : action) :
  (forall r, exists buf, Marshal r = inr buf) ->
  nil_free (txns s) -> nil_free (txns (act s a)).
Proof.
  intros Henc Hnf. destruct a as [|ev]; cbn [Mux.act].
  - now rewrite (proj1 (Close_frame s)).
  - assert (Hturn : nil_free (txns (select_turn s ev).1)).
    { unfold Mux.select_turn. destruct (enabled s ev); [ | exact Hnf ].
      destruct ev as [p|buf|e|]; cbn [fst]; try exact Hnf.
      - unfold Mux.on_send.
        destruct (find_unused _ _ _) as [k|]; [ | exact Hnf ].
        assert (Hins : nil_free (<[k := Some p]> (txns s))).
        { intros j. rewrite lookup_insert.
          destruct (decide (k = j)); [ discriminate | apply Hnf ]. }
        cbn -[stamp write]. destruct (heap s !! p) as [tx|]; [ | exact Hins ].
        destruct (Henc (t_req (stamp k tx))) as [buf ->].
        destruct (write _ _) as [[e|] c']; exact Hins.
      - unfold Mux.on_msg. destruct (Unmarshal buf) as [e|r]; [ exact Hnf | ].
        destruct (resp_Tag r) as [tag|]; [ | exact Hnf ].
        destruct (at_tag (txns s) tag); [ | exact Hnf ].
        cbn. intros j. rewrite lookup_delete.
        destruct (decide (tag = j)); [ discriminate | apply Hnf ]. }
    unfold Mux.mux_step. destruct (select_turn s ev) as [s1 [e|]];
      cbn [fst] in Hturn; [ | exact Hturn ].
    now rewrite (proj1 (proj2 (teardown_frame s1 e))).
Qed.

Lemma nil_free_run (s : sys) (tr : list action) :
  (forall r, exists buf, Marshal r = inr buf) ->
  nil_free (txns s) -> nil_free (txns (run s tr)).
Proof.
  intros Henc. revert s. induction tr as [|a tr IH]; intros s Hnf;
    [ exact Hnf | ].
  cbn [Mux.run fold_left]. apply IH. now apply nil_free_preserved.
Qed.

(** *** Encoding failure *)

(** What the goroutine does with a request that does not encode: the
    caller is unblocked with the encoding error and the connection stays
    alive, but the table keeps the tag, now bound to nil. *)
Lemma encode_failure (s : sys) (p : ptr) (k : Z) (t : txn) (e : error) :
  pc s = Running ->
  find_unused (size (txns s)) (txns s) (n s) = Some k ->
  heap s !! p = Some t ->
  Marshal (t_req (stamp k t)) = inl e ->
  let s' := mux_step s (Send p) in
  txns s' !! k = Some None /\ k ∈ dom (txns s') /\
  heap s' !! p = Some (fail_txn e (stamp k t)) /\
  pc s' = Running /\ c_stopped s' = c_stopped s /\ c_conn s' = c_conn s /\
  c_err s' = c_err s.
Proof.
  intros Hrun Hk Hp He. unfold Mux.mux_step, Mux.select_turn, enabled.
  rewrite Hrun.
  destruct (on_send_cases s p k t Hk Hp) as [(e' & He' & ->)|(buf & Hb & _)];
    [ | congruence ].
  assert (e' = e) as -> by congruence. cbn -[stamp].
  rewrite !lookup_insert_eq. repeat split; auto.
  apply elem_of_dom. rewrite lookup_insert_eq. eauto.
Qed.

(** *** The terminal state *)

(** The transition to the terminal state from a table without nil entries:
    everything the broadcast owes is done, the recorded error never changes
    afterwards, and every later call finds only [c.stopped] ready and
    returns the recorded error. *)
Lemma terminal_state (s s1 : sys) (ev : event) (e : error)
    (tr : list action) (p : ptr) :
  select_turn s ev = (s1, Some e) -> nil_free (txns s1) ->
  let s' := mux_step s ev in
  c_err s' = Some e /\ pc s' = Exited /\ c_stopped s' = true /\
  closed (c_conn s') = true /\
  (forall tag q t, txns s1 !! tag = Some (Some q) -> heap s1 !! q = Some t ->
     heap s' !! q = Some (fail_txn e t)) /\
  c_err (run s' tr) = Some e /\
  ready (run s' tr) CaseSend = false /\
  (call (run s' tr) p CaseStopped []).1 = Some (Fail e).
Proof.
  intros Hturn Hnf. unfold Mux.mux_step. rewrite Hturn. cbn zeta.
  destruct (teardown_broadcast s1 e Hnf)
    as (Herr & Hpc & Hst & Hcl & _ & _ & _ & Hfail & _).
  assert (Hgone : pc (teardown s1 e) <> Running) by (rewrite Hpc; discriminate).
  destruct (gone_is_final _ tr Hgone)
    as (_ & _ & _ & _ & Herr2 & Hst2 & Hpc2 & _).
  repeat split; auto.
  - congruence.
  - unfold ready. rewrite Hpc2, Hpc. reflexivity.
  - unfold Mux.call, ready. cbn. rewrite Hst2, Hst. cbn.
    rewrite Herr2, Herr. reflexivity.
Qed.

(** *** What a turn does to a transaction *)

Lemma evolves_trans t1 t2 t3 : evolves t1 t2 -> evolves t2 t3 -> evolves t1 t3.
Proof.
  intros H12 H23. induction H23; [ assumption | | | ]; constructor; auto.
Qed.

Lemma evolves_stamp_one k t : evolves t (stamp k t).
Proof. apply (evolves_stamp t t), evolves_refl. Qed.

(** A transaction whose [done] fires while it evolves carries an error or
    a response. *)
Lemma evolves_settled t t' :
  evolves t t' -> t_done t = false -> t_done t' = true ->
  is_Some (t_err t') \/ is_Some (t_resp t').
Proof.
  induction 1; cbn; intros H0 H1; eauto; congruence.
Qed.

Lemma teardown_evolves (s : sys) (e : error) q t' :
  heap (teardown s e) !! q = Some t' ->
  exists t, heap s !! q = Some t /\ evolves t t'.
Proof.
  destruct (teardown_frame s e) as (_ & _ & _ & _ & _ & Hh).
  intros Hq. destruct (Hh q) as [H|H]; rewrite H in Hq.
  - exists t'. split; [ assumption | constructor ].
  - destruct (heap s !! q) as [t|]; [ | discriminate ].
    injection Hq as <-. exists t. split; [ reflexivity | ].
    apply evolves_fail, evolves_refl.
Qed.

Lemma on_send_evolves (s : sys) (p : ptr) q t' :
  heap (on_send s p).1 !! q = Some t' ->
  exists t, heap s !! q = Some t /\ evolves t t'.
Proof.
  destruct (find_unused (size (txns s)) (txns s) (n s)) as [k|] eqn:Hk;
    [ | unfold Mux.on_send; rewrite Hk; cbn; intros H; eexists;
        split; [ exact H | constructor ] ].
  destruct (heap s !! p) as [t|] eqn:Hp;
    [ | unfold Mux.on_send; rewrite Hk; cbn -[stamp write]; rewrite Hp; cbn;
        intros H; eexists; split; [ exact H | constructor ] ].
  destruct (on_send_cases s p k t Hk Hp) as [(e & _ & ->)|(buf & _ & ->)];
    cbn -[stamp]; intros Hq.
  - destruct (decide (p = q)) as [->|Hne].
    + rewrite lookup_insert_eq in Hq. injection Hq as <-.
      exists t. split; [ assumption | ].
      apply evolves_fail, evolves_stamp_one.
    + rewrite !lookup_insert_ne in Hq by exact Hne.
      exists t'. split; [ assumption | constructor ].
  - destruct (decide (p = q)) as [->|Hne].
    + rewrite lookup_insert_eq in Hq. injection Hq as <-.
      exists t. split; [ assumption | apply evolves_stamp_one ].
    + rewrite lookup_insert_ne in Hq by exact Hne.
      exists t'. split; [ assumption | constructor ].
Qed.

Lemma on_msg_evolves (s : sys) (buf : list byte) q t' :
  heap (on_msg s buf) !! q = Some t' ->
  exists t, heap s !! q = Some t /\ evolves t t'.
Proof.
  unfold Mux.on_msg.
  destruct (Unmarshal buf) as [e|r];
    [ intros H; eexists; split; [ exact H | constructor ] | ].
  destruct (resp_Tag r) as [tag|];
    [ | intros H; eexists; split; [ exact H | constructor ] ].
  destruct (at_tag (txns s) tag) as [p|];
    [ | intros H; eexists; split; [ exact H | constructor ] ].
  cbn. intros Hq. destruct (decide (p = q)) as [->|Hne].
  - rewrite lookup_alter_eq in Hq.
    destruct (heap s !! q) as [t|]; [ | discriminate ].
    injection Hq as <-. exists t. split; [ reflexivity | ].
    apply evolves_answer, evolves_refl.
  - rewrite lookup_alter_ne in Hq by exact Hne.
    exists t'. split; [ assumption | constructor ].
Qed.

Lemma mux_step_evolves (s : sys) (ev : event) q t' :
  heap (mux_step s ev) !! q = Some t' ->
  exists t, heap s !! q = Some t /\ evolves t t'.
Proof.
  assert (Hturn : forall t1, heap (select_turn s ev).1 !! q = Some t1 ->
                    exists t, heap s !! q = Some t /\ evolves t t1).
  { unfold Mux.select_turn. destruct (enabled s ev);
      [ | intros t1 H; exists t1; split; [ exact H | constructor ] ].
    destruct ev as [p|buf|e|]; cbn [fst].
    - intros t1. apply on_send_evolves.
    - intros t1. apply on_msg_evolves.
    - intros t1 H; exists t1; split; [ exact H | constructor ].
    - intros t1 H; exists t1; split; [ exact H | constructor ]. }
  unfold Mux.mux_step. destruct (select_turn s ev) as [s1 [e|]];
    cbn [fst] in Hturn; [ | apply Hturn ].
  intros Hq. apply teardown_evolves in Hq as (t1 & H1 & He1).
  apply Hturn in H1 as (t & Ht & He). exists t. split; [ exact Ht | ].
  eapply evolves_trans; eassumption.
Qed.

Lemma run_evolves (s : sys) (tr : list action) q t' :
  heap (run s tr) !! q = Some t' ->
  exists t, heap s !! q = Some t /\ evolves t t'.
Proof.
  revert s t'. induction tr as [|a tr IH]; intros s t' Hq.
  - exists t'. split; [ exact Hq | constructor ].
  - cbn [Mux.run fold_left] in Hq. apply IH in Hq as (t1 & H1 & He1).
    destruct a as [|ev]; cbn [Mux.act] in H1.
    + rewrite (proj1 (proj2 (proj2 (Close_frame s)))) in H1.
      exists t1. split; assumption.
    + apply mux_step_evolves in H1 as (t & Ht & He).
      exists t. split; [ exact Ht | eapply evolves_trans; eassumption ].
Qed.

(** *** No caller is left behind *)

(** One turn of the [select] on a goroutine that is at it: the
    transaction at [p], settled or in the table before or submitted in
    this turn, is settled or in the table after it. *)
Lemma select_turn_covers (s : sys) (ev : event) (p : ptr) (t : txn) :
  pc s = Running -> heap s !! p = Some t ->
  t_done t = true \/ (exists k, txns s !! k = Some (Some p)) \/ ev = Send p ->
  let s1 := (select_turn s ev).1 in
  ((select_turn s ev).2 = None /\ (pc s1 = Crashed \/ pc s1 = Spinning)) \/
  (pc s1 = Running /\
   exists t1, heap s1 !! p = Some t1 /\
     (t_done t1 = true \/ exists k, txns s1 !! k = Some (Some p))).
Proof.
  intros Hrun Hp Hpre. cbn zeta.
  assert (Hold : ev <> Send p ->
            pc s = Running /\
            exists t1, heap s !! p = Some t1 /\
              (t_done t1 = true \/ exists k, txns s !! k = Some (Some p))).
  { intros Hne. split; [ exact Hrun | ]. exists t. split; [ exact Hp | ].
    destruct Hpre as [H|[H|H]]; [ auto | auto | contradiction ]. }
  unfold Mux.select_turn. destruct (enabled s ev) eqn:Hen.
  2:{ right. apply Hold. intros ->. unfold enabled in Hen.
      rewrite Hrun in Hen. discriminate. }
  destruct ev as [q|buf|e|]; cbn [fst snd].
  - destruct (find_unused (size (txns s)) (txns s) (n s)) as [k'|] eqn:Hk.
    2:{ left. unfold Mux.on_send. rewrite Hk. cbn. auto. }
    pose proof (find_unused_free _ _ _ _ Hk) as Hfree.
    destruct (heap s !! q) as [tq|] eqn:Hq.
    2:{ left. unfold Mux.on_send. rewrite Hk. cbn -[stamp write].
        rewrite Hq. cbn. auto. }
    assert (Hkeep : forall k, txns s !! k = Some (Some p) -> k <> k').
    { intros k Hkp ->. unfold at_tag in Hfree. now rewrite Hkp in Hfree. }
    right.
    destruct (on_send_cases s q k' tq Hk Hq)
      as [(e & _ & ->)|(buf & _ & ->)]; cbn [fst pc heap txns];
      (split; [ exact Hrun | ]).
    + destruct (decide (q = p)) as [->|Hne].
      * rewrite lookup_insert_eq. eexists. split; [ reflexivity | ].
        left. reflexivity.
      * rewrite !lookup_insert_ne by exact Hne. exists t.
        split; [ exact Hp | ].
        destruct Hpre as [H|[[k H]|H]]; [ auto | | congruence ].
        right. exists k. now rewrite !lookup_insert_ne by (symmetry; auto).
    + destruct (decide (q = p)) as [->|Hne].
      * rewrite lookup_insert_eq. eexists. split; [ reflexivity | ].
        right. exists k'. apply lookup_insert_eq.
      * rewrite lookup_insert_ne by exact Hne. exists t.
        split; [ exact Hp | ].
        destruct Hpre as [H|[[k H]|H]]; [ auto | | congruence ].
        right. exists k. now rewrite lookup_insert_ne by (symmetry; auto).
  - right. specialize (Hold ltac:(discriminate)).
    destruct Hold as (_ & t1 & Ht1 & Hin).
    unfold Mux.on_msg. destruct (Unmarshal buf) as [e|r]; [ eauto | ].
    destruct (resp_Tag r) as [tag|]; [ | eauto ].
    destruct (at_tag (txns s) tag) as [p'|] eqn:Htag; [ | eauto ].
    cbn [pc heap txns set_heap set_table]. split; [ exact Hrun | ].
    destruct (decide (p' = p)) as [->|Hne].
    + rewrite lookup_alter_eq, Ht1. eexists. split; [ reflexivity | ].
      left. reflexivity.
    + rewrite lookup_alter_ne by exact Hne. exists t1.
      split; [ exact Ht1 | ]. destruct Hin as [H|[k H]]; [ auto | ].
      right. exists k. rewrite lookup_delete_ne; [ exact H | ].
      intros ->. unfold at_tag in Htag. rewrite H in Htag. congruence.
  - right. apply Hold. discriminate.
  - right. destruct (Hold ltac:(discriminate)) as (_ & t1 & Ht1 & Hin).
    cbn [pc heap txns set_stop]. eauto.
Qed.

Lemma mux_step_covers (s : sys) (ev : event) (p : ptr) :
  covered s p \/ (ev = Send p /\ pc s = Running /\ is_Some (heap s !! p)) ->
  covered (mux_step s ev) p.
Proof.
  intros Hpre.
  destruct (pc s) eqn:Hpc.
  2,3,4: rewrite mux_step_not_running by congruence;
    destruct Hpre as [H|(_ & H & _)]; [ exact H | congruence ].
  assert (Hin : exists t, heap s !! p = Some t /\
            (t_done t = true \/ (exists k, txns s !! k = Some (Some p)) \/
             ev = Send p)).
  { destruct Hpre as [[H|[H|(t & Ht & Hd)]]|(-> & _ & [t Ht])];
      try congruence.
    - exists t. split; [ exact Ht | ]. destruct Hd as [Hd|[_ Hd]]; auto.
    - exists t. auto. }
  destruct Hin as (t & Ht & Hd).
  pose proof (select_turn_covers s ev p t Hpc Ht Hd) as Hturn.
  cbn zeta in Hturn. unfold Mux.mux_step.
  destruct (select_turn s ev) as [s1 [e|]]; cbn [fst snd] in Hturn.
  - destruct Hturn as [[Hno _]|(Hr1 & t1 & Ht1 & Hd1)]; [ discriminate | ].
    destruct (teardown_settles s1 e p t1 Ht1 Hd1)
      as [Hc|(_ & t' & Ht' & Hd')]; [ left; exact Hc | ].
    right. right. exists t'. auto.
  - destruct Hturn as [[_ [Hc|Hsp]]|(Hr1 & t1 & Ht1 & Hd1)];
      [ left; exact Hc | right; left; exact Hsp | ].
    right. right. exists t1. split; [ exact Ht1 | ].
    destruct Hd1 as [Hd1|Hd1]; auto.
Qed.

Lemma run_covers (s : sys) (tr : list action) (p : ptr) :
  covered s p -> covered (run s tr) p.
Proof.
  revert s. induction tr as [|a tr IH]; intros s Hc; [ exact Hc | ].
  cbn [Mux.run fold_left]. apply IH. destruct a as [|ev]; cbn [Mux.act].
  - destruct (Close_frame s) as (Ht & _ & Hh & _ & _ & _ & Hp & _).
    unfold covered, in_hand in *. rewrite Hp, Hh, Ht. exact Hc.
  - apply mux_step_covers. now left.
Qed.

(** The multiplexer never drops a transaction from the memory. *)
Lemma mux_step_keeps_txn (s : sys) (ev : event) (q : ptr) :
  is_Some (heap s !! q) -> is_Some (heap (mux_step s ev) !! q).
Proof.
  intros Hq.
  assert (Hturn : is_Some (heap (select_turn s ev).1 !! q)).
  { unfold Mux.select_turn. destruct (enabled s ev); [ | exact Hq ].
    destruct ev as [p|buf|e|]; cbn [fst]; try exact Hq.
    - unfold Mux.on_send.
      destruct (find_unused _ _ _) as [k|]; [ | exact Hq ].
      cbn -[stamp write]. destruct (heap s !! p) as [t|] eqn:Hp;
        [ | exact Hq ].
      destruct (Marshal _) as [e|b].
      + cbn -[stamp]. destruct (decide (p = q)) as [->|Hne].
        * rewrite lookup_insert_eq. eauto.
        * now rewrite !lookup_insert_ne by exact Hne.
      + destruct (write _ _) as [[e|] c']; cbn -[stamp];
          (destruct (decide (p = q)) as [->|Hne];
           [ rewrite lookup_insert_eq; eauto
           | now rewrite lookup_insert_ne by exact Hne ]).
    - unfold Mux.on_msg. destruct (Unmarshal buf) as [e|r]; [ exact Hq | ].
      destruct (resp_Tag r); [ | exact Hq ].
      destruct (at_tag _ _) as [p|]; [ | exact Hq ].
      cbn. destruct (decide (p = q)) as [->|Hne].
      + rewrite lookup_alter_eq. destruct Hq as [t ->]. cbn. eauto.
      + now rewrite lookup_alter_ne by exact Hne. }
  unfold Mux.mux_step. destruct (select_turn s ev) as [s1 [e|]];
    cbn [fst] in Hturn; [ | exact Hturn ].
  destruct Hturn as [t Ht].
  destruct (teardown_frame s1 e) as (_ & _ & _ & _ & _ & Hh).
  destruct (Hh q) as [H|H]; rewrite H, Ht; cbn; eauto.
Qed.

Lemma run_keeps_txn (s : sys) (tr : list action) (q : ptr) :
  is_Some (heap s !! q) -> is_Some (heap (run s tr) !! q).
Proof.
  revert s. induction tr as [|a tr IH]; intros s Hq; [ exact Hq | ].
  cbn [Mux.run fold_left]. apply IH. destruct a as [|ev]; cbn [Mux.act].
  - now rewrite (proj1 (proj2 (proj2 (Close_frame s)))).
  - now apply mux_step_keeps_txn.
Qed.


End WithCodec.

Lemma tag_is_first_free_from_counter_witness :
  let s := Sample.exec Sample.start
             [ActMux (Send 0%nat); ActMux (Send 1%nat);
              ActMux (Msg (PutUint32 0))] in
  exists d : nat,
    let k := int32 (n s + Z.of_nat d) in
    tag_of (Mux.mux_step Sample.Marshal Sample.Unmarshal s (Send 2%nat)) 2%nat
      = Some k /\
    n (Mux.mux_step Sample.Marshal Sample.Unmarshal s (Send 2%nat)) = k /\
    at_tag (txns s) k = None /\
    (forall i : nat, (i < d)%nat ->
       at_tag (txns s) (int32 (n s + Z.of_nat i)) <> None) /\
    (at_tag (txns s) (n s) = None -> k = n s).
Proof.
  intros s.
  apply (tag_is_first_free_from_counter Sample.Marshal Sample.Unmarshal
           s 2%nat 0).
  - vm_compute. reflexivity.
  - vm_compute. split; [ discriminate | reflexivity ].
  - vm_compute. eauto.
  - vm_compute. repeat split; discriminate.
Defined.


(** C1 as stated fails: with tags 0 and 1 given out and tag 0 freed by its
    response, the next submission is given tag 2, although 0 is the lowest
    tag absent from the table. *)
Lemma assigns_lowest_counterexample :
  ~ assigns_lowest Sample.Marshal Sample.Unmarshal
      (Sample.exec Sample.start
         [ActMux (Send 0%nat); ActMux (Send 1%nat);
          ActMux (Msg (PutUint32 0))])
      2%nat.
Proof.
  intros (k & Htag & Hk0 & Habs & Hlow).
  vm_compute in Htag. injection Htag as <-.
  apply (Hlow 0); [ lia | ]. vm_compute. reflexivity.
Qed.

Lemma close_broadcast_witness :
  let tr1 := [ActMux (Send 0%nat); ActMux (Send 3%nat); ActClose; ActClose] in
  let s' := Sample.exec Sample.start (tr1 ++ [ActMux Stop]) in
  Mux.teardowns Sample.Marshal Sample.Unmarshal Sample.start
    (tr1 ++ [ActMux Stop]) = 1%nat /\
  c_err s' = Some ErrClosed /\ pc s' = Crashed /\
  c_stopped s' = false /\ closed (c_conn s') = false /\
  (Mux.call Sample.Marshal Sample.Unmarshal s' 1%nat CaseStopped []).1
    = None /\
  (Mux.call Sample.Marshal Sample.Unmarshal s' 1%nat CaseSend []).1 = None.
Proof.
  intros tr1 s'.
  destruct (close_broadcast Sample.Marshal Sample.Unmarshal Sample.start 3
              tr1 [] [])
    as (_ & _ & _ & Hone & _ & Herr & _ & _ & Hnil).
  - vm_compute. lia.
  - lia.
  - simpl. auto.
  - vm_compute. reflexivity.
  - destruct (Hnil 1) as (Hpc & Hst & Hcl & Hcall);
      [ vm_compute; reflexivity | ].
    split; [ exact Hone | ]. split; [ exact Herr | ].
    split; [ exact Hpc | ]. split; [ exact Hst | ]. split; [ exact Hcl | ].
    split; apply Hcall; reflexivity.
Defined.


(** C3 at its failing input: the connection was just dialled and the
    transaction at address 3 carries a request that does not encode.  The
    caller is unblocked with the encoding error and the goroutine goes on,
    but tag 0 is still a key of the table, bound to nil: the entry was set
    to nil where the response path deletes it. *)
Theorem encode_failure_keeps_tag :
  let s' := Sample.step Sample.start (Send 3%nat) in
  txns s' !! 0 = Some None /\ 0 ∈ dom (txns s') /\
  heap s' !! 3%nat
    = Some (fail_txn (ECodec "verb not set") (stamp 0 txn_zero)) /\
  pc s' = Running /\ c_stopped s' = false /\ closed (c_conn s') = false.
Proof.
  cbn zeta.
  assert (H : txns (Sample.step Sample.start (Send 3%nat)) !! 0 = Some None)
    by (vm_compute; reflexivity).
  split; [ exact H | ]. split; [ apply elem_of_dom; rewrite H; eauto | ].
  repeat split; vm_compute; reflexivity.
Qed.

(** The tag itself does not leak: the next submission overwrites the nil
    entry and is given the same tag. *)
Example encode_failure_tag_reused :
  let s' := Sample.exec Sample.start
              [ActMux (Send 3%nat); ActMux (Send 0%nat)] in
  tag_of s' 3%nat = Some 0 /\ tag_of s' 0%nat = Some 0 /\
  txns s' !! 0 = Some (Some 0%nat).
Proof. vm_compute. repeat split; reflexivity. Qed.

(** C2 at its failing input: one transaction is outstanding, another was
    failed for an encoding error, then the connection is closed.  The
    broadcast records [ErrClosed] and panics on the nil entry the encoding
    failure left in the table: the stream is not closed and [c.stopped] is
    not closed, so no branch of a later [call] is ready. *)
Theorem broadcast_panics_on_nil_entry :
  let s' := Sample.exec Sample.start
              [ActMux (Send 0%nat); ActMux (Send 3%nat); ActClose;
               ActMux Stop] in
  c_err s' = Some ErrClosed /\ pc s' = Crashed /\ c_stopped s' = false /\
  closed (c_conn s') = false /\
  ready s' CaseStopped = false /\ ready s' CaseSend = false.
Proof. vm_compute. repeat split; reflexivity. Qed.

(** The same close on a table without nil entries, for comparison: the
    outstanding transaction is failed with [ErrClosed] and the connection
    is shut down. *)
Example broadcast_on_clean_table :
  let s' := Sample.exec Sample.start
              [ActMux (Send 0%nat); ActClose; ActMux Stop] in
  c_err s' = Some ErrClosed /\ pc s' = Exited /\ c_stopped s' = true /\
  closed (c_conn s') = true /\
  (t_err <$> heap s' !! 0%nat) = Some (Some ErrClosed) /\
  (t_done <$> heap s' !! 0%nat) = Some true.
Proof. vm_compute. repeat split; reflexivity. Qed.

End MuxFacts.

(** ** The client operations *)

Lemma int32_int z : int32 (int z) = int32 z.
Proof.
  unfold int32, int, wrap.
  change (2 ^ (32 - 1)) with 2147483648. change (2 ^ 32) with 4294967296.
  change (2 ^ (64 - 1)) with 9223372036854775808.
  change (2 ^ 64) with 18446744073709551616.
  Z.div_mod_to_equations. lia.
Qed.

Lemma int_id z : in_int z -> int z = z.
Proof.
  unfold in_int, int, wrap.
  change (2 ^ (64 - 1)) with 9223372036854775808.
  change (2 ^ 64) with 18446744073709551616.
  change (2 ^ 63) with 9223372036854775808.
  intros H. Z.div_mod_to_equations. lia.
Qed.

Module ClientFacts.
Import Frame Mux Client.

(** Unfolds the monad of the calling task down to its matches. *)
Ltac unfold_M :=
  repeat (progress (unfold mbind, mret, Client.M_bind, Client.M_ret,
                      Client.deref, Client.crash, Client.spin;
                    cbn beta iota)).

Section WithWorld.

Variable World NetConn : Type.
Variable transact : Conn NetConn -> txn -> World -> observed * World.

#[local] Abbreviation Conn := (Client.Conn NetConn).
#[local] Abbreviation call := (Client.call World NetConn transact).
#[local] Abbreviation paginate := (@Client.paginate World NetConn transact).
#[local] Abbreviation Getdir_loop := (Client.Getdir_loop World NetConn transact).
#[local] Abbreviation Getdir := (Client.Getdir World NetConn transact).
#[local] Abbreviation Walk_loop := (Client.Walk_loop World NetConn transact).
#[local] Abbreviation Walk := (Client.Walk World NetConn transact).
#[local] Abbreviation server_answers := (Client.server_answers World NetConn transact).
#[local] Abbreviation out_of_range := (Client.out_of_range World NetConn transact).
#[local] Abbreviation call_fails := (Client.call_fails World NetConn transact).
#[local] Abbreviation listing := (@Client.listing World NetConn transact).
#[local] Abbreviation ends_with := (Client.ends_with World NetConn transact).

(** *** The two loops are instances of one *)

Lemma Getdir_loop_paginate fuel (c : Conn) dir rev off lim acc w :
  Getdir_loop fuel c dir rev off lim acc w
  = paginate (getdir_txn dir rev) resp_Path fuel c off lim acc w.
Proof.
  revert off lim acc w. induction fuel as [|fuel IH]; intros off lim acc w;
    cbn [Client.Getdir_loop Client.paginate];
    destruct (lim =? 0); try reflexivity.
  unfold mbind, Client.M_bind.
  destruct (call c (getdir_txn dir rev off) w) as [[err t] w'| |];
    try reflexivity.
  destruct (is_Error_with ErrRange err); [ reflexivity | ].
  destruct err; [ reflexivity | ].
  destruct (t_resp t) as [r|]; cbn; [ | reflexivity ].
  destruct (resp_Path r); cbn; [ apply IH | reflexivity ].
Qed.

Lemma Walk_loop_paginate fuel (c : Conn) glob rev off lim acc w :
  Walk_loop fuel c glob rev off lim acc w
  = paginate (walk_txn glob rev) event_of fuel c off lim acc w.
Proof.
  revert off lim acc w. induction fuel as [|fuel IH]; intros off lim acc w;
    cbn [Client.Walk_loop Client.paginate];
    destruct (lim =? 0); try reflexivity.
  unfold mbind, Client.M_bind.
  destruct (call c (walk_txn glob rev off) w) as [[err t] w'| |];
    try reflexivity.
  destruct (is_Error_with ErrRange err); [ reflexivity | ].
  destruct err; [ reflexivity | ].
  destruct (t_resp t) as [r|]; cbn; [ | reflexivity ].
  unfold event_of.
  destruct (resp_Rev r); cbn; [ | reflexivity ].
  destruct (resp_Path r); cbn; [ | reflexivity ].
  destruct (resp_Flags r); cbn; [ apply IH | reflexivity ].
Qed.

(** *** What [call] makes of the server's answers *)

Lemma call_answered (c : Conn) t r w :
  server_answers c t r -> resp_ErrCode r = None ->
  exists t' w', call c t w = Val (None, t') w' /\ t_resp t' = Some r.
Proof.
  intros Hs Hc. destruct (Hs w) as (t' & w' & Htr & He & Hr).
  exists t', w'. unfold Client.call, after_done.
  now rewrite Htr, He, Hr, Hc.
Qed.

Lemma call_out_of_range (c : Conn) t w :
  out_of_range c t ->
  exists e t' w', call c t w = Val (Some e, t') w' /\
    is_Error_with ErrRange (Some e) = true.
Proof.
  intros (r & Hs & Hc). destruct (Hs w) as (t' & w' & Htr & He & Hr).
  exists (EError (newError t' r ErrRange)), t', w'.
  unfold Client.call, after_done. now rewrite Htr, He, Hr, Hc.
Qed.

(** *** The pagination loop *)

Section Paginate.

Context {A : Type}.
Variable mk : Z -> txn.
Variable extract : response -> option A.
Variable c : Conn.

(** The request depends on the position through its [int32] value only. *)
Hypothesis mk_int32 : forall a b, int32 a = int32 b -> mk a = mk b.

Lemma listing_tail off (x : A) items :
  listing c mk extract off (x :: items) ->
  listing c mk extract (off + 1) items.
Proof.
  intros H i y Hy. destruct (H (S i) y Hy) as (r & Hr).
  exists r. now replace (off + 1 + Z.of_nat i) with (off + Z.of_nat (S i)) by lia.
Qed.

Lemma listing_take off items k :
  listing c mk extract off items ->
  listing c mk extract off (take k items).
Proof.
  intros H i y Hy. apply H. apply lookup_take_Some in Hy. tauto.
Qed.

(** While items are left and [lim] does not reach zero, every turn reads
    one item. *)
Lemma paginate_items items : forall off off' lim acc fuel w,
  listing c mk extract off items ->
  int32 off' = int32 off ->
  in_int lim -> in_int (lim - Z.of_nat (length items)) ->
  (lim < 0 \/ Z.of_nat (length items) <= lim) ->
  exists w' off'',
    int32 off'' = int32 (off + Z.of_nat (length items)) /\
    paginate mk extract (length items + fuel) c off' lim acc w
    = paginate mk extract fuel c off'' (lim - Z.of_nat (length items))
        (acc ++ items) w'.
Proof.
  induction items as [|x items IH]; intros off off' lim acc fuel w
    Hl Ho Hlim Hlim' Hsign.
  - exists w, off'. cbn [length]. rewrite Z.add_0_r, Z.sub_0_r, app_nil_r.
    auto.
  - cbn [length] in *. cbn [Nat.add Client.paginate].
    destruct (Z.eqb_spec lim 0) as [->|_]; [ lia | ].
    destruct (Hl 0%nat x eq_refl) as (r & Hr & Hc & Hx).
    rewrite Z.add_0_r in Hr.
    destruct (call_answered c _ r w Hr Hc) as (t' & w1 & Hcall & Hresp).
    unfold mbind at 1, Client.M_bind at 1.
    rewrite (mk_int32 off' off Ho), Hcall. cbn [is_Error_with].
    rewrite Hresp. unfold_M. rewrite Hx. unfold_M.
    assert (Hi : int (lim - 1) = lim - 1).
    { apply int_id. unfold in_int in *. lia. }
    rewrite Hi.
    destruct (IH (off + 1) (int (off' + 1)) (lim - 1) (acc ++ [x]) fuel w1)
      as (w' & off'' & Ho'' & Heq).
    + exact (listing_tail off x items Hl).
    + rewrite int32_int, <- int32_add_l, Ho, int32_add_l. reflexivity.
    + unfold in_int in *. lia.
    + unfold in_int in *. lia.
    + lia.
    + exists w', off''. split.
      * rewrite Ho''. f_equal. lia.
      * rewrite Heq. rewrite <- app_assoc. cbn [app].
        now replace (lim - 1 - Z.of_nat (length items))
          with (lim - Z.of_nat (S (length items))) by lia.
Qed.

Lemma paginate_zero fuel off acc w :
  paginate mk extract fuel c off 0 acc w = Val (acc, None) w.
Proof. destruct fuel; reflexivity. Qed.

Lemma paginate_end fuel off off' lim acc w fin :
  int32 off' = int32 off -> lim <> 0 ->
  ends_with c (mk off) fin ->
  exists w',
    paginate mk extract (S fuel) c off' lim acc w
    = Val (match fin with
           | EndRange => (acc, None)
           | EndError e => ([], Some e)
           end) w'.
Proof.
  intros Ho Hlim Hfin. cbn [Client.paginate].
  destruct (Z.eqb_spec lim 0) as [|_]; [ contradiction | ].
  unfold mbind, Client.M_bind. rewrite (mk_int32 off' off Ho).
  destruct fin as [|e]; cbn [ends_with Client.ends_with] in Hfin.
  - destruct (call_out_of_range c _ w Hfin) as (e & t' & w' & -> & ->).
    eauto.
  - destruct Hfin as [Hf Hne]. destruct (Hf w) as (t' & w' & ->).
    rewrite Hne. eauto.
Qed.

(** A listing and its end cannot overlap: it is shorter than [2 ^ 32]. *)
Lemma listing_short off items fin (w : World) :
  listing c mk extract off items ->
  ends_with c (mk (off + Z.of_nat (length items))) fin ->
  Z.of_nat (length items) < 2 ^ 32.
Proof.
  intros Hl Hfin.
  destruct (Z.lt_ge_cases (Z.of_nat (length items)) (2 ^ 32)) as [|Hbig];
    [ assumption | exfalso ].
  set (i := Z.to_nat (Z.of_nat (length items) - 2 ^ 32)).
  destruct (lookup_lt_is_Some_2 items i) as [x Hx]; [ unfold i; lia | ].
  destruct (Hl i x Hx) as (r & Hr & Hc & _).
  assert (Hmk : mk (off + Z.of_nat i) = mk (off + Z.of_nat (length items))).
  { apply mk_int32. unfold i. rewrite Z2Nat.id by lia.
    unfold int32, wrap.
    change (2 ^ (32 - 1)) with 2147483648.
    change (2 ^ 32) with 4294967296 in *.
    Z.div_mod_to_equations. lia. }
  rewrite Hmk in Hr.
  destruct (call_answered c _ r w Hr Hc) as (t' & w' & Hcall & _).
  destruct fin as [|e]; cbn [Client.ends_with] in Hfin.
  - destruct (call_out_of_range c _ w Hfin) as (e & t2 & w2 & Hcall2 & _).
    congruence.
  - destruct Hfin as [Hf _]. destruct (Hf w) as (t2 & w2 & Hcall2).
    congruence.
Qed.

(** The loop on a listing: with [lim = -1] it reads the listing to its
    end; with [0 <= lim] it stops after [lim] items when the listing has
    that many, and reads to the end otherwise. *)
Lemma paginate_listing off lim items fin w fuel :
  listing c mk extract off items ->
  ends_with c (mk (off + Z.of_nat (length items))) fin ->
  lim = -1 \/ 0 <= lim < 2 ^ 63 ->
  (length items < fuel)%nat ->
  exists w',
    paginate mk extract fuel c off lim [] w
    = Val (if (0 <=? lim) && (lim <=? Z.of_nat (length items))
           then (take (Z.to_nat lim) items, None)
           else read_to_end items fin) w'.
Proof.
  intros Hl Hfin Hlim Hfuel.
  pose proof (listing_short off items fin w Hl Hfin) as Hshort.
  change (2 ^ 32) with 4294967296 in Hshort.
  change (2 ^ 63) with 9223372036854775808 in Hlim.
  destruct (Z.leb_spec 0 lim) as [Hpos|Hneg]; cbn [andb].
  - destruct Hlim as [->|Hlim]; [ lia | ].
    destruct (Z.leb_spec lim (Z.of_nat (length items))) as [Hle|Hgt].
    + (* the limit is reached first *)
      set (k := Z.to_nat lim).
      assert (Hk : length (take k items) = k)
        by (rewrite length_take; unfold k; lia).
      destruct (paginate_items (take k items) off off lim []
                  (fuel - k) w) as (w' & off'' & _ & Heq).
      * now apply listing_take.
      * reflexivity.
      * unfold in_int. change (2 ^ 63) with 9223372036854775808. lia.
      * unfold in_int. change (2 ^ 63) with 9223372036854775808. lia.
      * right. rewrite Hk. unfold k. lia.
      * rewrite Hk in Heq.
        replace (k + (fuel - k))%nat with fuel in Heq by (unfold k; lia).
        rewrite Heq. replace (lim - Z.of_nat k) with 0 by (unfold k; lia).
        rewrite paginate_zero. eauto.
    + (* the listing ends first *)
      destruct (paginate_items items off off lim []
                  (fuel - length items) w) as (w' & off'' & Ho & Heq);
        try reflexivity; try (unfold in_int;
          change (2 ^ 63) with 9223372036854775808; lia); try lia; auto.
      replace (length items + (fuel - length items))%nat with fuel in Heq
        by lia.
      rewrite Heq.
      destruct (fuel - length items)%nat as [|f] eqn:Hf; [ lia | ].
      destruct (paginate_end f _ off'' (lim - Z.of_nat (length items))
                  ([] ++ items) w' fin Ho ltac:(lia) Hfin)
        as (w'' & ->).
      exists w''. destruct fin; reflexivity.
  - destruct Hlim as [->|Hlim]; [ | lia ].
    destruct (paginate_items items off off (-1) []
                (fuel - length items) w) as (w' & off'' & Ho & Heq);
      try reflexivity; try (unfold in_int;
        change (2 ^ 63) with 9223372036854775808; lia); try lia; auto.
    replace (length items + (fuel - length items))%nat with fuel in Heq
      by lia.
    rewrite Heq.
    destruct (fuel - length items)%nat as [|f] eqn:Hf; [ lia | ].
    destruct (paginate_end f _ off'' (-1 - Z.of_nat (length items))
                ([] ++ items) w' fin Ho ltac:(lia) Hfin)
      as (w'' & ->).
    exists w''. destruct fin; reflexivity.
Qed.

(** An error the loop returns is never the out-of-range error, and comes
    with no items. *)
Lemma paginate_error fuel : forall off lim acc w xs e w',
  paginate mk extract fuel c off lim acc w = Val (xs, Some e) w' ->
  xs = [] /\ is_Error_with ErrRange (Some e) = false.
Proof.
  induction fuel as [|fuel IH]; intros off lim acc w xs e w';
    cbn [Client.paginate]; destruct (lim =? 0); try discriminate.
  unfold mbind, Client.M_bind.
  destruct (call c (mk off) w) as [[err t] w1| |]; try discriminate.
  destruct (is_Error_with ErrRange err) eqn:Hr; [ discriminate | ].
  destruct err as [e'|].
  - intros [= <- <- <-]. auto.
  - destruct (t_resp t) as [r|]; unfold_M; [ | discriminate ].
    destruct (extract r); unfold_M; [ apply IH | discriminate ].
Qed.

(** With [0 <= lim] the loop ends within [lim] turns and returns at most
    [lim] items, whatever the server does. *)
Lemma paginate_bounded fuel : forall off lim acc w,
  0 <= lim < 2 ^ 63 -> (Z.to_nat lim <= fuel)%nat ->
  paginate mk extract fuel c off lim acc w <> Spin /\
  forall xs err w',
    paginate mk extract fuel c off lim acc w = Val (xs, err) w' ->
    Z.of_nat (length xs) <= Z.of_nat (length acc) + lim.
Proof.
  change (2 ^ 63) with 9223372036854775808.
  induction fuel as [|fuel IH]; intros off lim acc w Hlim Hfuel;
    cbn [Client.paginate]; destruct (Z.eqb_spec lim 0) as [->|Hne].
  - split; [ discriminate | ]. intros xs err w' [= <- <- <-]. lia.
  - lia.
  - split; [ discriminate | ]. intros xs err w' [= <- <- <-]. lia.
  - unfold mbind, Client.M_bind.
    destruct (call c (mk off) w) as [[err t] w1| |] eqn:Hcall.
    + destruct (is_Error_with ErrRange err).
      { split; [ discriminate | ]. intros xs err' w' [= <- <- <-]. lia. }
      destruct err as [e'|].
      { split; [ discriminate | ]. intros xs err' w' [= <- <- <-].
        cbn. lia. }
      destruct (t_resp t) as [r|]; unfold_M;
        [ | split; [ discriminate | discriminate ] ].
      destruct (extract r) as [x|]; unfold_M;
        [ | split; [ discriminate | discriminate ] ].
      assert (Hi : int (lim - 1) = lim - 1).
      { apply int_id. unfold in_int.
        change (2 ^ 63) with 9223372036854775808. lia. }
      rewrite Hi.
      destruct (IH (int (off + 1)) (lim - 1) (acc ++ [x]) w1
                  ltac:(lia) ltac:(lia)) as [Hns Hlen].
      split; [ exact Hns | ]. intros xs err w' Hv.
      apply Hlen in Hv. rewrite length_app in Hv. cbn in Hv. lia.
    + split; [ discriminate | discriminate ].
    + exfalso. unfold Client.call in Hcall.
      destruct (transact c (mk off) w) as [[cerr|t'] w1];
        [ discriminate | ].
      destruct (after_done t'); discriminate.
Qed.

(** Every item the loop returns was read off a response that a [call]
    came back with. *)
Lemma paginate_received fuel : forall off lim acc w xs w',
  paginate mk extract fuel c off lim acc w = Val (xs, None) w' ->
  exists items, xs = acc ++ items /\
    Forall (fun x => exists r, received World NetConn transact c mk r /\
                               extract r = Some x) items.
Proof.
  induction fuel as [|fuel IH]; intros off lim acc w xs w';
    cbn [Client.paginate]; destruct (lim =? 0);
    try discriminate;
    try (intros [= <- <-]; exists []; rewrite app_nil_r; split;
         [ reflexivity | constructor ]).
  unfold mbind, Client.M_bind.
  destruct (call c (mk off) w) as [[err t] w1| |] eqn:Hcall;
    try discriminate.
  destruct (is_Error_with ErrRange err).
  { intros [= <- <-]. exists []. rewrite app_nil_r. split;
      [ reflexivity | constructor ]. }
  destruct err as [e|]; [ discriminate | ].
  destruct (t_resp t) as [r|] eqn:Hr; unfold_M; [ | discriminate ].
  destruct (extract r) as [x|] eqn:Hx; unfold_M; [ | discriminate ].
  intros Hv. apply IH in Hv as (items & -> & Hall).
  exists (x :: items). rewrite <- app_assoc. split; [ reflexivity | ].
  constructor; [ | exact Hall ].
  exists r. split; [ | exact Hx ]. exists off, w, t, w1. auto.
Qed.

End Paginate.

Lemma getdir_txn_int32 dir rev a b :
  int32 a = int32 b -> getdir_txn dir rev a = getdir_txn dir rev b.
Proof. unfold getdir_txn. now intros ->. Qed.

Lemma walk_txn_int32 glob rev a b :
  int32 a = int32 b -> walk_txn glob rev a = walk_txn glob rev b.
Proof. unfold walk_txn. now intros ->. Qed.


(** *** Event flags *)

Variable set del : Z.

#[local] Abbreviation Wait := (Client.Wait World NetConn transact set del).

Lemma land_subset flags i :
  Z.testbit (Z.land flags (Z.lor set del)) i = true ->
  Z.testbit flags i = true /\
  (Z.testbit set i = true \/ Z.testbit del i = true).
Proof.
  rewrite Z.land_spec, Z.lor_spec.
  destruct (Z.testbit flags i), (Z.testbit set i), (Z.testbit del i);
    cbn; intuition congruence.
Qed.

(** C10.  The event of a successful [Wait] carries the flags of the
    response masked with [set | del]: every bit of its [Flag] is a bit of
    the response and a bit of [set] or of [del].  The events of a
    successful [Walk] carry the flags of the responses as they came: each
    returned event was built by [event_of] from a received response, whose
    [Flags], whatever bits they hold, are the event's [Flag]; and whatever
    flags the server puts on the response for a position, a [Walk] for
    that one position returns them unchanged. *)
Theorem wait_masks_walk_copies (c : Conn) (glob : string) (rev : Z) :
  (forall (w w1 : World) (ev : Event),
     Wait c glob rev w = Val (ev, None) w1 ->
     exists t r flags,
       call c (wait_txn glob rev) w = Val (None, t) w1 /\
       t_resp t = Some r /\ resp_Flags r = Some flags /\
       ev_Flag ev = Z.land flags (Z.lor set del) /\
       Z.land (ev_Flag ev) (Z.lor set del) = ev_Flag ev /\
       forall i, Z.testbit (ev_Flag ev) i = true ->
         Z.testbit flags i = true /\
         (Z.testbit set i = true \/ Z.testbit del i = true)) /\
  (forall (fuel : nat) (off lim : Z) (w w2 : World) (evs : list Event),
     Walk fuel c glob rev off lim w = Val (evs, None) w2 ->
     Forall (fun e => exists r,
               received World NetConn transact c (walk_txn glob rev) r /\
               event_of r = Some e /\ resp_Flags r = Some (ev_Flag e)) evs) /\
  (forall (fuel : nat) (off : Z) (w : World) (r : response) (e : Event),
     server_answers c (walk_txn glob rev off) r ->
     resp_ErrCode r = None -> event_of r = Some e ->
     resp_Flags r = Some (ev_Flag e) /\
     exists w', Walk (S fuel) c glob rev off 1 w = Val ([e], None) w').
Proof.
  split; [ | split ].
  - intros w w1 ev Hwait.
    revert Hwait. unfold Client.Wait. unfold mbind at 1, Client.M_bind at 1.
    destruct (call c (wait_txn glob rev) w) as [[err t] w'| |];
      try discriminate.
    destruct err as [e|]; [ discriminate | ].
    destruct (t_resp t) as [r|] eqn:Hr; unfold_M; [ | discriminate ].
    destruct (resp_Rev r) as [erev|]; unfold_M; [ | discriminate ].
    destruct (resp_Path r) as [path|]; unfold_M; [ | discriminate ].
    destruct (resp_Flags r) as [flags|] eqn:Hfl; unfold_M;
      [ | discriminate ].
    intros [= <- <-]. exists t, r, flags. cbn [ev_Flag].
    repeat split; auto.
    + rewrite <- Z.land_assoc, Z.land_diag. reflexivity.
    + now apply land_subset in H.
    + now apply land_subset in H.
  - intros fuel off lim w w2 evs Hwalk.
    unfold Client.Walk in Hwalk. rewrite Walk_loop_paginate in Hwalk.
    apply paginate_received in Hwalk as (items & -> & Hall).
    cbn [app]. eapply Forall_impl; [ exact Hall | ].
    intros e (r & Hrec & Hev). exists r. repeat split; auto.
    unfold event_of in Hev.
    destruct (resp_Rev r), (resp_Path r), (resp_Flags r); try discriminate.
    now injection Hev as <-.
  - intros fuel off w r e Hans Hcode Hev. split.
    + unfold event_of in Hev.
      destruct (resp_Rev r), (resp_Path r), (resp_Flags r); try discriminate.
      now injection Hev as <-.
    + destruct (call_answered c _ r w Hans Hcode) as (t' & w' & Hcall & Hr).
      exists w'. unfold Client.Walk. cbn [Client.Walk_loop].
      change (1 =? 0) with false. cbn iota.
      unfold mbind at 1, Client.M_bind at 1. rewrite Hcall.
      cbn [is_Error_with]. cbn iota. rewrite Hr. unfold_M.
      unfold event_of in Hev.
      destruct (resp_Rev r), (resp_Path r), (resp_Flags r); try discriminate.
      injection Hev as <-. unfold_M.
      change (int (1 - 1)) with 0. destruct fuel; reflexivity.
Qed.


(** *** Directory metadata *)

Variable missing dir : Z.
Variable basename : string -> string.

#[local] Abbreviation Statinfo :=
  (Client.Statinfo World NetConn transact missing dir basename).
#[local] Abbreviation Getdirinfo_loop :=
  (Client.Getdirinfo_loop World NetConn transact missing dir basename).
#[local] Abbreviation Getdirinfo :=
  (Client.Getdirinfo World NetConn transact missing dir basename).

(** A child whose [Statinfo] fails keeps its slot, with the name filled in,
    and the failure becomes the pending result [err] of [Getdirinfo]. *)
Lemma Getdirinfo_loop_failure (c : Conn) rev dir_ i name rest a err0 e w w1 :
  Statinfo c rev (dir_ +:+ name) w = Val (None, Some e) w1 ->
  Getdirinfo_loop c rev dir_ i (name :: rest) a err0 w
  = Getdirinfo_loop c rev dir_ (S i) rest (alter (name_only name) i a)
      (Some e) w1.
Proof.
  intros Hs. cbn [Client.Getdirinfo_loop].
  unfold mbind at 1, Client.M_bind at 1. now rewrite Hs.
Qed.

(** A child whose [Statinfo] succeeds clears the pending result. *)
Lemma Getdirinfo_loop_success (c : Conn) rev dir_ i name rest a err0 f w w1 :
  Statinfo c rev (dir_ +:+ name) w = Val (Some f, None) w1 ->
  Getdirinfo_loop c rev dir_ i (name :: rest) a err0 w
  = Getdirinfo_loop c rev dir_ (S i) rest (<[i := f]> a) None w1.
Proof.
  intros Hs. cbn [Client.Getdirinfo_loop].
  unfold mbind at 1, Client.M_bind at 1. rewrite Hs. now unfold_M.
Qed.

(** The error of the last child is what [Getdirinfo] returns, beside the
    listing. *)
Lemma Getdirinfo_loop_last (c : Conn) rev dir_ i name a err0 e w w1 :
  Statinfo c rev (dir_ +:+ name) w = Val (None, Some e) w1 ->
  Getdirinfo_loop c rev dir_ i [name] a err0 w
  = Val (alter (name_only name) i a, Some e) w1.
Proof.
  intros Hs. now rewrite (Getdirinfo_loop_failure c rev dir_ i name [] a
                            err0 e w w1 Hs).
Qed.

(** *** Cluster lookup and dialling *)

Variable net_dial : string -> World -> (error + NetConn) * World.
Variable conn_Close : Conn -> World -> World.
Variable rand_Int : World -> Z * World.
Variable ParseQuery : string -> error + gmap string (list string).

#[local] Abbreviation lookup := (Client.lookup World NetConn transact).
#[local] Abbreviation Rev_ := (Client.Rev_ World NetConn transact).
#[local] Abbreviation dialUri_connect :=
  (Client.dialUri_connect World NetConn transact net_dial conn_Close rand_Int).
#[local] Abbreviation dialUri :=
  (Client.dialUri World NetConn transact net_dial conn_Close rand_Int
     ParseQuery).

(** A cluster directory that the bootstrap server does not have gives an
    empty address list and no error. *)
Lemma lookup_not_found fuel (b : Conn) name rev names e w w1 w2 :
  Rev_ b w = Val (rev, None) w1 ->
  Getdir fuel b ("/ctl/ns/" +:+ name) rev 0 (-1) w1
    = Val (names, Some e) w2 ->
  is_Error_with ErrNoEnt (Some e) = true ->
  lookup fuel b name w = Val ([], None) w2.
Proof.
  intros Hrev Hdir Hne. unfold Client.lookup.
  unfold mbind at 1, Client.M_bind at 1. rewrite Hrev.
  unfold mbind at 1, Client.M_bind at 1. rewrite Hdir, Hne. reflexivity.
Qed.

(** The choice of an address out of none divides by zero. *)
Lemma dialUri_connect_no_address p w : dialUri_connect p [] w = Crash.
Proof.
  unfold Client.dialUri_connect, Client.rand.
  unfold mbind at 1, Client.M_bind at 1.
  destruct (rand_Int w) as [z w']. reflexivity.
Qed.

(** [dialUri] with a cluster name whose lookup finds no address panics. *)
Lemma dialUri_no_address depth fuel uri buri p name name0 rest b w w1 w2 :
  String.prefix uriPrefix uri = true ->
  ParseQuery (String.substring (String.length uriPrefix)
                (String.length uri - String.length uriPrefix) uri) = inr p ->
  p !! "cn" = Some name -> name = name0 :: rest ->
  String.eqb buri "" = false ->
  dialUri depth fuel buri "" w = Val (Some b, None) w1 ->
  lookup fuel b name0 w1 = Val ([], None) w2 ->
  dialUri (S depth) fuel uri buri w = Crash.
Proof.
  intros Hpre Hq Hcn -> Hb Hboot Hlook. cbn [Client.dialUri].
  rewrite Hpre, Hq, Hcn, Hb. cbn [negb].
  unfold mbind at 1, Client.M_bind at 1. rewrite Hboot.
  unfold_M. unfold Client.index. change (0 <? 0) with false.
  change (Z.to_nat 0) with 0%nat.
  change ((name0 :: rest) !! 0%nat) with (Some name0). unfold_M.
  rewrite Hlook. apply dialUri_connect_no_address.
Qed.

(** The recursive call of [dialUri] passes an empty [buri] and so does not
    recur again: a depth of two is all [dialUri] ever uses. *)
Lemma dialUri_depth_one d fuel uri w :
  dialUri (S d) fuel uri "" w = dialUri 1 fuel uri "" w.
Proof.
  cbn [Client.dialUri]. destruct (negb (String.prefix uriPrefix uri));
    [ reflexivity | ].
  destruct (ParseQuery _) as [e|p]; [ reflexivity | ].
  destruct (p !! "cn"); reflexivity.
Qed.

Lemma dialUri_depth_two d fuel uri buri w :
  dialUri (S (S d)) fuel uri buri w = dialUri 2 fuel uri buri w.
Proof.
  cbn [Client.dialUri]. change (negb ("" =? "")%string) with false.
  reflexivity.
Qed.

End WithWorld.

(** *** The sample world *)

Lemma demo_answers (c : Client.Conn unit) (t : txn) :
  Client.server_answers unit unit Demo.transact c t (Demo.reply (t_req t)).
Proof. intros w. eexists _, _. repeat split. Qed.


Lemma wait_masks_walk_copies_witness :
  let ev := mkEvent 8 "/d/a" [] 12 in
  let evs := [mkEvent 5 "/d/a" [] 255; mkEvent 5 "/d/b" [] 255] in
  Client.Wait unit unit Demo.transact Demo.set Demo.del Demo.c0 "/d/*" 7 tt
    = Val (ev, None) tt /\
  Client.Walk unit unit Demo.transact 3 Demo.c0 "/d/*" 7 0 (-1) tt
    = Val (evs, None) tt /\
  Z.land (ev_Flag ev) (Z.lor Demo.set Demo.del) = ev_Flag ev /\
  Forall (fun e => exists r,
            Client.received unit unit Demo.transact Demo.c0
              (walk_txn "/d/*" 7) r /\
            event_of r = Some e /\ resp_Flags r = Some (ev_Flag e)) evs.
Proof.
  intros ev evs.
  assert (Hwait : Client.Wait unit unit Demo.transact Demo.set Demo.del
                    Demo.c0 "/d/*" 7 tt = Val (ev, None) tt)
    by (vm_compute; reflexivity).
  assert (Hwalk : Client.Walk unit unit Demo.transact 3 Demo.c0 "/d/*" 7 0
                    (-1) tt = Val (evs, None) tt)
    by (vm_compute; reflexivity).
  destruct (wait_masks_walk_copies unit unit Demo.transact Demo.set Demo.del
              Demo.c0 "/d/*" 7) as (Hw & Hall & _).
  destruct (Hw tt tt ev Hwait) as (t & r & flags & _ & _ & _ & _ & Hsub & _).
  pose proof (Hall 3%nat 0 (-1) tt tt evs Hwalk) as Hevs.
  repeat split; assumption.
Defined.

(** C5 at its failing input: the listing of [/d] cut after its first
    child, [a], whose [Stat] the server answers with "no such entry".  The
    entry for [a] is there, name only, but [Getdirinfo] returns the error of
    that last [Statinfo] beside it: the named result [err] still holds it
    when the function returns.  Over the whole directory the failure of [a]
    is overwritten by the success of [b] and no error is returned. *)
Theorem Getdirinfo_returns_last_stat_error :
  (exists e,
     Client.Getdirinfo unit unit Demo.transact Demo.missing Demo.dir
       Demo.basename 3 Demo.c0 "/d" 7 0 1 tt
     = Val ([mkFileInfo "a" 0 0 false false], Some e) tt /\
     is_Error_with ErrNoEnt (Some e) = true) /\
  Client.Getdirinfo unit unit Demo.transact Demo.missing Demo.dir
    Demo.basename 3 Demo.c0 "/d" 7 0 (-1) tt
  = Val ([mkFileInfo "a" 0 0 false false; mkFileInfo "b" 3 5 true false],
         None) tt.
Proof.
  split; [ | vm_compute; reflexivity ].
  eexists. split; vm_compute; reflexivity.
Qed.

(** C4 at its failing input: a URI with the cluster name [foo] and a
    bootstrap server that has no directory [/ctl/ns/foo].  The lookup gives
    the empty address list and no error, and [dialUri] then evaluates
    [rand.Int() % len(addrs)] with [len(addrs) = 0]: it panics. *)
Theorem dialUri_divides_by_zero :
  Client.lookup unit unit Demo.transact 3 Demo.c0 "foo" tt
    = Val ([], None) tt /\
  Client.dialUri unit unit Demo.transact Demo.net_dial Demo.conn_Close
    Demo.rand_Int Demo.ParseQuery 2 3 "doozer:?cn=foo"
    "doozer:?ca=10.0.0.1:8046" tt
  = Crash.
Proof. split; vm_compute; reflexivity. Qed.

End ClientFacts.

(** * Part III: the rest of [conn.go] *)

(** ** Frames on the stream *)

Module FrameMore.
Import Frame FrameFacts.

Lemma PutUint32_length v : length (PutUint32 v) = 4%nat.
Proof. reflexivity. Qed.

(** [read] on a stream that starts with the frame of [buf]. *)
Lemma read_frame (c : netconn) (buf rest : list byte) :
  Z.of_nat (length buf) < 2 ^ 31 ->
  closed c = false ->
  rd c = frame buf ++ rest ->
  read c = (Ok buf, mkNetconn rest (rd_end c) (wr c) (wr_faults c) false).
Proof.
  intros Hlen Hopen Hrd. unfold read, frame in *.
  change (2 ^ 31) with 2147483648 in Hlen.
  assert (Hmod : Z.of_nat (length buf) mod 2 ^ 32 = Z.of_nat (length buf)).
  { apply Z.mod_small. change (2 ^ 32) with 4294967296. lia. }
  rewrite Hmod in Hrd.
  set (hdr := PutUint32 (Z.of_nat (length buf))) in *.
  assert (H4 : ReadFull c 4
               = (Ok hdr, mkNetconn (buf ++ rest) (rd_end c) (wr c)
                            (wr_faults c) false)).
  { unfold ReadFull. rewrite Hopen, Hrd.
    rewrite <- app_assoc. cbn [length app hdr PutUint32].
    cbn [Nat.leb take drop]. reflexivity. }
  rewrite H4.
  assert (Hsz : int32 (Uint32 hdr) = Z.of_nat (length buf)).
  { unfold hdr. rewrite Uint32_PutUint32, Hmod. apply int32_small.
    change (2 ^ 31) with 2147483648. lia. }
  rewrite Hsz. destruct (Z.ltb_spec (Z.of_nat (length buf)) 0); [ lia | ].
  rewrite Nat2Z.id. unfold ReadFull. cbn [closed rd rd_end wr wr_faults].
  destruct (length buf) as [|m] eqn:Hm.
  - destruct buf; [ reflexivity | discriminate ].
  - rewrite <- Hm.
    destruct (Nat.leb_spec (length buf) (length (buf ++ rest))) as [_|Hbad];
      [ | rewrite length_app in Hbad; lia ].
    rewrite take_app_length, drop_app_length. reflexivity.
Qed.

(** X1.  What [write] puts on the stream, [read] takes off it: reading a
    stream that delivers the bytes of a successful [write] of [buf],
    shorter than [2 ^ 31] bytes, returns [buf] and leaves what follows. *)
Theorem write_read_round_trip (cw cw' cr : netconn) (buf rest : list byte)
    (Hlen : Z.of_nat (length buf) < 2 ^ 31)
    (Hw : write cw buf = (None, cw'))
    (Hopen : closed cr = false)
    (Hrd : rd cr = drop (length (wr cw)) (wr cw') ++ rest) :
  read cr = (Ok buf, mkNetconn rest (rd_end cr) (wr cr) (wr_faults cr) false).
Proof.
  apply read_frame; try assumption.
  rewrite Hrd, (write_emits cw buf cw' Hw), drop_app_length. reflexivity.
Qed.

Lemma write_read_round_trip_witness :
  let cw := mkNetconn [] EndEOF [Byte.x07] [] false in
  let buf := [Byte.x61; Byte.x62; Byte.x63] in
  let rest := [Byte.x00; Byte.x00] in
  let cr := mkNetconn (frame buf ++ rest) EndEOF [] [] false in
  read cr = (Ok buf, mkNetconn rest EndEOF [] [] false).
Proof.
  intros cw buf rest cr.
  apply (write_read_round_trip cw (write cw buf).2 cr buf rest).
  - vm_compute. reflexivity.
  - vm_compute. reflexivity.
  - reflexivity.
  - vm_compute. reflexivity.
Defined.

End FrameMore.

(** ** The multiplexer: submission, delivery and what a turn leaves alone *)

Module MuxMore.
Import Frame FrameFacts Mux MuxFacts.

Lemma Write_rd (c : netconn) (b : list byte) : rd (Write c b).2 = rd c.
Proof.
  unfold Write. destruct (closed c); [ reflexivity | ].
  destruct (wr_faults c) as [|[e|] rest]; reflexivity.
Qed.

Lemma Write_wr_grows (c : netconn) (b : list byte) :
  exists suffix, wr (Write c b).2 = wr c ++ suffix.
Proof.
  unfold Write. destruct (closed c); [ exists []; now rewrite app_nil_r | ].
  destruct (wr_faults c) as [|[e|] rest]; cbn;
    try (exists b; reflexivity); exists []; now rewrite app_nil_r.
Qed.

Lemma write_rd (c : netconn) (buf : list byte) : rd (write c buf).2 = rd c.
Proof.
  unfold write. destruct (Write c _) as [[e|] c1] eqn:H1.
  - cbn. pose proof (Write_rd c (PutUint32
              (uint32 (int32 (Z.of_nat (length buf)))))) as H.
    now rewrite H1 in H.
  - rewrite Write_rd.
    pose proof (Write_rd c (PutUint32
              (uint32 (int32 (Z.of_nat (length buf)))))) as H.
    now rewrite H1 in H.
Qed.

Lemma write_wr_grows (c : netconn) (buf : list byte) :
  exists suffix, wr (write c buf).2 = wr c ++ suffix.
Proof.
  unfold write. destruct (Write c _) as [[e|] c1] eqn:H1.
  - cbn. destruct (Write_wr_grows c (PutUint32
              (uint32 (int32 (Z.of_nat (length buf)))))) as [x Hx].
    rewrite H1 in Hx. eauto.
  - destruct (Write_wr_grows c (PutUint32
              (uint32 (int32 (Z.of_nat (length buf)))))) as [x Hx].
    rewrite H1 in Hx. cbn in Hx.
    destruct (Write_wr_grows c1 buf) as [y Hy].
    exists (x ++ y). now rewrite Hy, Hx, app_assoc.
Qed.

Lemma dom_fail_all e entries (h : gmap ptr txn) :
  dom (fail_all e entries h).1 = dom h.
Proof.
  revert h. induction entries as [|[k [p|]] rest IH]; intros h; cbn;
    try reflexivity.
  rewrite IH. apply dom_alter_L.
Qed.

Lemma teardown_heap_dom (s : sys) (e : error) :
  dom (heap (teardown s e)) = dom (heap s).
Proof.
  unfold teardown. cbn.
  pose proof (dom_fail_all e (map_to_list (txns s)) (heap s)) as H.
  destruct (fail_all e _ _) as [h [|]]; cbn in *; exact H.
Qed.

Lemma teardown_conn (s : sys) (e : error) :
  rd (c_conn (teardown s e)) = rd (c_conn s) /\
  wr (c_conn (teardown s e)) = wr (c_conn s).
Proof.
  unfold teardown. cbn. destruct (fail_all e _ _) as [h [|]]; cbn; auto.
Qed.

Section WithCodec.

Variable Marshal : request -> error + list byte.
Variable Unmarshal : list byte -> error + response.

#[local] Abbreviation on_send := (Mux.on_send Marshal).
#[local] Abbreviation on_msg := (Mux.on_msg Unmarshal).
#[local] Abbreviation select_turn := (Mux.select_turn Marshal Unmarshal).
#[local] Abbreviation mux_step := (Mux.mux_step Marshal Unmarshal).
#[local] Abbreviation act := (Mux.act Marshal Unmarshal).
#[local] Abbreviation run := (Mux.run Marshal Unmarshal).
#[local] Abbreviation call := (Mux.call Marshal Unmarshal).
#[local] Abbreviation submits_fresh := (Mux.submits_fresh Marshal Unmarshal).

(** X4.  A request and its response make a round trip through the
    multiplexer.  When the goroutine takes the submission, finds the tag
    [k], encodes and writes the request, and the next frame decodes to a
    response tagged [k], the blocked [call] returns with that response on
    its transaction (nil if the response carries no error code), the tag
    is free again, the counter rests on [k], and no other transaction has
    changed. *)
Theorem call_round_trip (s : sys) (p : ptr) (k : Z) (t : txn)
    (buf reply : list byte) (r : response) (c' : netconn)
    (Hrun : pc s = Running)
    (Hk : find_unused (size (txns s)) (txns s) (n s) = Some k)
    (Hp : heap s !! p = Some t) (Hnoerr : t_err t = None)
    (Henc : Marshal (t_req (stamp k (make_done t))) = inr buf)
    (Hwr : write (c_conn s) buf = (None, c'))
    (Hdec : Unmarshal reply = inr r) (Htag : resp_Tag r = Some k) :
  let t' := answer r (stamp k (make_done t)) in
  let res := call s p CaseSend [ActMux (Msg reply)] in
  res.1 = Some (after_done t') /\
  (resp_ErrCode r = None -> res.1 = Some (Ok tt)) /\
  heap res.2 !! p = Some t' /\
  txns res.2 = delete k (txns s) /\ n res.2 = k /\
  c_conn res.2 = c' /\ pc res.2 = Running /\ c_err res.2 = c_err s /\
  (forall q, q <> p -> heap res.2 !! q = heap s !! q).
Proof.
  intros t' res.
  set (s0 := set_heap s (alter make_done p (heap s))).
  assert (Hp0 : heap s0 !! p = Some (make_done t))
    by (cbn; now rewrite lookup_alter_eq, Hp).
  assert (Hstep : mux_step s0 (Send p)
                  = mkSys (<[k := Some p]> (txns s)) k
                      (<[p := stamp k (make_done t)]> (heap s0)) c'
                      (c_err s) (c_stop s) (c_stopped s) Running).
  { unfold Mux.mux_step, Mux.select_turn, enabled. cbn [pc s0 set_heap].
    rewrite Hrun.
    destruct (on_send_cases Marshal s0 p k (make_done t) Hk Hp0)
      as [(e & He & _)|(b & Hb & ->)]; [ congruence | ].
    assert (b = buf) as -> by congruence.
    cbn [c_conn s0 set_heap]. rewrite Hwr. cbn. now rewrite Hrun. }
  assert (Halt : alter (answer r) p
                   (<[p := stamp k (make_done t)]> (heap s0))
                 = <[p := t']> (heap s0)).
  { apply map_eq. intros q. destruct (decide (p = q)) as [->|Hne].
    - now rewrite lookup_alter_eq, !lookup_insert_eq.
    - now rewrite lookup_alter_ne, !lookup_insert_ne. }
  assert (Hmsg : mux_step (mux_step s0 (Send p)) (Msg reply)
                 = mkSys (delete k (txns s)) k (<[p := t']> (heap s0)) c'
                     (c_err s) (c_stop s) (c_stopped s) Running).
  { rewrite Hstep. unfold Mux.mux_step, Mux.select_turn, enabled. cbn [pc].
    unfold Mux.on_msg. rewrite Hdec, Htag. unfold at_tag. cbn [txns].
    rewrite lookup_insert_eq. cbn [set_table set_heap heap txns n c_conn
      c_err c_stop c_stopped pc fst snd].
    now rewrite delete_insert_eq, Halt. }
  assert (Hfin : res = (Some (after_done t'),
                  mkSys (delete k (txns s)) k
                    (<[p := t']> (heap s0)) c'
                    (c_err s) (c_stop s) (c_stopped s) Running)).
  { unfold res, Mux.call. fold s0. unfold ready. cbn [pc s0 set_heap].
    rewrite Hrun. cbn [Mux.run fold_left Mux.act]. rewrite Hmsg.
    cbn [heap]. rewrite lookup_insert_eq. reflexivity. }
  rewrite Hfin. cbn [fst snd txns n heap c_conn pc c_err].
  repeat split; auto.
  - intros Hc. unfold after_done, t'. cbn. now rewrite Hnoerr, Hc.
  - apply lookup_insert_eq.
  - intros q Hq. rewrite lookup_insert_ne by congruence.
    unfold s0. cbn. now rewrite lookup_alter_ne by congruence.
Qed.

(** X5.  A frame from the reader never ends the connection and completes
    at most the one transaction that is filed under the tag it carries: the
    turn leaves the goroutine where it was, the stream, the recorded error,
    the stop signals and the counter as they were; it adds nothing to the
    table and removes at most that tag; and a transaction it changes is
    the one in the table under the response's tag, which gets the response
    and its [done]. *)
Theorem delivery_is_local (s : sys) (buf : list byte) :
  let s' := mux_step s (Msg buf) in
  pc s' = pc s /\ c_conn s' = c_conn s /\ c_err s' = c_err s /\
  c_stop s' = c_stop s /\ c_stopped s' = c_stopped s /\ n s' = n s /\
  (forall j, txns s' !! j = txns s !! j \/
             (txns s' !! j = None /\ exists r, Unmarshal buf = inr r /\
                                               resp_Tag r = Some j)) /\
  (forall q, heap s' !! q = heap s !! q \/
             exists r k t, Unmarshal buf = inr r /\ resp_Tag r = Some k /\
               txns s !! k = Some (Some q) /\ heap s !! q = Some t /\
               heap s' !! q = Some (answer r t) /\
               txns s' !! k = None).
Proof.
  unfold Mux.mux_step, Mux.select_turn. destruct (enabled s (Msg buf));
    cbn [fst snd]; [ | repeat split; auto ].
  unfold Mux.on_msg. destruct (Unmarshal buf) as [e|r] eqn:Hdec;
    [ repeat split; auto | ].
  destruct (resp_Tag r) as [k|] eqn:Htag; [ | repeat split; auto ].
  unfold at_tag. destruct (txns s !! k) as [[p|]|] eqn:Hk;
    try (repeat split; auto; fail).
  cbn. repeat split; auto.
  - intros j. destruct (decide (k = j)) as [<-|Hne].
    + right. rewrite lookup_delete_eq. eauto.
    + left. now rewrite lookup_delete_ne.
  - intros q. destruct (decide (p = q)) as [<-|Hne].
    + destruct (heap s !! p) as [t|] eqn:Hp.
      * right. exists r, k, t. rewrite lookup_alter_eq, Hp, lookup_delete_eq.
        auto 10.
      * left. now rewrite lookup_alter_eq, Hp.
    + left. now rewrite lookup_alter_ne.
Qed.

(** *** What no turn does *)

Lemma on_send_heap_dom (s : sys) (p : ptr) :
  dom (heap (on_send s p).1) = dom (heap s).
Proof.
  unfold Mux.on_send. destruct (find_unused _ _ _) as [k|]; [ | reflexivity ].
  cbn -[stamp write]. destruct (heap s !! p) as [t|] eqn:Hp;
    [ | reflexivity ].
  assert (Hin : is_Some (heap s !! p)) by eauto.
  destruct (Marshal _) as [e|b].
  - cbn -[stamp]. rewrite dom_insert_lookup_L.
    + now apply dom_insert_lookup_L.
    + rewrite lookup_insert_eq. eauto.
  - destruct (write _ _) as [[e|] c']; cbn -[stamp];
      now apply dom_insert_lookup_L.
Qed.

Lemma on_send_conn (s : sys) (p : ptr) :
  rd (c_conn (on_send s p).1) = rd (c_conn s) /\
  exists suffix, wr (c_conn (on_send s p).1) = wr (c_conn s) ++ suffix.
Proof.
  assert (Hsame : rd (c_conn s) = rd (c_conn s) /\
            exists suffix, wr (c_conn s) = wr (c_conn s) ++ suffix).
  { split; [ reflexivity | exists []; now rewrite app_nil_r ]. }
  unfold Mux.on_send. destruct (find_unused _ _ _) as [k|]; [ | exact Hsame ].
  cbn -[stamp write]. destruct (heap s !! p) as [t|]; [ | exact Hsame ].
  destruct (Marshal _) as [e|b]; [ exact Hsame | ].
  pose proof (write_rd (c_conn s) b) as Hrd.
  pose proof (write_wr_grows (c_conn s) b) as Hwr.
  destruct (write (c_conn s) b) as [[e|] c']; cbn in *; auto.
Qed.

Lemma act_leaves_alone (s : sys) (a : action) :
  dom (heap (act s a)) = dom (heap s) /\
  rd (c_conn (act s a)) = rd (c_conn s) /\
  (exists suffix, wr (c_conn (act s a)) = wr (c_conn s) ++ suffix) /\
  ((forall p, a <> ActMux (Send p)) ->
   wr (c_conn (act s a)) = wr (c_conn s)).
Proof.
  assert (Hnil : exists suffix, wr (c_conn s) = wr (c_conn s) ++ suffix)
    by (exists []; now rewrite app_nil_r).
  destruct a as [|ev]; cbn [Mux.act].
  - destruct (Close_frame s) as (_ & _ & -> & -> & _). auto.
  - assert (Hturn :
      dom (heap (select_turn s ev).1) = dom (heap s) /\
      rd (c_conn (select_turn s ev).1) = rd (c_conn s) /\
      (exists suffix,
         wr (c_conn (select_turn s ev).1) = wr (c_conn s) ++ suffix) /\
      ((forall p, ActMux ev <> ActMux (Send p)) ->
       wr (c_conn (select_turn s ev).1) = wr (c_conn s))).
    { unfold Mux.select_turn. destruct (enabled s ev); [ | cbn; auto ].
      destruct ev as [p|buf|e|]; cbn [fst]; auto.
      - split; [ apply on_send_heap_dom | ].
        destruct (on_send_conn s p) as [Hrd Hwr].
        repeat split; auto. intros H. now contradiction (H p).
      - unfold Mux.on_msg. destruct (Unmarshal buf) as [e|r]; auto.
        destruct (resp_Tag r); auto. destruct (at_tag _ _); cbn; auto.
        split; [ apply dom_alter_L | auto ]. }
    unfold Mux.mux_step. destruct (select_turn s ev) as [s1 [e|]];
      cbn [fst] in Hturn; [ | exact Hturn ].
    destruct Hturn as (Hd & Hrd & Hwr & Hsame).
    destruct (teardown_conn s1 e) as [Hr' Hw'].
    rewrite teardown_heap_dom, Hr', Hw'. auto.
Qed.

(** X6.  The multiplexer neither makes nor drops transactions, never reads
    from the stream, never takes back what it wrote, and writes only when
    it takes a submission: along any trace the set of transactions is the
    same, the bytes still to be read are the same, the bytes written so far
    stay a prefix of what is written, and a trace without a submission
    writes nothing. *)
Theorem mux_leaves_alone (s : sys) (tr : list action) :
  dom (heap (run s tr)) = dom (heap s) /\
  rd (c_conn (run s tr)) = rd (c_conn s) /\
  (exists suffix, wr (c_conn (run s tr)) = wr (c_conn s) ++ suffix) /\
  ((forall p, ~ In (ActMux (Send p)) tr) ->
   wr (c_conn (run s tr)) = wr (c_conn s)).
Proof.
  revert s. induction tr as [|a tr IH]; intros s.
  - cbn. repeat split; auto. exists []. now rewrite app_nil_r.
  - cbn [Mux.run fold_left]. fold (run (act s a) tr).
    destruct (IH (act s a)) as (Hd & Hrd & [x Hx] & Hsame).
    destruct (act_leaves_alone s a) as (Hd1 & Hrd1 & [y Hy] & Hsame1).
    split; [ congruence | ]. split; [ congruence | ]. split.
    + exists (y ++ x). now rewrite Hx, Hy, app_assoc.
    + intros Hno. rewrite Hsame, Hsame1; auto.
      * intros p ->. apply (Hno p). now left.
      * intros p Hin. apply (Hno p). now right.
Qed.

(** *** Tags and the transactions filed under them *)

Lemma tag_of_teardown (s : sys) (e : error) q :
  tag_of (teardown s e) q = tag_of s q.
Proof.
  destruct (teardown_frame s e) as (_ & _ & _ & _ & _ & Hh).
  unfold tag_of. destruct (Hh q) as [-> | ->]; [ reflexivity | ].
  now destruct (heap s !! q).
Qed.

Lemma tags_match_teardown (s : sys) (e : error) :
  tags_match s -> tags_match (teardown s e).
Proof.
  intros Hinv k p Hk. rewrite tag_of_teardown. apply Hinv.
  now rewrite <- (proj1 (proj2 (teardown_frame s e))).
Qed.

Lemma tags_match_on_send (s : sys) (p : ptr) :
  tags_match s -> is_Some (heap s !! p) ->
  (forall k, txns s !! k <> Some (Some p)) ->
  tags_match (on_send s p).1.
Proof.
  intros Hinv [t Hp] Hfresh.
  destruct (find_unused (size (txns s)) (txns s) (n s)) as [k|] eqn:Hk;
    [ | unfold Mux.on_send; rewrite Hk; exact Hinv ].
  destruct (on_send_cases Marshal s p k t Hk Hp)
    as [(e & _ & ->)|(buf & _ & ->)]; cbn [fst]; intros j q Hj;
    cbn [txns] in Hj; unfold tag_of; cbn [heap].
  - destruct (decide (k = j)) as [->|Hne];
      [ rewrite lookup_insert_eq in Hj; discriminate | ].
    rewrite !lookup_insert_ne in Hj by exact Hne.
    assert (p <> q) by (intros ->; now apply (Hfresh j)).
    rewrite !lookup_insert_ne by assumption. now apply Hinv.
  - destruct (decide (k = j)) as [->|Hne].
    + rewrite lookup_insert_eq in Hj. injection Hj as <-.
      rewrite lookup_insert_eq. reflexivity.
    + rewrite lookup_insert_ne in Hj by exact Hne.
      assert (p <> q) by (intros ->; now apply (Hfresh j)).
      rewrite lookup_insert_ne by assumption. now apply Hinv.
Qed.

Lemma tags_match_on_msg (s : sys) (buf : list byte) :
  tags_match s -> tags_match (on_msg s buf).
Proof.
  intros Hinv. unfold Mux.on_msg.
  destruct (Unmarshal buf) as [e|r]; [ exact Hinv | ].
  destruct (resp_Tag r) as [tag|]; [ | exact Hinv ].
  destruct (at_tag (txns s) tag) as [p|]; [ | exact Hinv ].
  intros j q Hj. cbn in Hj.
  destruct (decide (tag = j)) as [->|Hne];
    [ rewrite lookup_delete_eq in Hj; discriminate | ].
  rewrite lookup_delete_ne in Hj by exact Hne.
  specialize (Hinv j q Hj). unfold tag_of in *. cbn.
  destruct (decide (p = q)) as [->|Hpq].
  - rewrite lookup_alter_eq. now destruct (heap s !! q).
  - now rewrite lookup_alter_ne.
Qed.

Lemma tags_match_act (s : sys) (a : action) :
  tags_match s -> submits_fresh s [a] -> tags_match (act s a).
Proof.
  intros Hinv [Hfresh _]. destruct a as [|ev]; cbn [Mux.act].
  - intros k p. unfold tag_of.
    destruct (Close_frame s) as (-> & _ & -> & _). apply Hinv.
  - assert (Hturn : tags_match (select_turn s ev).1).
    { unfold Mux.select_turn. destruct (enabled s ev); [ | exact Hinv ].
      destruct ev as [p|buf|e|]; cbn [fst]; try exact Hinv.
      - destruct Hfresh as [Hp Hf]. now apply tags_match_on_send.
      - now apply tags_match_on_msg. }
    unfold Mux.mux_step. destruct (select_turn s ev) as [s1 [e|]];
      cbn [fst] in Hturn; [ now apply tags_match_teardown | exact Hturn ].
Qed.

(** X7.  Every transaction in the table carries, in its request, the tag
    it is filed under, and so no transaction is filed under two tags: this
    holds of a state, such as the one [dial] leaves, in which it holds, and
    after any trace from it in which a transaction is submitted only while
    the table does not hold it. *)
Theorem tags_stay_matched (s : sys) (tr : list action)
    (Hinv : tags_match s) (Hfresh : submits_fresh s tr) :
  tags_match (run s tr) /\
  forall j k p, txns (run s tr) !! j = Some (Some p) ->
                txns (run s tr) !! k = Some (Some p) -> j = k.
Proof.
  assert (Hrun : tags_match (run s tr)).
  { revert s Hinv Hfresh. induction tr as [|a tr IH]; intros s Hinv Hfresh;
      [ exact Hinv | ].
    cbn [Mux.run fold_left]. destruct Hfresh as [Ha Hrest].
    apply IH; [ | exact Hrest ].
    apply tags_match_act; [ exact Hinv | split; [ exact Ha | exact I ] ]. }
  split; [ exact Hrun | ]. intros j k p Hj Hk.
  apply Hrun in Hj, Hk. congruence.
Qed.

(** *** A write that fails *)

(** X8.  A submission whose frame cannot be written ends the connection
    with the write error, and the caller that submitted it gets that error
    like every other: on a table without nil entries the transaction just
    filed is failed with the write error, as are all that were outstanding,
    the stream and [c.stopped] are closed, and the blocked [call]
    returns the write error. *)
Theorem write_failure_fails_all (s : sys) (p : ptr) (k : Z) (t : txn)
    (buf : list byte) (e : error) (c' : netconn)
    (Hrun : pc s = Running)
    (Hk : find_unused (size (txns s)) (txns s) (n s) = Some k)
    (Hp : heap s !! p = Some t)
    (Henc : Marshal (t_req (stamp k t)) = inr buf)
    (Hwr : write (c_conn s) buf = (Some e, c'))
    (Hnf : nil_free (txns s))
    (Hfresh : forall j, txns s !! j <> Some (Some p)) :
  let s' := mux_step s (Send p) in
  c_err s' = Some e /\ pc s' = Exited /\ c_stopped s' = true /\
  closed (c_conn s') = true /\
  heap s' !! p = Some (fail_txn e (stamp k t)) /\
  after_done (fail_txn e (stamp k t)) = Fail e /\
  (forall j q tq, txns s !! j = Some (Some q) -> heap s !! q = Some tq ->
     heap s' !! q = Some (fail_txn e tq)).
Proof.
  cbn zeta. unfold Mux.mux_step, Mux.select_turn, enabled. rewrite Hrun.
  destruct (on_send_cases Marshal s p k t Hk Hp)
    as [(e' & He' & _)|(b & Hb & ->)]; [ congruence | ].
  assert (b = buf) as -> by congruence. rewrite Hwr. cbn [fst snd].
  match goal with |- context [teardown ?x e] => set (s2 := x) end.
  assert (Hnf2 : nil_free (txns s2)).
  { intros j. cbn. rewrite lookup_insert.
    destruct (decide (k = j)); [ discriminate | apply Hnf ]. }
  destruct (teardown_broadcast s2 e Hnf2)
    as (Herr & Hpc & Hst & Hcl & _ & _ & _ & Hfail & _).
  repeat split; auto.
  - apply (Hfail k p); cbn; apply lookup_insert_eq.
  - intros j q tq Hj Hq.
    assert (p <> q) by (intros ->; now apply (Hfresh j)).
    assert (k <> j).
    { intros ->. apply find_unused_free in Hk. unfold at_tag in Hk.
      rewrite Hj in Hk. discriminate. }
    apply (Hfail j q); cbn.
    + now rewrite lookup_insert_ne.
    + now rewrite lookup_insert_ne.
Qed.

(** *** A codec that always encodes *)

(** X9.  With a codec that encodes every request the table never holds a
    nil entry, and so the broadcast always runs to its end: whatever trace
    led there, a turn that jumps to [error:] records the error, fails every
    transaction in the table with it, closes the stream and [c.stopped]
    and ends the goroutine. *)
Theorem broadcast_completes (s s1 : sys) (tr : list action) (ev : event)
    (e : error)
    (Henc : forall r, exists buf, Marshal r = inr buf)
    (Hnf : nil_free (txns s))
    (Hturn : select_turn (run s tr) ev = (s1, Some e)) :
  let s' := mux_step (run s tr) ev in
  nil_free (txns (run s tr)) /\
  c_err s' = Some e /\ pc s' = Exited /\ c_stopped s' = true /\
  closed (c_conn s') = true /\
  (forall tag q t, txns s1 !! tag = Some (Some q) -> heap s1 !! q = Some t ->
     heap s' !! q = Some (fail_txn e t)).
Proof.
  cbn zeta. pose proof (nil_free_run Marshal Unmarshal s tr Henc Hnf) as Hnf1.
  split; [ exact Hnf1 | ].
  pose proof (nil_free_preserved Marshal Unmarshal (run s tr) (ActMux ev)
                Henc Hnf1) as Hnf2.
  cbn [Mux.act] in Hnf2. unfold Mux.mux_step in *. rewrite Hturn in *.
  rewrite (proj1 (proj2 (teardown_frame s1 e))) in Hnf2.
  destruct (teardown_broadcast s1 e Hnf2)
    as (Herr & Hpc & Hst & Hcl & _ & _ & _ & Hfail & _).
  auto 10.
Qed.

End WithCodec.

Lemma call_round_trip_witness :
  let res := Mux.call Sample.Marshal Sample.Unmarshal Sample.start 0%nat
               CaseSend [ActMux (Msg (PutUint32 0))] in
  res.1 = Some (Ok tt) /\ txns res.2 = delete 0 (txns Sample.start) /\
  pc res.2 = Running.
Proof.
  destruct (call_round_trip Sample.Marshal Sample.Unmarshal Sample.start
              0%nat 0 Sample.nop (PutUint32 0) (PutUint32 0)
              (mkResponse (Some 0) None None None [] None None None)
              (mkNetconn [] EndEOF (frame (PutUint32 0)) [] false))
    as (_ & Hok & _ & Htab & _ & _ & Hpc & _);
    try (vm_compute; reflexivity).
  split; [ now apply Hok | ]. split; assumption.
Defined.

Lemma absent_from_empty (p : ptr) :
  forall k : Z, (∅ : gmap Z (option ptr)) !! k <> Some (Some p).
Proof. intros k. rewrite lookup_empty. discriminate. Qed.

Lemma tags_stay_matched_witness :
  let tr := [ActMux (Send 0%nat); ActMux (Msg (PutUint32 0));
             ActMux (Send 1%nat)] in
  tags_match (Sample.exec Sample.start tr) /\
  txns (Sample.exec Sample.start tr) !! 0 = Some (Some 1%nat).
Proof.
  intros tr. split; [ | vm_compute; reflexivity ].
  refine (proj1 (tags_stay_matched Sample.Marshal Sample.Unmarshal
                   Sample.start tr _ _)).
  - intros k p H. cbn in H. rewrite lookup_empty in H. discriminate.
  - split; [ split; [ vm_compute; eauto | apply absent_from_empty ] | ].
    split; [ exact I | ].
    split; [ split; [ vm_compute; eauto | ] | exact I ].
    assert (Htab : txns (Mux.act Sample.Marshal Sample.Unmarshal
                     (Mux.act Sample.Marshal Sample.Unmarshal Sample.start
                        (ActMux (Send 0%nat)))
                     (ActMux (Msg (PutUint32 0)))) = ∅)
      by (vm_compute; reflexivity).
    rewrite Htab. apply absent_from_empty.
Defined.

Lemma write_failure_fails_all_witness :
  let s := dial (mkNetconn [] EndEOF [] [Some (ENet "broken pipe")] false)
             Sample.heap0 in
  let s' := Sample.step s (Send 0%nat) in
  c_err s' = Some (ENet "broken pipe") /\ pc s' = Exited /\
  heap s' !! 0%nat
  = Some (fail_txn (ENet "broken pipe") (stamp 0 Sample.nop)).
Proof.
  intros s s'.
  destruct (write_failure_fails_all Sample.Marshal Sample.Unmarshal s 0%nat 0
              Sample.nop (PutUint32 0) (ENet "broken pipe")
              (write (c_conn s) (PutUint32 0)).2)
    as (Herr & Hpc & _ & _ & Hp & _);
    try (vm_compute; reflexivity).
  - intros k. cbn. rewrite lookup_empty. discriminate.
  - apply absent_from_empty.
  - auto.
Defined.

Lemma broadcast_completes_witness :
  let enc := fun _ : request => inr [] : error + list byte in
  let s' := Mux.run enc Sample.Unmarshal Sample.start
              [ActMux (Send 0%nat); ActMux (ErrCh io_EOF)] in
  c_err s' = Some io_EOF /\ pc s' = Exited /\ closed (c_conn s') = true.
Proof.
  intros enc s'.
  destruct (broadcast_completes enc Sample.Unmarshal Sample.start
              (Mux.run enc Sample.Unmarshal Sample.start
                 [ActMux (Send 0%nat)])
              [ActMux (Send 0%nat)] (ErrCh io_EOF) io_EOF)
    as (_ & Herr & Hpc & _ & Hcl & _).
  - intros r. exists []. reflexivity.
  - intros k. cbn. rewrite lookup_empty. discriminate.
  - vm_compute. reflexivity.
  - auto.
Defined.

End MuxMore.

(** ** The reader goroutine *)

Module ReaderFacts.
Import Frame FrameFacts FrameMore Mux MuxFacts MuxMore.

Lemma read_ok_consumes (c c' : netconn) (buf : list byte) :
  read c = (Ok buf, c') ->
  (length (rd c') + 4 <= length (rd c))%nat.
Proof.
  unfold read. destruct (ReadFull c 4) as [[hdr|e|] c1] eqn:H1;
    try discriminate.
  apply ReadFull_ok in H1 as (Hhdr & Hl & Hrd1 & _).
  assert (H4 : (4 <= length (rd c))%nat).
  { rewrite Hhdr, length_take in Hl. lia. }
  destruct (int32 (Uint32 hdr) <? 0); [ discriminate | ].
  destruct (ReadFull c1 _) as [[b|e|] c2] eqn:H2; try discriminate.
  intros [= <- <-]. apply ReadFull_ok in H2 as (_ & _ & Hrd2 & _).
  rewrite Hrd2, Hrd1, !length_drop. lia.
Qed.

Lemma read_fail_transport (c c' : netconn) (e : error) :
  read c = (Fail e, c') -> is_transport e = true.
Proof.
  unfold read. destruct (ReadFull c 4) as [[hdr|e1|] c1] eqn:H1.
  - destruct (int32 (Uint32 hdr) <? 0); [ discriminate | ].
    destruct (ReadFull c1 _) as [[b|e2|] c2] eqn:H2; try discriminate.
    intros [= <- <-]. now apply ReadFull_fail in H2.
  - intros [= <- <-]. now apply ReadFull_fail in H1.
  - discriminate.
Qed.

(** [read] at the end of an open stream. *)
Lemma read_at_end (c : netconn) :
  closed c = false -> rd c = [] ->
  read c = (Fail (end_error (rd_end c) false),
            mkNetconn [] (rd_end c) (wr c) (wr_faults c) false).
Proof.
  intros Hopen Hrd. unfold read, ReadFull. now rewrite Hopen, Hrd.
Qed.

(** [read] on a closed stream fails. *)
Lemma read_closed (c : netconn) :
  closed c = true -> exists e c', read c = (Fail e, c').
Proof.
  intros Hcl. unfold read, ReadFull. rewrite Hcl. eauto.
Qed.

Lemma Write_stream (c : netconn) (b : list byte) :
  rd_end (Write c b).2 = rd_end c /\ closed (Write c b).2 = closed c.
Proof.
  unfold Write. destruct (closed c) eqn:Hc; [ auto | ].
  destruct (wr_faults c) as [|[e|] rest]; cbn; auto.
Qed.

Lemma write_stream (c : netconn) (buf : list byte) :
  rd_end (write c buf).2 = rd_end c /\ closed (write c buf).2 = closed c.
Proof.
  unfold write.
  pose proof (Write_stream c (PutUint32
               (uint32 (int32 (Z.of_nat (length buf)))))) as [H1 H2].
  destruct (Write c _) as [[e|] c1]; cbn in *; [ auto | ].
  destruct (Write_stream c1 buf) as [H3 H4]. split; congruence.
Qed.

Section WithCodec.

Variable Marshal : request -> error + list byte.
Variable Unmarshal : list byte -> error + response.

#[local] Abbreviation on_send := (Mux.on_send Marshal).
#[local] Abbreviation on_msg := (Mux.on_msg Unmarshal).
#[local] Abbreviation select_turn := (Mux.select_turn Marshal Unmarshal).
#[local] Abbreviation mux_step := (Mux.mux_step Marshal Unmarshal).
#[local] Abbreviation act := (Mux.act Marshal Unmarshal).
#[local] Abbreviation run := (Mux.run Marshal Unmarshal).
#[local] Abbreviation readAll := (Mux.readAll Marshal Unmarshal).

(** *** What the multiplexer does to the read side *)

Lemma select_turn_stream (s : sys) (ev : event) :
  rd_end (c_conn (select_turn s ev).1) = rd_end (c_conn s) /\
  closed (c_conn (select_turn s ev).1) = closed (c_conn s).
Proof.
  unfold Mux.select_turn. destruct (enabled s ev); [ | auto ].
  destruct ev as [p|buf|e|]; cbn [fst]; auto.
  - unfold Mux.on_send. destruct (find_unused _ _ _) as [k|]; [ | auto ].
    cbn -[stamp write]. destruct (heap s !! p) as [t|]; [ | auto ].
    destruct (Marshal _) as [e|b]; [ auto | ].
    pose proof (write_stream (c_conn s) b) as H.
    destruct (write (c_conn s) b) as [[e|] c']; cbn in *; exact H.
  - destruct (on_msg_frame Unmarshal s buf) as (_ & _ & _ & _ & -> & _).
    auto.
Qed.

Lemma act_rd_end (s : sys) (a : action) :
  rd_end (c_conn (act s a)) = rd_end (c_conn s).
Proof.
  destruct a as [|ev]; cbn [Mux.act].
  - now destruct (Close_frame s) as (_ & _ & _ & -> & _).
  - destruct (select_turn_stream s ev) as [H _].
    unfold Mux.mux_step. destruct (select_turn s ev) as [s1 [e|]];
      cbn [fst] in H; [ | exact H ].
    rewrite <- H. unfold teardown. cbn.
    destruct (fail_all e _ _) as [h [|]]; reflexivity.
Qed.

Lemma act_closed (s : sys) (a : action) :
  pc (act s a) = Running ->
  pc s = Running /\ closed (c_conn (act s a)) = closed (c_conn s).
Proof.
  destruct a as [|ev]; cbn [Mux.act].
  - destruct (Close_frame s) as (_ & _ & _ & -> & _ & _ & -> & _). auto.
  - intros Hr.
    destruct (still_running_frame Marshal Unmarshal s ev Hr)
      as (Hnone & _ & _ & _ & Hs).
    split; [ exact Hs | ].
    destruct (select_turn_stream s ev) as [_ H].
    unfold Mux.mux_step. destruct (select_turn s ev) as [s1 [e|]];
      cbn [fst snd] in *; [ discriminate | exact H ].
Qed.

Lemma run_stream (s : sys) (tr : list action) :
  rd (c_conn (run s tr)) = rd (c_conn s) /\
  rd_end (c_conn (run s tr)) = rd_end (c_conn s) /\
  (pc (run s tr) = Running ->
   pc s = Running /\ closed (c_conn (run s tr)) = closed (c_conn s)).
Proof.
  revert s. induction tr as [|a tr IH]; intros s; [ auto | ].
  cbn [Mux.run fold_left]. destruct (IH (act s a)) as (Hrd & Hend & Hcl).
  unfold Mux.run in *.
  destruct (act_leaves_alone Marshal Unmarshal s a) as (_ & Hrd1 & _).
  split; [ congruence | ]. split; [ now rewrite Hend, act_rd_end | ].
  intros Hr. destruct (Hcl Hr) as [Hr1 Hc1].
  destruct (act_closed s a Hr1) as [Hr0 Hc0]. split; congruence.
Qed.

Lemma enabled_Msg (s : sys) (buf : list byte) :
  enabled s (Msg buf) = true <-> pc s = Running.
Proof. unfold enabled. destruct (pc s); split; congruence. Qed.

Lemma mux_msg_frame (s : sys) (buf : list byte) :
  c_conn (mux_step s (Msg buf)) = c_conn s /\
  pc (mux_step s (Msg buf)) = pc s.
Proof.
  unfold Mux.mux_step, Mux.select_turn.
  destruct (enabled s (Msg buf)); cbn [fst snd]; [ | auto ].
  destruct (on_msg_frame Unmarshal s buf) as (_ & _ & _ & -> & -> & _).
  auto.
Qed.

(** A turn for a frame does not look at the stream. *)
Lemma mux_msg_set_conn (s : sys) (c : netconn) (buf : list byte) :
  mux_step (set_conn s c) (Msg buf) = set_conn (mux_step s (Msg buf)) c.
Proof.
  unfold Mux.mux_step, Mux.select_turn, enabled. cbn [pc set_conn].
  destruct (pc s); try reflexivity. cbn [fst snd].
  unfold Mux.on_msg. destruct (Unmarshal buf) as [e|r]; [ reflexivity | ].
  destruct (resp_Tag r); [ | reflexivity ]. cbn [txns set_conn].
  destruct (at_tag (txns s) _); reflexivity.
Qed.

Lemma run_msgs_set_conn (bufs : list (list byte)) :
  forall (s : sys) (c : netconn),
    run (set_conn s c) ((fun b => ActMux (Msg b)) <$> bufs)
    = set_conn (run s ((fun b => ActMux (Msg b)) <$> bufs)) c.
Proof.
  induction bufs as [|b bufs IH]; intros s c; [ reflexivity | ].
  rewrite fmap_cons. cbn [Mux.run fold_left Mux.act].
  rewrite mux_msg_set_conn. apply IH.
Qed.

(** *** The reader beside the multiplexer *)

(** X2.  On a stream that ends the reader never loops for ever: with fuel
    above the number of bytes left it comes to rest, whatever the other
    tasks do meanwhile.  It has then returned, with one transport error
    waiting on [errch]; or it has panicked in [read]; or it is left at
    [c.msg <- buf], which happens only when the goroutine of [mux] has
    left its [select], and then nothing that happens later lets the send
    complete: the reader stays blocked.  When the goroutine is gone from
    the start, the reader's first [read] decides: a frame leaves it blocked
    with that frame, nothing being taken; a failure makes it return with
    that error; a panic ends it. *)
Theorem readAll_ends (fuel : nat) :
  forall (sched : list (list action * list action)) (s : sys)
    (Hfuel : (length (rd (c_conn s)) < fuel)%nat),
  let r := readAll fuel sched s in
  match rr_end r with
  | Returned => exists e, rr_errch r = Some e /\ is_transport e = true
  | ReaderPanic => rr_errch r = None
  | Blocked buf =>
      rr_errch r = None /\ pc (rr_sys r) <> Running /\
      forall tr, enabled (run (rr_sys r) tr) (Msg buf) = false
  | StillReading => False
  end /\
  (pc s <> Running ->
   rr_taken r = [] /\
   match read (c_conn s) with
   | (Ok buf, _) => rr_end r = Blocked buf /\ rr_errch r = None
   | (Fail e, _) => rr_end r = Returned /\ rr_errch r = Some e
   | (Panic, _) => rr_end r = ReaderPanic /\ rr_errch r = None
   end).
Proof.
  induction fuel as [|fuel IH]; intros sched s Hfuel; [ lia | ].
  cbn [Mux.readAll]. destruct (next_turn sched) as [[before during] sched'].
  cbn zeta. destruct (run_stream s before) as (Hrd1 & _ & _).
  assert (Hstart : pc s <> Running ->
            c_conn (run s before) = c_conn s /\ pc (run s before) <> Running).
  { intros Hgone.
    destruct (gone_is_final Marshal Unmarshal s before Hgone)
      as (_ & _ & _ & Hc & _ & _ & Hpc & _). split; congruence. }
  destruct (read (c_conn (run s before))) as [[buf|e|] c'] eqn:Hr.
  - pose proof (read_ok_consumes _ _ _ Hr) as Hlen.
    set (s2 := run (set_conn (run s before) c') during).
    destruct (run_stream (set_conn (run s before) c') during)
      as (Hrd2 & _ & Hcl2). fold s2 in Hrd2, Hcl2.
    cbn [c_conn set_conn pc] in Hrd2, Hcl2.
    destruct (enabled s2 (Msg buf)) eqn:Hen.
    + cbn [rr_end rr_errch rr_sys rr_taken]. split.
      * apply IH. destruct (mux_msg_frame s2 buf) as [-> _].
        rewrite Hrd2. rewrite Hrd1 in Hlen. lia.
      * intros Hgone. destruct (Hstart Hgone) as [_ Hg1].
        apply enabled_Msg in Hen. destruct (Hcl2 Hen) as [Hr1 _].
        contradiction.
    + cbn [rr_end rr_errch rr_sys rr_taken].
      assert (Hgone : pc s2 <> Running).
      { intros Hrun. apply (proj2 (enabled_Msg s2 buf)) in Hrun.
        congruence. }
      split.
      * repeat split; [ exact Hgone | ]. intros tr.
        destruct (gone_is_final Marshal Unmarshal s2 tr Hgone)
          as (_ & _ & _ & _ & _ & _ & Hpc & _).
        destruct (enabled (run s2 tr) (Msg buf)) eqn:Hen'; [ | reflexivity ].
        apply enabled_Msg in Hen'. congruence.
      * intros Hg. destruct (Hstart Hg) as [Hc _]. rewrite <- Hc, Hr. auto.
  - cbn [rr_end rr_errch rr_taken]. split.
    + exists e. split; [ reflexivity | ].
      now apply read_fail_transport in Hr.
    + intros Hg. destruct (Hstart Hg) as [Hc _]. rewrite <- Hc, Hr. auto.
  - cbn [rr_end rr_errch rr_taken]. split; [ reflexivity | ].
    intros Hg. destruct (Hstart Hg) as [Hc _]. rewrite <- Hc, Hr. auto.
Qed.

(** The reader and the multiplexer alone: every frame is taken in its
    turn. *)
Lemma readAll_quiet (payloads : list (list byte)) :
  forall (fuel : nat) (s : sys),
    Forall (fun b => Z.of_nat (length b) < 2 ^ 31) payloads ->
    closed (c_conn s) = false ->
    rd (c_conn s) = mjoin (frame <$> payloads) ->
    (length payloads < fuel)%nat ->
    pc s = Running ->
    readAll fuel [] s
    = mkReaderRun payloads (Some (end_error (rd_end (c_conn s)) false))
        Returned
        (set_conn (run s ((fun b => ActMux (Msg b)) <$> payloads))
           (mkNetconn [] (rd_end (c_conn s)) (wr (c_conn s))
              (wr_faults (c_conn s)) false)).
Proof.
  induction payloads as [|b payloads IH];
    intros fuel s Hshort Hopen Hrd Hfuel Hrun;
    (destruct fuel as [|fuel]; [ cbn in Hfuel; lia | ]);
    cbn [Mux.readAll next_turn]; cbn zeta;
    change (run s []) with s.
  - cbn in Hrd. rewrite (read_at_end _ Hopen Hrd). reflexivity.
  - cbn [fmap list_fmap mjoin list_join] in Hrd.
    change (list_fmap _ _ frame payloads) with (frame <$> payloads) in Hrd.
    apply Forall_cons in Hshort as [Hb Hshort].
    rewrite (read_frame _ b _ Hb Hopen Hrd).
    set (c' := mkNetconn _ _ _ _ false).
    change (run (set_conn s c') []) with (set_conn s c').
    assert (Hen : enabled (set_conn s c') (Msg b) = true)
      by (apply enabled_Msg; exact Hrun).
    rewrite Hen, mux_msg_set_conn.
    rewrite (IH fuel (set_conn (mux_step s (Msg b)) c') Hshort);
      [ | reflexivity | reflexivity | cbn in Hfuel; lia
        | cbn [pc set_conn]; now destruct (mux_msg_frame s b) as [_ ->] ].
    cbn [rr_taken rr_errch rr_end rr_sys c_conn set_conn c' rd_end wr
         wr_faults].
    rewrite run_msgs_set_conn, fmap_cons. reflexivity.
Qed.

(** X3.  Frames reach the multiplexer as they came, none lost, doubled or
    out of order.  On an open stream that carries the frames of the
    payloads [payloads], each shorter than [2 ^ 31] bytes, and then ends:
    when the goroutine of [mux] is at its [select] and the other tasks do
    nothing, it takes every payload, in order, each in a turn of its own,
    and the reader returns with the end of the stream waiting on [errch].
    Whatever the other tasks do meanwhile: if the goroutine is still at its
    [select] in the end, it has taken every payload, in order, and the
    reader has returned in the same way; in any case the reader has
    returned after a prefix of the payloads was taken, or it is blocked for
    ever with the payload that comes next, the goroutine being gone. *)
Theorem readAll_frames (payloads : list (list byte)) (fuel : nat)
    (sched : list (list action * list action)) (s : sys)
    (Hshort : Forall (fun b => Z.of_nat (length b) < 2 ^ 31) payloads)
    (Hopen : closed (c_conn s) = false)
    (Hrd : rd (c_conn s) = mjoin (frame <$> payloads))
    (Hfuel : (length payloads < fuel)%nat) :
  let r := readAll fuel sched s in
  (pc s = Running ->
   readAll fuel [] s
   = mkReaderRun payloads (Some (end_error (rd_end (c_conn s)) false))
       Returned
       (set_conn (run s ((fun b => ActMux (Msg b)) <$> payloads))
          (mkNetconn [] (rd_end (c_conn s)) (wr (c_conn s))
             (wr_faults (c_conn s)) false))) /\
  (pc (rr_sys r) = Running ->
   rr_taken r = payloads /\ rr_end r = Returned /\
   rr_errch r = Some (end_error (rd_end (c_conn s)) false)) /\
  match rr_end r with
  | Returned => rr_taken r `prefix_of` payloads /\ is_Some (rr_errch r)
  | Blocked buf =>
      (exists rest, payloads = rr_taken r ++ buf :: rest) /\
      pc (rr_sys r) <> Running
  | _ => False
  end.
Proof.
  cbn zeta. split; [ now apply readAll_quiet | ].
  revert fuel sched s Hshort Hopen Hrd Hfuel.
  induction payloads as [|b payloads IH];
    intros fuel sched s Hshort Hopen Hrd Hfuel;
    (destruct fuel as [|fuel]; [ cbn in Hfuel; lia | ]);
    cbn [Mux.readAll]; destruct (next_turn sched) as [[before during] sched'];
    cbn zeta; destruct (run_stream s before) as (Hrd1 & Hend1 & Hcl1).
  - cbn in Hrd. rewrite Hrd in Hrd1.
    destruct (closed (c_conn (run s before))) eqn:Hc.
    + destruct (read_closed _ Hc) as (e & c' & ->).
      cbn [rr_end rr_taken rr_errch rr_sys pc set_conn]. split.
      * intros Hr. destruct (Hcl1 Hr) as [_ H]. congruence.
      * split; [ apply prefix_nil | eauto ].
    + rewrite (read_at_end _ Hc Hrd1).
      cbn [rr_end rr_taken rr_errch rr_sys]. rewrite Hend1.
      split; [ auto | ]. split; [ apply prefix_nil | eauto ].
  - cbn [fmap list_fmap mjoin list_join] in Hrd.
    change (list_fmap _ _ frame payloads) with (frame <$> payloads) in Hrd.
    apply Forall_cons in Hshort as [Hb Hshort].
    rewrite Hrd in Hrd1.
    destruct (closed (c_conn (run s before))) eqn:Hc.
    + destruct (read_closed _ Hc) as (e & c' & ->).
      cbn [rr_end rr_taken rr_errch rr_sys pc set_conn]. split.
      * intros Hr. destruct (Hcl1 Hr) as [_ H]. congruence.
      * split; [ apply prefix_nil | eauto ].
    + rewrite (read_frame _ b _ Hb Hc Hrd1).
      set (c' := mkNetconn _ _ _ _ false).
      set (s2 := run (set_conn (run s before) c') during).
      destruct (run_stream (set_conn (run s before) c') during)
        as (Hrd2 & Hend2 & Hcl2). fold s2 in Hrd2, Hend2, Hcl2.
      cbn [c_conn set_conn c' rd rd_end closed] in Hrd2, Hend2, Hcl2.
      destruct (enabled s2 (Msg b)) eqn:Hen.
      * apply enabled_Msg in Hen. destruct (Hcl2 Hen) as [_ Hopen2].
        destruct (mux_msg_frame s2 b) as [Hconn Hpc].
        specialize (IH fuel sched' (mux_step s2 (Msg b)) Hshort).
        rewrite Hconn, Hopen2, Hrd2, Hend2, Hend1 in IH.
        specialize (IH eq_refl eq_refl ltac:(cbn in Hfuel; lia)).
        cbn zeta in IH. destruct IH as [Hlive Hfin].
        cbn [rr_end rr_taken rr_errch rr_sys]. split.
        -- intros Hr. destruct (Hlive Hr) as (-> & -> & ->). auto.
        -- destruct (rr_end (readAll fuel sched' (mux_step s2 (Msg b))))
             as [| |buf|]; try contradiction.
           ++ destruct Hfin as [Hpre Herr]. split; [ | exact Herr ].
              now apply prefix_cons.
           ++ destruct Hfin as [[rest Hrest] Hgone].
              split; [ | exact Hgone ].
              exists rest. cbn [app]. f_equal. exact Hrest.
      * cbn [rr_end rr_taken rr_errch rr_sys].
        assert (Hgone : pc s2 <> Running).
        { intros Hrun. apply (proj2 (enabled_Msg s2 b)) in Hrun.
          congruence. }
        split; [ intros Hr; contradiction | ].
        split; [ exists payloads; reflexivity | exact Hgone ].
Qed.

End WithCodec.
Lemma readAll_ends_witness :
  let s := dial (mkNetconn (frame [Byte.x61] ++ frame []) EndEOF [] [] false)
             Sample.heap0 in
  let r := Mux.readAll Sample.Marshal Sample.Unmarshal 20
             [([], [ActClose; ActMux Stop])] s in
  rr_taken r = [] /\ rr_end r = Blocked [Byte.x61] /\
  rr_errch r = None /\ pc (rr_sys r) <> Running /\
  forall tr, enabled (Sample.exec (rr_sys r) tr) (Msg [Byte.x61]) = false.
Proof.
  intros s r.
  pose proof (readAll_ends Sample.Marshal Sample.Unmarshal 20
                [([], [ActClose; ActMux Stop])] s
                ltac:(vm_compute; lia)) as H.
  cbn zeta in H. fold r in H.
  assert (E : rr_end r = Blocked [Byte.x61]) by (vm_compute; reflexivity).
  rewrite E in H. split; [ vm_compute; reflexivity | ].
  split; [ exact E | exact (proj1 H) ].
Defined.

Lemma readAll_frames_witness :
  let s := dial (mkNetconn (frame [Byte.x61] ++ frame []) EndEOF [] [] false)
             Sample.heap0 in
  let r := Mux.readAll Sample.Marshal Sample.Unmarshal 3
             [([ActMux (Send 0%nat)], [ActClose])] s in
  rr_taken r = [[Byte.x61]; []] /\ rr_end r = Returned /\
  rr_errch r = Some io_EOF /\
  rr_taken (Mux.readAll Sample.Marshal Sample.Unmarshal 3 [] s)
  = [[Byte.x61]; []].
Proof.
  intros s r.
  destruct (readAll_frames Sample.Marshal Sample.Unmarshal [[Byte.x61]; []]
              3 [([ActMux (Send 0%nat)], [ActClose])] s)
    as (Hquiet & Hlive & _).
  - repeat constructor.
  - reflexivity.
  - vm_compute. reflexivity.
  - cbn. lia.
  - destruct (Hlive ltac:(vm_compute; reflexivity)) as (H1 & H2 & H3).
    split; [ exact H1 | ]. split; [ exact H2 | ]. split; [ exact H3 | ].
    now rewrite (Hquiet eq_refl).
Defined.
End ReaderFacts.

(** ** The client operations: every operation of [conn.go] *)

Module ClientMore.
Import Frame Mux Client ClientFacts.

Section WithWorld.

Variable World NetConn : Type.
Variable transact : Conn NetConn -> txn -> World -> observed * World.
Variable net_dial : string -> World -> (error + NetConn) * World.
Variable conn_Close : Conn NetConn -> World -> World.
Variable rand_Int : World -> Z * World.
Variable ParseQuery : string -> error + gmap string (list string).
Variable missing dir : Z.
Variable set del : Z.
Variable basename : string -> string.

#[local] Abbreviation Conn := (Client.Conn NetConn).
#[local] Abbreviation call := (Client.call World NetConn transact).
#[local] Abbreviation Access := (Client.Access World NetConn transact).
#[local] Abbreviation Set_ := (Client.Set_ World NetConn transact).
#[local] Abbreviation Del := (Client.Del World NetConn transact).
#[local] Abbreviation Nop := (Client.Nop World NetConn transact).
#[local] Abbreviation Get := (Client.Get World NetConn transact).
#[local] Abbreviation Rev_ := (Client.Rev_ World NetConn transact).
#[local] Abbreviation Stat := (Client.Stat World NetConn transact).
#[local] Abbreviation Wait := (Client.Wait World NetConn transact set del).
#[local] Abbreviation Getdir := (Client.Getdir World NetConn transact).
#[local] Abbreviation Walk := (Client.Walk World NetConn transact).
#[local] Abbreviation Statinfo :=
  (Client.Statinfo World NetConn transact missing dir basename).
#[local] Abbreviation Getdirinfo_loop :=
  (Client.Getdirinfo_loop World NetConn transact missing dir basename).
#[local] Abbreviation Getdirinfo :=
  (Client.Getdirinfo World NetConn transact missing dir basename).
#[local] Abbreviation lookup_loop :=
  (Client.lookup_loop World NetConn transact).
#[local] Abbreviation lookup := (Client.lookup World NetConn transact).
#[local] Abbreviation dial := (Client.dial World NetConn net_dial).
#[local] Abbreviation dialUri_connect :=
  (Client.dialUri_connect World NetConn transact net_dial conn_Close rand_Int).
#[local] Abbreviation dialUri :=
  (Client.dialUri World NetConn transact net_dial conn_Close rand_Int
     ParseQuery).

(** *** A stopped connection *)

Lemma call_stopped (c : Conn) (t : txn) (e : error) (w w1 : World) :
  transact c t w = (SawStopped (Some e), w1) ->
  call c t w = Val (Some e, t) w1.
Proof. intros H. unfold Client.call. now rewrite H. Qed.

(** X10.  On a stopped connection every operation returns the recorded
    error, in one call and with the zero values of its other results: so
    do [Access], [Set], [Del], [Nop], [Get], [Rev], [Stat], [Statinfo] and
    [Wait], and so do [Getdir], [Walk], [Getdirinfo] and [lookup], which
    stop at their first call. *)
Theorem stopped_connection_fails_all (c : Conn) (e : error) (w w1 : World)
    (Hstopped : forall t, transact c t w = (SawStopped (Some e), w1))
    (Hplain : is_Error_with ErrRange (Some e) = false) :
  (forall token, Access c token w = Val (Some e) w1) /\
  (forall file rev body, Set_ c file rev body w = Val (0, Some e) w1) /\
  (forall file rev, Del c file rev w = Val (Some e) w1) /\
  Nop c w = Val (Some e) w1 /\
  (forall file rev, Get c file rev w = Val ([], 0, Some e) w1) /\
  Rev_ c w = Val (0, Some e) w1 /\
  (forall path rev, Stat c path rev w = Val (0, 0, Some e) w1) /\
  (forall rev path, Statinfo c rev path w = Val (None, Some e) w1) /\
  (forall glob rev, Wait c glob rev w = Val (Event_zero, Some e) w1) /\
  (forall fuel d rev off lim, lim <> 0 ->
     Getdir (S fuel) c d rev off lim w = Val ([], Some e) w1 /\
     Walk (S fuel) c d rev off lim w = Val ([], Some e) w1 /\
     Getdirinfo (S fuel) c d rev off lim w = Val ([], Some e) w1) /\
  (forall fuel name, lookup fuel c name w = Val ([], Some e) w1).
Proof.
  assert (Hcall : forall t, call c t w = Val (Some e, t) w1)
    by (intros t; now apply call_stopped).
  assert (Hstat : forall path rev, Stat c path rev w = Val (0, 0, Some e) w1).
  { intros. unfold Client.Stat. unfold_M. now rewrite Hcall. }
  assert (Hrev : Rev_ c w = Val (0, Some e) w1).
  { unfold Client.Rev_. unfold_M. now rewrite Hcall. }
  assert (Hgetdir : forall fuel d rev off lim, lim <> 0 ->
            Getdir (S fuel) c d rev off lim w = Val ([], Some e) w1).
  { intros fuel d rev off lim Hlim. unfold Client.Getdir.
    cbn [Client.Getdir_loop]. destruct (Z.eqb_spec lim 0); [ lia | ].
    unfold_M. now rewrite Hcall, Hplain. }
  repeat split.
  - intros. unfold Client.Access. unfold_M. now rewrite Hcall.
  - intros. unfold Client.Set_. unfold_M. now rewrite Hcall.
  - intros. unfold Client.Del. unfold_M. now rewrite Hcall.
  - unfold Client.Nop. unfold_M. now rewrite Hcall.
  - intros. unfold Client.Get. unfold_M. now rewrite Hcall.
  - exact Hrev.
  - exact Hstat.
  - intros. unfold Client.Statinfo. unfold_M. now rewrite Hstat.
  - intros. unfold Client.Wait. unfold_M. now rewrite Hcall.
  - now apply Hgetdir.
  - unfold Client.Walk. cbn [Client.Walk_loop].
    destruct (Z.eqb_spec lim 0); [ lia | ].
    unfold_M. now rewrite Hcall, Hplain.
  - unfold Client.Getdirinfo. unfold_M. now rewrite Hgetdir.
  - intros. unfold Client.lookup. unfold_M. now rewrite Hrev.
Qed.

(** *** [Statinfo] *)

Lemma Statinfo_one_of (c : Conn) (rev : Z) (path : string)
    (fp : option FileInfo) (err : option error) (w w' : World) :
  Statinfo c rev path w = Val (fp, err) w' -> (fp = None <-> is_Some err).
Proof.
  unfold Client.Statinfo. unfold mbind at 1, Client.M_bind at 1.
  destruct (Stat c path (Some rev) w) as [[[len frev] serr] w1| |];
    try discriminate.
  destruct serr as [e|]; [ unfold_M; intros [= <- <- <-]; split; eauto | ].
  destruct (frev =? missing); unfold_M; intros [= <- <- <-];
    (split; [ eauto; discriminate | try (intros [x [=]]); eauto ]).
Qed.

(** X11.  [Statinfo] returns a file's metadata or an error, never both and
    never neither.  The metadata carries the length and revision that
    [Stat] returned, the base name of the path, [IsSet], and [IsDir]
    exactly for the directory sentinel; a revision equal to the missing
    sentinel gives no metadata but the bare code [ErrNoEnt], which is not a
    structured error. *)
Theorem Statinfo_outcome (c : Conn) (rev : Z) (path : string)
    (fp : option FileInfo) (err : option error) (w w' : World)
    (H : Statinfo c rev path w = Val (fp, err) w') :
  (fp = None <-> is_Some err) /\
  (exists len frev serr, Stat c path (Some rev) w = Val (len, frev, serr) w' /\
     match serr with
     | Some e => fp = None /\ err = Some e
     | None =>
         if frev =? missing
         then fp = None /\ err = Some (ECode ErrNoEnt) /\
              is_Error_with ErrNoEnt err = false
         else fp = Some (mkFileInfo (basename path) len frev true
                           (frev =? dir)) /\ err = None
     end).
Proof.
  revert H. unfold Client.Statinfo. unfold mbind at 1, Client.M_bind at 1.
  destruct (Stat c path (Some rev) w) as [[[len frev] serr] w1| |];
    try discriminate.
  destruct serr as [e|].
  - unfold_M. intros [= <- <- <-]. split.
    + split; eauto.
    + exists len, frev, (Some e). auto.
  - destruct (frev =? missing) eqn:Hm; unfold_M; intros [= <- <- <-].
    + split; [ split; eauto | ].
      exists len, frev, None. rewrite Hm. auto.
    + split; [ split; [ discriminate | intros [x [=]] ] | ].
      exists len, frev, None. rewrite Hm. auto.
Qed.

(** *** What the single-call operations make of an answer *)

Lemma call_reply (c : Conn) (t : txn) (r : response) (w : World) :
  server_answers World NetConn transact c t r ->
  exists t' w', t_resp t' = Some r /\
    call c t w
    = Val (match resp_ErrCode r with
           | Some code => Some (EError (newError t' r code))
           | None => None
           end, t') w'.
Proof.
  intros Hs. destruct (Hs w) as (t' & w' & Htr & He & Hr).
  exists t', w'. split; [ exact Hr | ].
  unfold Client.call, after_done. rewrite Htr, He, Hr.
  now destruct (resp_ErrCode r).
Qed.

Lemma is_Error_with_same (x : Error) :
  is_Error_with (Err x) (Some (EError x)) = true.
Proof.
  unfold is_Error_with. destruct (Err x); auto using Z.eqb_refl.
Qed.

Lemma call_rejected (c : Conn) (t : txn) (r : response) code (w : World) :
  server_answers World NetConn transact c t r ->
  resp_ErrCode r = Some code ->
  exists err t' w', call c t w = Val (err, t') w' /\
    rejected code (resp_ErrDetail r) err /\ err <> None.
Proof.
  intros Hs Hc. destruct (call_reply c t r w Hs) as (t' & w' & _ & Hcall).
  rewrite Hc in Hcall. eexists _, t', w'. split; [ exact Hcall | ].
  split; [ | discriminate ].
  exists (newError t' r code). repeat split.
  apply (is_Error_with_same (newError t' r code)).
Qed.

(** X12.  When the server answers a request with an error code, the
    operation returns a structured error with that code and the detail of
    that response, and the zero values of its other results: so for
    [Access], [Set], [Del], [Nop], [Get], [Rev], [Stat], [Statinfo] and
    [Wait]. *)
Theorem error_code_is_returned (c : Conn) (reply : request -> response)
    (code : response_Err) (w : World)
    (Hans : forall t, server_answers World NetConn transact c t
                        (reply (t_req t)))
    (Hcode : forall rq, resp_ErrCode (reply rq) = Some code) :
  let detail := fun t : txn => resp_ErrDetail (reply (t_req t)) in
  (forall token, exists err w',
     Access c token w = Val err w' /\
     rejected code
       (detail (with_req request_ACCESS None token None None)) err) /\
  (forall file rev body, exists err w',
     Set_ c file rev body w = Val (0, err) w' /\
     rejected code
       (detail (with_req request_SET (Some file) body (Some rev) None)) err) /\
  (forall file rev, exists err w',
     Del c file rev w = Val err w' /\
     rejected code
       (detail (with_req request_DEL (Some file) [] (Some rev) None)) err) /\
  (exists err w',
     Nop c w = Val err w' /\
     rejected code (detail (with_req request_NOP None [] None None)) err) /\
  (forall file rev, exists err w',
     Get c file rev w = Val ([], 0, err) w' /\
     rejected code
       (detail (with_req request_GET (Some file) [] rev None)) err) /\
  (exists err w',
     Rev_ c w = Val (0, err) w' /\
     rejected code (detail (with_req request_REV None [] None None)) err) /\
  (forall path rev, exists err w',
     Stat c path rev w = Val (0, 0, err) w' /\
     rejected code
       (detail (with_req request_STAT (Some path) [] rev None)) err) /\
  (forall rev path, exists err w',
     Statinfo c rev path w = Val (None, err) w' /\
     rejected code
       (detail (with_req request_STAT (Some path) [] (Some rev) None)) err) /\
  (forall glob rev, exists err w',
     Wait c glob rev w = Val (Event_zero, err) w' /\
     rejected code (detail (wait_txn glob rev)) err).
Proof.
  intros detail.
  assert (Hcall : forall t, exists err t' w',
            call c t w = Val (err, t') w' /\ rejected code (detail t) err /\
            err <> None).
  { intros t. apply (call_rejected c t _ code w (Hans t) (Hcode _)). }
  assert (Hstat : forall path rev, exists err w',
            Stat c path rev w = Val (0, 0, err) w' /\
            rejected code
              (detail (with_req request_STAT (Some path) [] rev None)) err /\
            err <> None).
  { intros path rev.
    destruct (Hcall (with_req request_STAT (Some path) [] rev None))
      as (err & t' & w' & H1 & H2 & H3).
    exists err, w'. unfold Client.Stat. unfold_M. rewrite H1.
    destruct err; [ auto | congruence ]. }
  repeat split.
  - intros token.
    destruct (Hcall (with_req request_ACCESS None token None None))
      as (err & t' & w' & H1 & H2 & H3).
    exists err, w'. unfold Client.Access. unfold_M. now rewrite H1.
  - intros file rev body.
    destruct (Hcall (with_req request_SET (Some file) body (Some rev) None))
      as (err & t' & w' & H1 & H2 & H3).
    exists err, w'. unfold Client.Set_. unfold_M. rewrite H1.
    destruct err; [ auto | congruence ].
  - intros file rev.
    destruct (Hcall (with_req request_DEL (Some file) [] (Some rev) None))
      as (err & t' & w' & H1 & H2 & H3).
    exists err, w'. unfold Client.Del. unfold_M. now rewrite H1.
  - destruct (Hcall (with_req request_NOP None [] None None))
      as (err & t' & w' & H1 & H2 & H3).
    exists err, w'. unfold Client.Nop. unfold_M. now rewrite H1.
  - intros file rev.
    destruct (Hcall (with_req request_GET (Some file) [] rev None))
      as (err & t' & w' & H1 & H2 & H3).
    exists err, w'. unfold Client.Get. unfold_M. rewrite H1.
    destruct err; [ auto | congruence ].
  - destruct (Hcall (with_req request_REV None [] None None))
      as (err & t' & w' & H1 & H2 & H3).
    exists err, w'. unfold Client.Rev_. unfold_M. rewrite H1.
    destruct err; [ auto | congruence ].
  - intros path rev. destruct (Hstat path rev) as (err & w' & H1 & H2 & _).
    now exists err, w'.
  - intros rev path.
    destruct (Hstat path (Some rev)) as (err & w' & H1 & H2 & H3).
    exists err, w'. unfold Client.Statinfo. unfold_M. rewrite H1.
    destruct err; [ auto | congruence ].
  - intros glob rev.
    destruct (Hcall (wait_txn glob rev)) as (err & t' & w' & H1 & H2 & H3).
    exists err, w'. unfold Client.Wait. unfold_M. rewrite H1.
    destruct err; [ auto | congruence ].
Qed.

(** X13.  When the server answers without an error code, [Set] and [Rev]
    return the revision of the response, [Get] its value and revision,
    [Stat] its length and revision; an answer that lacks one of these
    fields makes the operation panic, for it dereferences the field
    unchecked. *)
Theorem reply_fields_are_returned (c : Conn) (reply : request -> response)
    (w : World)
    (Hans : forall t, server_answers World NetConn transact c t
                        (reply (t_req t))) :
  (forall file old body,
     let r := reply (t_req (with_req request_SET (Some file) body (Some old)
                              None)) in
     resp_ErrCode r = None ->
     match resp_Rev r with
     | Some v => exists w', Set_ c file old body w = Val (v, None) w'
     | None => Set_ c file old body w = Crash
     end) /\
  (let r := reply (t_req (with_req request_REV None [] None None)) in
   resp_ErrCode r = None ->
   match resp_Rev r with
   | Some v => exists w', Rev_ c w = Val (v, None) w'
   | None => Rev_ c w = Crash
   end) /\
  (forall file rev,
     let r := reply (t_req (with_req request_GET (Some file) [] rev None)) in
     resp_ErrCode r = None ->
     match resp_Rev r with
     | Some v => exists w', Get c file rev w = Val (resp_Value r, v, None) w'
     | None => Get c file rev w = Crash
     end) /\
  (forall path rev,
     let r := reply (t_req (with_req request_STAT (Some path) [] rev None)) in
     resp_ErrCode r = None ->
     match resp_Len r, resp_Rev r with
     | Some l, Some v => exists w', Stat c path rev w = Val (l, v, None) w'
     | _, _ => Stat c path rev w = Crash
     end).
Proof.
  assert (Hcall : forall t, resp_ErrCode (reply (t_req t)) = None ->
            exists t' w', t_resp t' = Some (reply (t_req t)) /\
                          call c t w = Val (None, t') w').
  { intros t Hc. destruct (call_reply c t _ w (Hans t)) as (t' & w' & Hr & H).
    rewrite Hc in H. now exists t', w'. }
  repeat split.
  - intros file old body r Hc. destruct (Hcall _ Hc) as (t' & w' & Hr & H).
    fold r in Hr. unfold Client.Set_. unfold_M. rewrite H, Hr. unfold_M.
    destruct (resp_Rev r); unfold_M; eauto.
  - intros r Hc. destruct (Hcall _ Hc) as (t' & w' & Hr & H).
    fold r in Hr. unfold Client.Rev_. unfold_M. rewrite H, Hr. unfold_M.
    destruct (resp_Rev r); unfold_M; eauto.
  - intros file rev r Hc. destruct (Hcall _ Hc) as (t' & w' & Hr & H).
    fold r in Hr. unfold Client.Get. unfold_M. rewrite H, Hr. unfold_M.
    destruct (resp_Rev r); unfold_M; eauto.
  - intros path rev r Hc. destruct (Hcall _ Hc) as (t' & w' & Hr & H).
    fold r in Hr. unfold Client.Stat. unfold_M. rewrite H, Hr. unfold_M.
    destruct (resp_Len r); unfold_M; [ | reflexivity ].
    destruct (resp_Rev r); unfold_M; eauto.
Qed.

(** *** [Getdirinfo] *)

Lemma Getdirinfo_loop_entries (c : Conn) (rev : Z) (dir_ : string)
    (Hstat : forall path w0, exists fp e w2,
               Statinfo c rev path w0 = Val (fp, e) w2)
    (names : list string) :
  forall (i : nat) (a : list FileInfo) (err : option error) (w : World),
    (i + length names <= length a)%nat ->
    exists res err' w',
      Getdirinfo_loop c rev dir_ i names a err w = Val (res, err') w' /\
      length res = length a /\
      (forall j, (j < i)%nat -> res !! j = a !! j) /\
      forall (j : nat) name, names !! j = Some name ->
        (exists e w0 w2 f0,
           Statinfo c rev (dir_ +:+ name) w0 = Val (None, Some e) w2 /\
           a !! (i + j)%nat = Some f0 /\
           res !! (i + j)%nat = Some (name_only name f0)) \/
        (exists f w0 w2,
           Statinfo c rev (dir_ +:+ name) w0 = Val (Some f, None) w2 /\
           res !! (i + j)%nat = Some f).
Proof.
  induction names as [|name rest IH]; intros i a err w Hlen.
  - exists a, err, w. repeat split. intros j name [=].
  - cbn [length] in Hlen.
    destruct (Hstat (dir_ +:+ name) w) as (fp & e & w1 & Hs).
    pose proof (Statinfo_one_of c rev _ fp e w w1 Hs) as Hiff.
    destruct (lookup_lt_is_Some_2 a i ltac:(lia)) as [f0 Hf0].
    destruct e as [e|].
    + assert (fp = None) as -> by (apply Hiff; eauto).
      rewrite (Getdirinfo_loop_failure _ _ transact missing dir basename
                 c rev dir_ i name rest a err e w w1 Hs).
      destruct (IH (S i) (alter (name_only name) i a) (Some e) w1)
        as (res & err' & w' & Hrun & Hl & Hlow & Hent).
      { rewrite length_alter. lia. }
      exists res, err', w'. split; [ exact Hrun | ].
      split; [ now rewrite Hl, length_alter | ].
      split.
      { intros j Hj. rewrite Hlow by lia.
        apply list_lookup_alter_ne. lia. }
      intros [|j] nm Hnm.
      * injection Hnm as <-. left. exists e, w, w1, f0.
        rewrite Nat.add_0_r. repeat split; [ exact Hs | exact Hf0 | ].
        rewrite Hlow by lia. rewrite list_lookup_alter_eq, Hf0. reflexivity.
      * cbn in Hnm. replace (i + S j)%nat with (S i + j)%nat by lia.
        destruct (Hent j nm Hnm)
          as [(e' & w0 & w2 & f1 & H1 & H2 & H3)|H]; [ left | now right ].
        exists e', w0, w2, f1. repeat split; [ exact H1 | | exact H3 ].
        rewrite list_lookup_alter_ne in H2 by lia. exact H2.
    + destruct fp as [f|].
      2:{ destruct Hiff as [Hiff _]. destruct (Hiff eq_refl) as [x [=]]. }
      rewrite (Getdirinfo_loop_success _ _ transact missing dir basename
                 c rev dir_ i name rest a err f w w1 Hs).
      destruct (IH (S i) (<[i := f]> a) None w1)
        as (res & err' & w' & Hrun & Hl & Hlow & Hent).
      { rewrite length_insert. lia. }
      exists res, err', w'. split; [ exact Hrun | ].
      split; [ now rewrite Hl, length_insert | ].
      split.
      { intros j Hj. rewrite Hlow by lia.
        apply list_lookup_insert_ne. lia. }
      intros [|j] nm Hnm.
      * injection Hnm as <-. right. exists f, w, w1.
        rewrite Nat.add_0_r. split; [ exact Hs | ].
        rewrite Hlow by lia. apply list_lookup_insert_eq. lia.
      * cbn in Hnm. replace (i + S j)%nat with (S i + j)%nat by lia.
        destruct (Hent j nm Hnm)
          as [(e' & w0 & w2 & f1 & H1 & H2 & H3)|H]; [ left | now right ].
        exists e', w0, w2, f1. repeat split; [ exact H1 | | exact H3 ].
        rewrite list_lookup_insert_ne in H2 by lia. exact H2.
Qed.

(** X14.  [Getdirinfo] returns one entry for each name that [Getdir]
    listed, in the same order: the metadata that [Statinfo] gave for the
    child, or, where [Statinfo] failed, an entry with the name alone
    (length and revision 0, neither set nor a directory).  The child of
    the directory [/] is asked for as [/name], of any other as
    [dir/name]. *)
Theorem Getdirinfo_entries (fuel : nat) (c : Conn) (d : string)
    (rev off lim : Z) (names : list string) (w w1 : World)
    (Hdir : Getdir fuel c d rev off lim w = Val (names, None) w1)
    (Hstat : forall path w0, exists fp e w2,
               Statinfo c rev path w0 = Val (fp, e) w2) :
  exists a err w',
    Getdirinfo fuel c d rev off lim w = Val (a, err) w' /\
    length a = length names /\
    forall (j : nat) name, names !! j = Some name ->
      let path := (if String.eqb d "/" then d else d +:+ "/") +:+ name in
      (exists e w0 w2,
         Statinfo c rev path w0 = Val (None, Some e) w2 /\
         a !! j = Some (mkFileInfo name 0 0 false false)) \/
      (exists f w0 w2,
         Statinfo c rev path w0 = Val (Some f, None) w2 /\
         a !! j = Some f).
Proof.
  unfold Client.Getdirinfo. unfold mbind at 1, Client.M_bind at 1.
  rewrite Hdir. cbn zeta.
  destruct (Getdirinfo_loop_entries c rev
              (if String.eqb d "/" then d else d +:+ "/") Hstat names 0
              (replicate (length names) FileInfo_zero) None w1)
    as (res & err' & w' & Hrun & Hl & _ & Hent).
  { rewrite length_replicate. lia. }
  exists res, err', w'. split; [ exact Hrun | ].
  split; [ now rewrite Hl, length_replicate | ].
  intros j name Hnm.
  destruct (Hent j name Hnm)
    as [(e & w0 & w2 & f0 & H1 & H2 & H3)|H]; [ left | now right ].
  exists e, w0, w2. split; [ exact H1 | ].
  cbn [Nat.add] in H2, H3. apply lookup_replicate in H2 as [-> _].
  exact H3.
Qed.

(** *** [lookup] *)

Lemma lookup_loop_bodies (b : Conn) (p : string) (rev : Z)
    (body : string -> list byte) (names : list string) :
  forall (acc : list string) (w : World),
    (forall nm, nm ∈ names -> forall w0, exists frev w0',
        Get b (p +:+ nm) (Some rev) w0 = Val (body nm, frev, None) w0') ->
    exists w',
      lookup_loop b p rev names acc w
      = Val (acc ++ ((fun nm => String.string_of_list_byte (body nm))
                       <$> names), None) w'.
Proof.
  induction names as [|nm rest IH]; intros acc w Hget.
  - exists w. cbn. now rewrite app_nil_r.
  - destruct (Hget nm ltac:(left) w) as (frev & w0' & Hg).
    destruct (IH (acc ++ [String.string_of_list_byte (body nm)]) w0')
      as (w' & Hrun).
    { intros nm' Hin. apply Hget. now right. }
    exists w'. cbn [Client.lookup_loop].
    unfold mbind at 1, Client.M_bind at 1. rewrite Hg, Hrun.
    now rewrite fmap_cons, <- app_assoc.
Qed.

Lemma lookup_loop_Get_fails (b : Conn) (p : string) (rev : Z)
    (body : string -> list byte) (e : error) (bad : string)
    (post pre : list string) :
  forall (acc : list string) (w : World),
    (forall nm, nm ∈ pre -> forall w0, exists frev w0',
        Get b (p +:+ nm) (Some rev) w0 = Val (body nm, frev, None) w0') ->
    (forall w0, exists bdy frev w0',
        Get b (p +:+ bad) (Some rev) w0 = Val (bdy, frev, Some e) w0') ->
    exists w',
      lookup_loop b p rev (pre ++ bad :: post) acc w = Val ([], Some e) w'.
Proof.
  induction pre as [|nm rest IH]; intros acc w Hget Hbad.
  - destruct (Hbad w) as (bdy & frev & w0' & Hg). exists w0'.
    cbn [app Client.lookup_loop].
    unfold mbind at 1, Client.M_bind at 1. now rewrite Hg.
  - destruct (Hget nm ltac:(left) w) as (frev & w0' & Hg).
    destruct (IH (acc ++ [String.string_of_list_byte (body nm)]) w0')
      as (w' & Hrun); [ | exact Hbad | ].
    { intros nm' Hin. apply Hget. now right. }
    exists w'. rewrite <- app_comm_cons. cbn [Client.lookup_loop].
    unfold mbind at 1, Client.M_bind at 1. now rewrite Hg, Hrun.
Qed.

(** X15.  [lookup] asks for the revision, lists [/ctl/ns/name] at that
    revision from position 0 without a limit, reads every entry at that
    same revision and returns the bodies as strings, one for each listed
    name and in the order of the listing. *)
Theorem lookup_returns_bodies (fuel : nat) (b : Conn) (name : string)
    (rev : Z) (names : list string) (body : string -> list byte)
    (w w1 w2 : World)
    (Hrev : Rev_ b w = Val (rev, None) w1)
    (Hdir : Getdir fuel b ("/ctl/ns/" +:+ name) rev 0 (-1) w1
            = Val (names, None) w2)
    (Hget : forall nm, nm ∈ names -> forall w0, exists frev w0',
        Get b ((("/ctl/ns/" +:+ name) +:+ "/") +:+ nm) (Some rev) w0
        = Val (body nm, frev, None) w0') :
  exists w',
    lookup fuel b name w
    = Val ((fun nm => String.string_of_list_byte (body nm)) <$> names, None)
        w'.
Proof.
  destruct (lookup_loop_bodies b (("/ctl/ns/" +:+ name) +:+ "/") rev body
              names [] w2 Hget) as (w' & Hrun).
  exists w'. unfold Client.lookup.
  unfold mbind at 1, Client.M_bind at 1. rewrite Hrev. cbn zeta.
  unfold mbind at 1, Client.M_bind at 1. rewrite Hdir.
  cbn [is_Error_with]. exact Hrun.
Qed.

(** X16.  When reading one of the listed entries fails, [lookup] returns
    that error and no address at all, whatever it had read before. *)
Theorem lookup_Get_failure (fuel : nat) (b : Conn) (name : string)
    (rev : Z) (pre post : list string) (bad : string)
    (body : string -> list byte) (e : error) (w w1 w2 : World)
    (Hrev : Rev_ b w = Val (rev, None) w1)
    (Hdir : Getdir fuel b ("/ctl/ns/" +:+ name) rev 0 (-1) w1
            = Val (pre ++ bad :: post, None) w2)
    (Hget : forall nm, nm ∈ pre -> forall w0, exists frev w0',
        Get b ((("/ctl/ns/" +:+ name) +:+ "/") +:+ nm) (Some rev) w0
        = Val (body nm, frev, None) w0')
    (Hbad : forall w0, exists bdy frev w0',
        Get b ((("/ctl/ns/" +:+ name) +:+ "/") +:+ bad) (Some rev) w0
        = Val (bdy, frev, Some e) w0') :
  exists w', lookup fuel b name w = Val ([], Some e) w'.
Proof.
  destruct (lookup_loop_Get_fails b (("/ctl/ns/" +:+ name) +:+ "/") rev body
              e bad post pre [] w2 Hget Hbad) as (w' & Hrun).
  exists w'. unfold Client.lookup.
  unfold mbind at 1, Client.M_bind at 1. rewrite Hrev. cbn zeta.
  unfold mbind at 1, Client.M_bind at 1. rewrite Hdir.
  cbn [is_Error_with]. exact Hrun.
Qed.

Lemma Getdir_loop_error_empty (c : Conn) (d : string) (rev : Z)
    (fuel : nat) :
  forall (off lim : Z) (acc names : list string) (e : error) (w w' : World),
    Client.Getdir_loop World NetConn transact fuel c d rev off lim acc w
    = Val (names, Some e) w' ->
    names = [].
Proof.
  induction fuel as [|fuel IH]; intros off lim acc names e w w';
    cbn [Client.Getdir_loop]; destruct (lim =? 0); try discriminate.
  unfold mbind at 1, Client.M_bind at 1.
  destruct (call c (getdir_txn d rev off) w) as [[err t] w1| |];
    try discriminate.
  destruct (is_Error_with ErrRange err); [ discriminate | ].
  destruct err as [e0|]; [ now intros [= <- _ _] | ].
  unfold mbind at 1, Client.M_bind at 1.
  destruct (t_resp t) as [r|]; unfold_M; [ | discriminate ].
  destruct (resp_Path r) as [path|]; unfold_M; [ | discriminate ].
  apply IH.
Qed.

(** X17.  An error of [Getdir] that is not a structured error (a failure
    of the connection, say) is lost in [lookup]: the test after the type
    assertion sees a nil pointer, and [lookup] returns no address and no
    error. *)
Theorem lookup_drops_plain_error (fuel : nat) (b : Conn) (name : string)
    (rev : Z) (names : list string) (e : error) (w w1 w2 : World)
    (Hrev : Rev_ b w = Val (rev, None) w1)
    (Hdir : Getdir fuel b ("/ctl/ns/" +:+ name) rev 0 (-1) w1
            = Val (names, Some e) w2)
    (Hplain : forall x, e <> EError x) :
  lookup fuel b name w = Val ([], None) w2.
Proof.
  assert (names = []) as ->.
  { revert Hdir. unfold Client.Getdir. apply Getdir_loop_error_empty. }
  unfold Client.lookup.
  unfold mbind at 1, Client.M_bind at 1. rewrite Hrev. cbn zeta.
  unfold mbind at 1, Client.M_bind at 1. rewrite Hdir.
  destruct e; try reflexivity. now destruct (Hplain e).
Qed.

(** *** [dialUri] *)

(** X18.  [dialUri] refuses a URI without the prefix [doozer:?], and one
    that has no [ca] address when it has no [cn] cluster name or comes
    without a bootstrap URI, with [ErrInvalidUri]; a query that does not
    parse gives the error of the parser.  None of these dials or draws a
    random number.  A cluster name without a bootstrap URI is ignored: the
    [ca] addresses are dialled. *)
Theorem dialUri_without_bootstrap (d fuel : nat) (uri buri : string)
    (w : World) :
  (String.prefix uriPrefix uri = false ->
   dialUri (S d) fuel uri buri w = Val (None, Some ErrInvalidUri) w) /\
  (String.prefix uriPrefix uri = true ->
   match ParseQuery (String.substring (String.length uriPrefix)
                       (String.length uri - String.length uriPrefix) uri) with
   | inl e => dialUri (S d) fuel uri buri w = Val (None, Some e) w
   | inr p =>
       p !! "cn" = None \/ buri = "" ->
       dialUri (S d) fuel uri buri w
       = match p !! "ca" with
         | Some addrs => dialUri_connect p addrs w
         | None => Val (None, Some ErrInvalidUri) w
         end
   end).
Proof.
  split; intros Hpre; cbn [Client.dialUri]; rewrite Hpre; cbn [negb];
    [ reflexivity | ].
  destruct (ParseQuery _) as [e|p]; [ reflexivity | ].
  intros [Hcn | ->].
  - rewrite Hcn. now destruct (p !! "ca").
  - change (negb ("" =? "")%string) with false. cbn iota.
    destruct (p !! "cn"); now destruct (p !! "ca").
Qed.

(** X19.  With at least one address and a random number that is not
    negative, the end of [dialUri] dials a member of the address list.  A
    failed dial is returned as it is.  Without a secret the connection is
    returned at once; with one, [Access] is called with its first value,
    and when that fails the connection is closed and the error returned. *)
Theorem dialUri_connect_outcome (p : gmap string (list string))
    (addrs : list string) (r : Z) (w w1 : World)
    (Hne : addrs <> [])
    (Hrand : rand_Int w = (r, w1))
    (Hpos : 0 <= r) :
  exists a, a ∈ addrs /\
    addrs !! Z.to_nat (r mod Z.of_nat (length addrs)) = Some a /\
    match net_dial a w1 with
    | (inl e, w2) => dialUri_connect p addrs w = Val (None, Some e) w2
    | (inr nc, w2) =>
        let c := mkConn a nc in
        match p !! "sk" with
        | None => dialUri_connect p addrs w = Val (Some c, None) w2
        | Some [] => dialUri_connect p addrs w = Crash
        | Some (sk :: _) =>
            match Access c (String.list_byte_of_string sk) w2 with
            | Val (Some e) w3 =>
                dialUri_connect p addrs w
                = Val (None, Some e) (conn_Close c w3)
            | Val None w3 => dialUri_connect p addrs w = Val (Some c, None) w3
            | Crash => dialUri_connect p addrs w = Crash
            | Spin => dialUri_connect p addrs w = Spin
            end
        end
    end.
Proof.
  assert (Hlen : 0 < Z.of_nat (length addrs)).
  { destruct addrs; [ congruence | cbn [length]; lia ]. }
  pose proof (Z.mod_pos_bound r _ Hlen) as Hb.
  destruct (lookup_lt_is_Some_2 addrs
              (Z.to_nat (r mod Z.of_nat (length addrs))) ltac:(lia))
    as [a Ha].
  exists a. split; [ eapply list_elem_of_lookup_2; exact Ha | ].
  split; [ exact Ha | ].
  remember (dialUri_connect p addrs w) as res eqn:Hres.
  unfold Client.dialUri_connect, Client.rand, Client.go_rem, Client.index
    in Hres.
  unfold mbind at 1, Client.M_bind at 1 in Hres. rewrite Hrand in Hres.
  destruct (Z.eqb_spec (Z.of_nat (length addrs)) 0); [ lia | ].
  revert Hres. unfold_M. rewrite Z.rem_mod_nonneg by lia.
  destruct (Z.ltb_spec (r mod Z.of_nat (length addrs)) 0); [ lia | ].
  rewrite Ha. unfold_M. unfold Client.dial.
  destruct (net_dial a w1) as [[e|nc] w2]; [ now intros -> | ].
  cbn zeta. unfold_M.
  destruct (p !! "sk") as [[|sk rest]|]; [ now intros -> | | now intros -> ].
  change (Z.to_nat 0) with 0%nat. change (0 <? 0) with false.
  change ((sk :: rest) !! 0%nat) with (Some sk). cbn beta iota.
  unfold Client.Close.
  destruct (Access (mkConn a nc) (String.list_byte_of_string sk) w2)
    as [[e|] w3| |]; now intros ->.
Qed.

End WithWorld.
(** *** The sample worlds *)

Lemma cluster_answers (c : Client.Conn unit) (t : txn) :
  req_Verb (t_req t) <> Some request_GETDIR ->
  Client.server_answers unit unit Cluster.transact c t
    (Cluster.reply (t_req t)).
Proof.
  intros Hv w. eexists _, _. unfold Cluster.transact.
  destruct (req_Verb (t_req t)) as [[]|]; try congruence; repeat split.
Qed.

Lemma stopped_connection_fails_all_witness :
  Client.Get unit unit Cluster.stopped Demo.c0 "/d/a" None tt
    = Val ([], 0, Some ErrClosed) tt /\
  Client.Getdirinfo unit unit Cluster.stopped Demo.missing Demo.dir
    Demo.basename 3 Demo.c0 "/d" 7 0 (-1) tt
    = Val ([], Some ErrClosed) tt /\
  Client.lookup unit unit Cluster.stopped 3 Demo.c0 "c" tt
    = Val ([], Some ErrClosed) tt.
Proof.
  destruct (stopped_connection_fails_all unit unit Cluster.stopped
              Demo.missing Demo.dir Demo.set Demo.del Demo.basename Demo.c0
              ErrClosed tt tt)
    as (_ & _ & _ & _ & Hget & _ & _ & _ & _ & Hdir & Hlook).
  - reflexivity.
  - reflexivity.
  - split; [ apply Hget | ]. split; [ | apply Hlook ].
    apply (Hdir 2%nat "/d" 7 0 (-1)). lia.
Defined.

Lemma Statinfo_outcome_witness :
  exists len frev,
    Client.Stat unit unit Demo.transact Demo.c0 "/d/b" (Some 7) tt
      = Val (len, frev, None) tt /\
    Some (mkFileInfo "b" 3 5 true false)
      = Some (mkFileInfo (Demo.basename "/d/b") len frev true
                (frev =? Demo.dir)).
Proof.
  destruct (Statinfo_outcome unit unit Demo.transact Demo.missing Demo.dir
              Demo.basename Demo.c0 7 "/d/b"
              (Some (mkFileInfo "b" 3 5 true false)) None tt tt)
    as (_ & len & frev & serr & Hstat & Hres).
  - vm_compute. reflexivity.
  - exists len, frev. destruct serr as [e|].
    + destruct Hres as [[=] _].
    + split; [ exact Hstat | ].
      destruct (frev =? Demo.missing); [ destruct Hres as [[=] _] | ].
      apply Hres.
Defined.

Lemma error_code_is_returned_witness :
  (exists err w',
     Client.Del unit unit Cluster.refusing Demo.c0 "/d/a" 7 tt = Val err w' /\
     rejected ErrNoEnt (Some "no such entry") err) /\
  (exists err w',
     Client.Stat unit unit Cluster.refusing Demo.c0 "/d/a" None tt
       = Val (0, 0, err) w' /\
     rejected ErrNoEnt (Some "no such entry") err).
Proof.
  destruct (error_code_is_returned unit unit Cluster.refusing
              Demo.missing Demo.dir Demo.set Demo.del Demo.basename Demo.c0
              Cluster.refuse ErrNoEnt tt)
    as (_ & _ & Hdel & _ & _ & _ & Hstat & _).
  - intros t w. eexists _, _. repeat split.
  - reflexivity.
  - split; [ apply Hdel | apply Hstat ].
Defined.

Lemma reply_fields_are_returned_witness :
  (exists w', Client.Rev_ unit unit Demo.transact Demo.c0 tt
              = Val (7, None) w') /\
  (exists w', Client.Stat unit unit Demo.transact Demo.c0 "/d/b" (Some 7) tt
              = Val (3, 5, None) w') /\
  Client.Get unit unit Demo.transact Demo.c0 "/d/b" None tt = Crash.
Proof.
  destruct (reply_fields_are_returned unit unit Demo.transact Demo.c0
              Demo.reply tt (demo_answers Demo.c0))
    as (_ & Hrev & Hget & Hstat).
  split; [ exact (Hrev eq_refl) | ].
  split; [ exact (Hstat "/d/b" (Some 7) eq_refl) | ].
  exact (Hget "/d/b" None eq_refl).
Defined.

Lemma demo_Statinfo_returns (path : string) (w0 : unit) :
  exists fp e w2,
    Client.Statinfo unit unit Demo.transact Demo.missing Demo.dir
      Demo.basename Demo.c0 7 path w0 = Val (fp, e) w2.
Proof.
  unfold Client.Statinfo, Client.Stat, Client.call, Demo.transact,
    after_done, Demo.reply.
  cbn. destruct (String.eqb path "/d/b"); cbn; eauto.
Defined.

Lemma Getdirinfo_entries_witness :
  exists a err w',
    Client.Getdirinfo unit unit Demo.transact Demo.missing Demo.dir
      Demo.basename 3 Demo.c0 "/d" 7 0 (-1) tt = Val (a, err) w' /\
    length a = 2%nat /\
    a !! 0%nat = Some (mkFileInfo "a" 0 0 false false) /\
    a !! 1%nat = Some (mkFileInfo "b" 3 5 true false).
Proof.
  destruct (Getdirinfo_entries unit unit Demo.transact Demo.missing Demo.dir
              Demo.basename 3 Demo.c0 "/d" 7 0 (-1) ["a"; "b"] tt tt)
    as (a & err & w' & Hrun & Hlen & Hent).
  - vm_compute. reflexivity.
  - apply demo_Statinfo_returns.
  - exists a, err, w'. split; [ exact Hrun | ]. split; [ exact Hlen | ].
    split.
    + destruct (Hent 0%nat "a" eq_refl)
        as [(e & w0 & w2 & _ & Ha)|(f & [] & [] & Hf & _)];
        [ exact Ha | vm_compute in Hf; discriminate ].
    + destruct (Hent 1%nat "b" eq_refl)
        as [(e & [] & [] & He & _)|(f & [] & [] & Hf & Ha)];
        [ vm_compute in He; discriminate | ].
      vm_compute in Hf. injection Hf as <-. exact Ha.
Defined.

Lemma cluster_Get (nm : string) (w0 : unit) :
  nm ∈ ["1"; "2"] ->
  exists frev w0',
    Client.Get unit unit Cluster.transact Demo.c0
      ((("/ctl/ns/" +:+ "c") +:+ "/") +:+ nm) (Some 7) w0
    = Val (String.list_byte_of_string ("10.0.0." +:+ nm +:+ ":8046"), frev,
           None) w0'.
Proof.
  intros Hin. exists 5, w0.
  apply elem_of_cons in Hin as [->|Hin];
    [ | apply elem_of_cons in Hin as [->|Hin] ].
  - reflexivity.
  - reflexivity.
  - now apply elem_of_nil in Hin.
Defined.

Lemma lookup_returns_bodies_witness :
  exists w',
    Client.lookup unit unit Cluster.transact 3 Demo.c0 "c" tt
    = Val (["10.0.0.1:8046"; "10.0.0.2:8046"], None) w'.
Proof.
  destruct (lookup_returns_bodies unit unit Cluster.transact 3 Demo.c0 "c" 7
              ["1"; "2"]
              (fun nm => String.list_byte_of_string
                           ("10.0.0." +:+ nm +:+ ":8046")) tt tt tt)
    as (w' & Hrun).
  - reflexivity.
  - vm_compute. reflexivity.
  - intros nm Hin w0. now apply cluster_Get.
  - exists w'. exact Hrun.
Defined.

Lemma lookup_Get_failure_witness :
  exists x w',
    Client.lookup unit unit Cluster.transact 3 Demo.c0 "old" tt
    = Val ([], Some (EError x)) w' /\ Err x = ErrNoEnt.
Proof.
  pose (x := mkError ErrNoEnt None
               (mkRequest None (Some request_GET) (Some "/ctl/ns/old/2") []
                  (Some 7) None)).
  destruct (lookup_Get_failure unit unit Cluster.transact 3 Demo.c0 "old" 7
              ["1"] [] "2"
              (fun _ => String.list_byte_of_string "10.0.0.1:8046")
              (EError x) tt tt tt)
    as (w' & Hrun).
  - reflexivity.
  - vm_compute. reflexivity.
  - intros nm Hin w0. exists 5, w0.
    apply elem_of_cons in Hin as [->|Hin];
      [ reflexivity | now apply elem_of_nil in Hin ].
  - intros w0. exists [], 0, w0. reflexivity.
  - exists x, w'. split; [ exact Hrun | reflexivity ].
Defined.

Lemma lookup_drops_plain_error_witness :
  Client.lookup unit unit Cluster.transact 3 Demo.c0 "down" tt
  = Val ([], None) tt.
Proof.
  apply (lookup_drops_plain_error unit unit Cluster.transact 3 Demo.c0
           "down" 7 [] io_EOF tt tt tt).
  - reflexivity.
  - vm_compute. reflexivity.
  - discriminate.
Defined.

Lemma dialUri_without_bootstrap_witness :
  Client.dialUri unit unit Demo.transact Demo.net_dial Demo.conn_Close
    Demo.rand_Int Demo.ParseQuery 2 3 "http://10.0.0.1:8046" "" tt
  = Val (None, Some ErrInvalidUri) tt /\
  Client.dialUri unit unit Demo.transact Demo.net_dial Demo.conn_Close
    Demo.rand_Int Demo.ParseQuery 2 3 "doozer:?cn=c&sk=secret" "" tt
  = Val (None, Some ErrInvalidUri) tt.
Proof.
  split.
  - apply (proj1 (dialUri_without_bootstrap unit unit Demo.transact
                    Demo.net_dial Demo.conn_Close Demo.rand_Int
                    Demo.ParseQuery 1 3 "http://10.0.0.1:8046" "" tt)).
    reflexivity.
  - pose proof (proj2 (dialUri_without_bootstrap unit unit Demo.transact
                         Demo.net_dial Demo.conn_Close Demo.rand_Int
                         Demo.ParseQuery 1 3 "doozer:?cn=c&sk=secret" "" tt)
                  eq_refl) as H.
    exact (H (or_intror eq_refl)).
Defined.

Lemma dialUri_connect_outcome_witness :
  let addrs := ["10.0.0.1:8046"; "10.0.0.2:8046"] in
  exists a, a ∈ addrs /\
    Client.dialUri_connect unit unit Cluster.transact Demo.net_dial
      Demo.conn_Close Demo.rand_Int {[ "sk" := ["secret"] ]} addrs tt
    = Val (Some (mkConn a tt), None) tt.
Proof.
  intros addrs.
  destruct (dialUri_connect_outcome unit unit Cluster.transact Demo.net_dial
              Demo.conn_Close Demo.rand_Int {[ "sk" := ["secret"] ]} addrs
              0 tt tt)
    as (a & Hin & Ha & Hres).
  - discriminate.
  - reflexivity.
  - lia.
  - exists a. split; [ exact Hin | ].
    vm_compute in Ha. injection Ha as <-. vm_compute in Hres |- *.
    exact Hres.
Defined.
End ClientMore.
